(** * lego-bot-uk: the scraping, merging and calendar-export core of [bot.py]

    A shallow embedding of the functions [scrape_lego_news],
    [auto_scrape_task], [create_ics_file] and [export_all_events] of
    [src/bot.py], with the properties of the specification stated over it.

    Text is modelled by its UTF-8 bytes ([string]).  [str.lower] is taken
    on the ASCII letters; [re] reads the bytes as code points, with the
    digits, the white space and the case folding of Unicode.  The Telegram
    front end, the network and the file system enter only through the
    values they hand to the core: the fetched document, the stored
    catalog, the clock.

    The library calls of the code are modelled as far as the code uses
    them: [re.search] by a backtracking matcher, [datetime.fromisoformat]
    and the sum of a date and a [timedelta] on the fields of the date,
    [pytz]'s [localize], the [add] and [add_component] of [icalendar], and
    the [find] and the subscript of [BeautifulSoup] on a page given as its
    [<article>] elements.  A Python exception is a value of [Exc]; the
    serialisation of a calendar is left out, a document is the calendar
    itself. *)

From Stdlib Require Import Ascii String.
From stdpp Require Import base tactics option list numbers strings pretty gmap sorting.


(** ** Python strings *)

(** [c.lower()] on one ASCII character. *)
Definition lower_ascii (c : ascii) : ascii :=
  let n := nat_of_ascii c in
  if (65 <=? n) && (n <=? 90) then ascii_of_nat (n + 32) else c.

(** [s.lower()] *)
Fixpoint lower (s : string) : string :=
  match s with
  | EmptyString => EmptyString
  | String c s' => String (lower_ascii c) (lower s')
  end.

(** [s.startswith(p)] *)
Fixpoint startswith (p s : string) : bool :=
  match p, s with
  | EmptyString, _ => true
  | String a p', String b s' => if decide (a = b) then startswith p' s' else false
  | String _ _, EmptyString => false
  end.

(** [sub in s] *)
Fixpoint contains (sub s : string) : bool :=
  startswith sub s ||
  match s with
  | EmptyString => false
  | String _ s' => contains sub s'
  end.

(** The line feed, ['\n']. *)
Definition newline : string := String (ascii_of_nat 10) EmptyString.

(** [str(n)] for a natural number. *)
Definition str (n : nat) : string := pretty n.

(** ** Python exceptions

    A computation that may raise: the exception classes are those the
    modelled calls can raise, and every one of them is an [Exception], so
    that [except Exception] catches it. *)

Inductive Exn : Type :=
  KeyError | ValueError | TypeError | OverflowError | AttributeError.

Inductive Exc (A : Type) : Type :=
  | Raise (e : Exn)
  | Ok (a : A).
Global Arguments Raise {A} e.
Global Arguments Ok {A} a.

Global Instance Exc_ret : MRet Exc := @Ok.
Global Instance Exc_bind : MBind Exc := λ A B f m,
  match m with
  | Raise e => Raise e
  | Ok a => f a
  end.

(** ** Events and the catalog *)

(** An event is the dictionary built by [scrape_lego_news]; the keys ['id']
    and ['created_at'] are absent until [auto_scrape_task] sets them. *)
Record Event := mkEvent {
  title : string;
  location : string;
  date : string;
  date_display : string;
  store : string;
  description : string;
  source : string;
  url : string;
  id_ : option string;
  created_at : option string
}.

(** A Python [dict] with string keys: an association list in insertion
    order, each key at most once ([dict_wf]). *)
Definition PyDict (V : Type) : Type := list (string * V).

Definition dict_wf {V} (d : PyDict V) : Prop := NoDup d.*1.

(** [d[k]], [None] for a KeyError. *)
Fixpoint dict_get {V} (k : string) (d : PyDict V) : option V :=
  match d with
  | [] => None
  | (k', v) :: d' => if decide (k = k') then Some v else dict_get k d'
  end.

(** [d[k] = v]: the value of an existing key is replaced where it stands, a
    new key goes to the end. *)
Fixpoint dict_set {V} (k : string) (v : V) (d : PyDict V) : PyDict V :=
  match d with
  | [] => [(k, v)]
  | (k', v') :: d' =>
      if decide (k = k') then (k, v) :: d' else (k', v') :: dict_set k v d'
  end.

(** [d.values()] *)
Definition dict_values {V} (d : PyDict V) : list V := d.*2.

(** ** [auto_scrape_task]: merging the scraped events into the catalog *)

(** [{e['title'] for e in existing_events.values()}] *)
Definition existing_titles (existing_events : PyDict Event) : gset string :=
  list_to_set (title <$> dict_values existing_events).

(** The two assignments [event['id'] = event_id] and
    [event['created_at'] = ...]. *)
Definition set_id_created (event : Event) (event_id now : string) : Event :=
  {| title := title event; location := location event; date := date event;
     date_display := date_display event; store := store event;
     description := description event; source := source event;
     url := url event;
     id_ := Some event_id; created_at := Some now |}.

(** The state of the loop: the dictionary being filled, the counter, and
    the events handed to [broadcast_new_event], oldest first. *)
Record MergeState := mkMergeState {
  existing_events : PyDict Event;
  new_count : nat;
  broadcast : list Event
}.

(** [f"auto_{n}"] *)
Definition auto_id (n : nat) : string := "auto_" +:+ str n.

(** [len(existing_events) + new_count + 1] *)
Definition next_number (st : MergeState) : nat :=
  length (existing_events st) + new_count st + 1.

(** One round of [for event in all_new_events].  [titles] is the set built
    before the loop; [clock k] is the reading of [datetime.now().isoformat()]
    when [k] events have been added.  [len(existing_events)] is taken from
    the dictionary as it is in this round. *)
Definition merge_step (titles : gset string) (clock : nat → string)
    (st : MergeState) (event : Event) : MergeState :=
  if decide (title event ∈ titles) then st
  else
    let event_id := auto_id (next_number st) in
    let event' := set_id_created event event_id (clock (new_count st)) in
    {| existing_events := dict_set event_id event' (existing_events st);
       new_count := new_count st + 1;
       broadcast := broadcast st ++ [event'] |}.

(** The state before the loop. *)
Definition merge_init (stored : PyDict Event) : MergeState :=
  {| existing_events := stored; new_count := 0; broadcast := [] |}.

Definition merge_loop (clock : nat → string) (stored : PyDict Event)
    (all_new_events : list Event) : MergeState :=
  foldl (merge_step (existing_titles stored) clock) (merge_init stored)
        all_new_events.

(** [auto_scrape_task] after the scrape: [stored] is the content of the
    events file, the result is the content of the file afterwards together
    with the events that were broadcast.  The file is written only when
    [new_count > 0]. *)
Definition auto_scrape_task (clock : nat → string) (stored : PyDict Event)
    (all_new_events : list Event) : PyDict Event * list Event :=
  match all_new_events with
  | [] => (stored, [])
  | _ =>
      let st := merge_loop clock stored all_new_events in
      if decide (0 < new_count st) then (existing_events st, broadcast st)
      else (stored, broadcast st)
  end.

(** *** Vocabulary for the properties of the merge *)

(** The event carries the identifier [auto_n]. *)
Definition has_number (e : Event) (n : nat) : Prop := id_ e = Some (auto_id n).

(** Both events carry an identifier, the first the smaller number. *)
Definition id_lt (e1 e2 : Event) : Prop :=
  ∃ n1 n2, has_number e1 n1 ∧ has_number e2 n2 ∧ n1 < n2.

(** No key of the catalog is an identifier a merge into it can assign: the
    numbers assigned start above the size of the catalog. *)
Definition no_clash (stored : PyDict Event) : Prop :=
  ∀ k m, k ∈ stored.*1 → length stored < m → k ≠ auto_id m.

(** A candidate as the scraper leaves it: no identifier, no time stamp. *)
Definition candidate (t : string) : Event :=
  {| title := t; location := "UK"; date := "TBA"; date_display := "待公布";
     store := "LEGO Store"; description := "查看連結了解活動詳情";
     source := "auto_scrape"; url := ""; id_ := None; created_at := None |}.

(** The events broadcast so far carry numbers from [lo] up to the next
    number, and stand in the dictionary under their identifiers. *)
Definition added_ok (lo : nat) (st : MergeState) : Prop :=
  lo ≤ next_number st ∧
  Forall (λ e, ∃ n, lo ≤ n < next_number st ∧ has_number e n ∧
                    dict_get (auto_id n) (existing_events st) = Some e)
         (broadcast st).

(** No key of the dictionary is an identifier still to be assigned. *)
Definition clash_free (st : MergeState) : Prop :=
  ∀ k m, k ∈ (existing_events st).*1 → next_number st ≤ m → k ≠ auto_id m.

(** Without a clash the next number runs two ahead for every event added,
    and the [k]-th event broadcast carries the number [lo + 2k]. *)
Definition gap_ok (lo : nat) (st : MergeState) : Prop :=
  clash_free st ∧
  new_count st = length (broadcast st) ∧
  next_number st = lo + 2 * new_count st ∧
  ∀ k e, broadcast st !! k = Some e → has_number e (lo + 2 * k).


(** ** Text as [re] reads it

    A Python string is a sequence of code points, and [re] matches on
    them; a [string] here holds the UTF-8 bytes of a Python string.
    [decode] gives the code points of the bytes and [encode] the bytes of
    the code points.  A byte that belongs to no character stands for
    itself, as the code point that [surrogateescape] gives it, so that
    [encode] undoes [decode] on every [string]. *)

Local Open Scope N_scope.

Definition byte (n : N) : ascii := ascii_of_N n.

(** The UTF-8 bytes of one code point. *)
Definition utf8 (c : N) : string :=
  if c <? 0x80 then String (byte c) ""
  else if c <? 0x800 then
    String (byte (0xC0 + c `div` 64)) (String (byte (0x80 + c `mod` 64)) "")
  else if c <? 0x10000 then
    String (byte (0xE0 + c `div` 4096))
      (String (byte (0x80 + (c `div` 64) `mod` 64))
         (String (byte (0x80 + c `mod` 64)) ""))
  else
    String (byte (0xF0 + c `div` 262144))
      (String (byte (0x80 + (c `div` 4096) `mod` 64))
         (String (byte (0x80 + (c `div` 64) `mod` 64))
            (String (byte (0x80 + c `mod` 64)) ""))).

Definition encode_char (c : N) : string :=
  if (0xDC80 <=? c) && (c <=? 0xDCFF) then String (byte (c - 0xDC00)) ""
  else utf8 c.

Fixpoint encode (cs : list N) : string :=
  match cs with
  | [] => ""
  | c :: cs' => encode_char c +:+ encode cs'
  end.

(** A code point that UTF-8 writes: none of the surrogates, and none
    above U+10FFFF. *)
Definition is_scalar (c : N) : bool :=
  (c <? 0xD800) || ((0xDFFF <? c) && (c <? 0x110000)).

(** The bytes [bs] write the code point [c]. *)
Definition writes (c : N) (bs : string) : bool :=
  is_scalar c && bool_decide (utf8 c = bs).

Fixpoint decode (s : string) : list N :=
  match s with
  | EmptyString => []
  | String b0 s1 =>
      let n0 := N_of_ascii b0 in
      let alone := (if n0 <? 0x80 then n0 else 0xDC00 + n0) :: decode s1 in
      match s1 with
      | String b1 s2 =>
          let n1 := N_of_ascii b1 in
          let c2 := (n0 - 0xC0) * 64 + (n1 - 0x80) in
          if writes c2 (String b0 (String b1 "")) then c2 :: decode s2
          else
            match s2 with
            | String b2 s3 =>
                let n2 := N_of_ascii b2 in
                let c3 := ((n0 - 0xE0) * 64 + (n1 - 0x80)) * 64
                          + (n2 - 0x80) in
                if writes c3 (String b0 (String b1 (String b2 "")))
                then c3 :: decode s3
                else
                  match s3 with
                  | String b3 s4 =>
                      let n3 := N_of_ascii b3 in
                      let c4 := (((n0 - 0xF0) * 64 + (n1 - 0x80)) * 64
                                 + (n2 - 0x80)) * 64 + (n3 - 0x80) in
                      if writes c4 (String b0 (String b1 (String b2
                                      (String b3 ""))))
                      then c4 :: decode s4
                      else alone
                  | EmptyString => alone
                  end
            | EmptyString => alone
            end
      | EmptyString => alone
      end
  end.

(** [\d]: the decimal digits of Unicode, ten from each of these zeros
    (Unicode 14, which Python 3.11 has). *)
Definition digit_zeros : list N :=
  [0x30; 0x660; 0x6f0; 0x7c0; 0x966; 0x9e6; 0xa66; 0xae6; 0xb66; 0xbe6;
   0xc66; 0xce6; 0xd66; 0xde6; 0xe50; 0xed0; 0xf20; 0x1040; 0x1090; 0x17e0;
   0x1810; 0x1946; 0x19d0; 0x1a80; 0x1a90; 0x1b50; 0x1bb0; 0x1c40; 0x1c50;
   0xa620; 0xa8d0; 0xa900; 0xa9d0; 0xa9f0; 0xaa50; 0xabf0; 0xff10; 0x104a0;
   0x10d30; 0x11066; 0x110f0; 0x11136; 0x111d0; 0x112f0; 0x11450; 0x114d0;
   0x11650; 0x116c0; 0x11730; 0x118e0; 0x11950; 0x11c50; 0x11d50; 0x11da0;
   0x16a60; 0x16ac0; 0x16b50; 0x1d7ce; 0x1d7d8; 0x1d7e2; 0x1d7ec; 0x1d7f6;
   0x1e140; 0x1e2f0; 0x1e950; 0x1fbf0].

Definition re_digit (c : N) : bool :=
  existsb (λ zero, (zero <=? c) && (c <? zero + 10)) digit_zeros.

(** [\s]: the white space of Unicode, in these ranges. *)
Definition space_ranges : list (N * N) :=
  [(0x9, 0xd); (0x1c, 0x20); (0x85, 0x85); (0xa0, 0xa0); (0x1680, 0x1680);
   (0x2000, 0x200a); (0x2028, 0x2029); (0x202f, 0x202f); (0x205f, 0x205f);
   (0x3000, 0x3000)].

Definition re_space (c : N) : bool :=
  existsb (λ r, (r.1 <=? c) && (c <=? r.2)) space_ranges.

(** [re.IGNORECASE] on a letter of a pattern: a character of the text
    matches an ASCII character of the pattern when both fold to the same
    one.  Beside the capital letters, the dotted capital I and the
    dotless i fold to [i], the long s to [s] and the Kelvin sign to
    [k]. *)
Definition fold_case (c : N) : N :=
  if (0x41 <=? c) && (c <=? 0x5A) then c + 32
  else if (c =? 0x130) || (c =? 0x131) then 0x69
  else if c =? 0x17F then 0x73
  else if c =? 0x212A then 0x6B
  else c.

Local Close Scope N_scope.

(** ** Regular expressions, as far as [re.search] is used

    A backtracking matcher in continuation-passing style: alternatives are
    tried from left to right, repetitions and options are greedy, and the
    first way to complete the whole match wins, as in Python's [re].  The
    literals of an expression are ASCII text. *)

Inductive regex : Type :=
  | Class (p : N → bool)
  | Lit (s : string)
  | Seq (r1 r2 : regex)
  | Alt (r1 r2 : regex)
  | Rep (lo : nat) (hi : option nat) (p : N → bool)
  | Opt (r : regex)
  | Group (i : nat) (r : regex).

(** The groups that took part in the match and their texts. *)
Definition Groups : Type := list (nat * list N).

(** [m.group(i)], as its bytes: [None] when group [i] did not take
    part. *)
Fixpoint group (i : nat) (gs : Groups) : option string :=
  match gs with
  | [] => None
  | (j, w) :: gs' => if decide (i = j) then Some (encode w) else group i gs'
  end.

(** A literal under [re.IGNORECASE]: the rest of the text when the literal
    is a prefix of it up to case. *)
Fixpoint strip_prefix_ci (l s : list N) : option (list N) :=
  match l, s with
  | [], _ => Some s
  | a :: l', b :: s' =>
      if decide (fold_case a = fold_case b) then strip_prefix_ci l' s'
      else None
  | _ :: _, [] => None
  end.

(** What was consumed between the text [s] and its suffix [s']. *)
Definition consumed (s s' : list N) : list N :=
  take (length s - length s') s.

(** [a or b] on the outcome of two attempts. *)
Definition or_else {A} (a b : option A) : option A :=
  match a with Some x => Some x | None => b end.

Section matcher.
Context {R : Type}.

(** Greedy [p{lo,hi}]: as many characters of the class as allowed, then
    one fewer, and so on down to [lo]. *)
Fixpoint match_rep (p : N → bool) (lo : nat) (hi : option nat)
    (s : list N) (k : list N → option R) : option R :=
  let stop := match lo with 0 => k s | S _ => None end in
  match hi, s with
  | Some 0, _ => stop
  | _, [] => stop
  | _, c :: s' =>
      if p c then or_else (match_rep p (pred lo) (pred <$> hi) s' k) stop
      else stop
  end.

Fixpoint match_re (r : regex) (s : list N) (gs : Groups)
    (k : list N → Groups → option R) : option R :=
  match r with
  | Class p =>
      match s with
      | c :: s' => if p c then k s' gs else None
      | [] => None
      end
  | Lit l =>
      match strip_prefix_ci (decode l) s with
      | Some s' => k s' gs
      | None => None
      end
  | Seq r1 r2 => match_re r1 s gs (λ s' gs', match_re r2 s' gs' k)
  | Alt r1 r2 => or_else (match_re r1 s gs k) (match_re r2 s gs k)
  | Rep lo hi p => match_rep p lo hi s (λ s', k s' gs)
  | Opt r1 => or_else (match_re r1 s gs k) (k s gs)
  | Group i r1 =>
      match_re r1 s gs (λ s' gs', k s' ((i, consumed s s') :: gs'))
  end.
End matcher.

(** The end of the expression: the match is complete, with its groups. *)
Definition search_end : list N → Groups → option Groups := λ _ gs, Some gs.

(** [re.search(r, s, re.IGNORECASE)]: the match at the leftmost position
    where one exists, as its groups. *)
Fixpoint re_search_from (r : regex) (s : list N) : option Groups :=
  or_else (match_re r s [] search_end)
          match s with
          | [] => None
          | _ :: s' => re_search_from r s'
          end.

Definition re_search (r : regex) (s : string) : option Groups :=
  re_search_from r (decode s).

(** ** [scrape_lego_news]: from the page to the candidates *)

(** An [<a>] element: its [href] attribute, if it has one. *)
Record Anchor := mkAnchor { href : option string }.

(** An [<article>] element as [find] and [get_text(strip=True)] show it:
    the texts of its [<h2>] and of its [<h3>] elements and its [<a>]
    elements, each in document order. *)
Record Article := mkArticle {
  h2 : list string;
  h3 : list string;
  anchors : list Anchor
}.

(** What [session.get] hands over: an exception, or a response with its
    status and the [<article>] elements of its body in document order. *)
Inductive FetchResult : Type :=
  | FetchError
  | Response (status : nat) (articles : list Article).

(** [(\d{1,2})\s+(January|...|December)\s*(\d{4})?] *)
Definition month_names : list string :=
  ["January"; "February"; "March"; "April"; "May"; "June"; "July";
   "August"; "September"; "October"; "November"; "December"].

Definition months_re : regex :=
  Alt (Lit "January") (Alt (Lit "February") (Alt (Lit "March")
  (Alt (Lit "April") (Alt (Lit "May") (Alt (Lit "June") (Alt (Lit "July")
  (Alt (Lit "August") (Alt (Lit "September") (Alt (Lit "October")
  (Alt (Lit "November") (Lit "December"))))))))))).

Definition date_re : regex :=
  Seq (Group 1 (Rep 1 (Some 2) re_digit))
  (Seq (Rep 1 None re_space)
  (Seq (Group 2 months_re)
  (Seq (Rep 0 None re_space)
       (Opt (Group 3 (Rep 4 (Some 4) re_digit)))))).

(** [a or b] where [a] is [None] or a string: the empty string is falsy. *)
Definition str_or (a : option string) (b : string) : string :=
  match a with
  | Some EmptyString | None => b
  | Some s => s
  end.

Definition cities : list string :=
  ["London"; "Manchester"; "Birmingham"; "Liverpool"; "Glasgow"; "Leeds";
   "Edinburgh"].

(** [for city in cities: if city.lower() in title.lower(): location = city;
    break] *)
Fixpoint city_loop (cs : list string) (title location : string) : string :=
  match cs with
  | [] => location
  | city :: cs' =>
      if contains (lower city) (lower title) then city
      else city_loop cs' title location
  end.

(** How one round of [for article in articles] ends. *)
Inductive Round : Type :=
  | Continue                 (* one of the two [continue] statements *)
  | Except                   (* an exception, logged by the handler *)
  | Append (event : Event).  (* [events.append(...)] *)

(** [article.find('h2') or article.find('h3')], then its text: a tag is
    truthy whatever it contains. *)
Definition title_elem (article : Article) : option string :=
  match h2 article with
  | t :: _ => Some t
  | [] => head (h3 article)
  end.

(** [article.find('a')['href'] if article.find('a') else '']: subscripting
    a tag with an attribute it does not have raises [KeyError]. *)
Definition first_href (article : Article) : Exc string :=
  match anchors article with
  | [] => Ok ""
  | a :: _ =>
      match href a with
      | Some target => Ok target
      | None => Raise KeyError
      end
  end.

(** The body of the loop.  [year] is [datetime.now().year]. *)
Definition parse_article (year : nat) (article : Article) : Round :=
  match title_elem article with
  | None => Continue
  | Some title =>
      if negb (contains "free" (lower title))
         || negb (contains "lego" (lower title))
      then Continue
      else
        let date_match := re_search date_re title in
        let event_date :=
          match date_match with
          | Some m =>
              let day := default "" (group 1 m) in
              let month := default "" (group 2 m) in
              let year := str_or (group 3 m) (str year) in
              Some (year +:+ "-" +:+ month +:+ "-" +:+ day)
          | None => None
          end in
        let '(store, location) :=
          if contains "smyths" (lower title)
          then ("Smyths Toys", "UK Smyths Stores")
          else if contains "john lewis" (lower title)
          then ("John Lewis", "UK")
          else ("LEGO Store", "UK") in
        let location := city_loop cities title location in
        match first_href article with
        | Raise _ => Except
        | Ok target =>
            Append {| title := title; location := location;
                      date := str_or event_date "TBA";
                      date_display := str_or event_date "待公布";
                      store := store;
                      description := "查看連結了解活動詳情";
                      source := "auto_scrape"; url := target;
                      id_ := None; created_at := None |}
        end
  end.

Definition scrape_round (year : nat) (events : list Event)
    (article : Article) : list Event :=
  match parse_article year article with
  | Append event => events ++ [event]
  | Continue | Except => events
  end.

(** [soup.find_all('article', limit=5)] keeps the first five. *)
Definition scrape_lego_news (year : nat) (fetched : FetchResult)
    : list Event :=
  match fetched with
  | Response 200 articles => foldl (scrape_round year) [] (take 5 articles)
  | Response _ _ => []
  | FetchError => []
  end.

(** ** Dates and times: [datetime], [timedelta], [pytz] *)

Local Open Scope Z_scope.

Inductive TzInfo : Type :=
  | FixedOffset (microseconds : Z)   (* [datetime.timezone] *)
  | EuropeLondon.                     (* [pytz.timezone('Europe/London')] *)

Record datetime := mkDatetime {
  year : Z; month : Z; day : Z;
  hour : Z; minute : Z; second : Z; microsecond : Z;
  tzinfo : option TzInfo
}.

Record timedelta := mkTimedelta {
  td_days : Z; td_seconds : Z; td_microseconds : Z
}.

(** [timedelta(hours=h)] and [timedelta(days=d)] *)
Definition timedelta_hours (h : Z) : timedelta :=
  {| td_days := (h * 3600) `div` 86400;
     td_seconds := (h * 3600) `mod` 86400; td_microseconds := 0 |}.
Definition timedelta_days (d : Z) : timedelta :=
  {| td_days := d; td_seconds := 0; td_microseconds := 0 |}.

Definition is_leap (y : Z) : bool :=
  (y `mod` 4 =? 0) && (negb (y `mod` 100 =? 0) || (y `mod` 400 =? 0)).

Definition days_in_month (y m : Z) : Z :=
  if m =? 2 then (if is_leap y then 29 else 28)
  else if (m =? 4) || (m =? 6) || (m =? 9) || (m =? 11) then 30
  else 31.

(** The checks of the [datetime] constructor. *)
Definition valid_date (y m d : Z) : bool :=
  (1 <=? y) && (y <=? 9999) && (1 <=? m) && (m <=? 12)
  && (1 <=? d) && (d <=? days_in_month y m).

Definition valid_time (h mi s us : Z) : bool :=
  (0 <=? h) && (h <? 24) && (0 <=? mi) && (mi <? 60)
  && (0 <=? s) && (s <? 60) && (0 <=? us) && (us <? 1000000).

(** The same time of day on another date. *)
Definition on_date (dt : datetime) (y m d : Z) : datetime :=
  mkDatetime y m d (hour dt) (minute dt) (second dt) (microsecond dt)
             (tzinfo dt).

(** The day after and the day before; [OverflowError] outside the years
    1 to 9999. *)
Definition next_day (dt : datetime) : Exc datetime :=
  if day dt <? days_in_month (year dt) (month dt)
  then Ok (on_date dt (year dt) (month dt) (day dt + 1))
  else if month dt <? 12
  then Ok (on_date dt (year dt) (month dt + 1) 1)
  else if year dt <? 9999
  then Ok (on_date dt (year dt + 1) 1 1)
  else Raise OverflowError.

Definition prev_day (dt : datetime) : Exc datetime :=
  if 1 <? day dt
  then Ok (on_date dt (year dt) (month dt) (day dt - 1))
  else if 1 <? month dt
  then Ok (on_date dt (year dt) (month dt - 1)
             (days_in_month (year dt) (month dt - 1)))
  else if 1 <? year dt
  then Ok (on_date dt (year dt - 1) 12 31)
  else Raise OverflowError.

(** [n] steps of a day. *)
Fixpoint shift_days (step : datetime → Exc datetime) (n : nat)
    (dt : datetime) : Exc datetime :=
  match n with
  | O => Ok dt
  | S n' => dt' ← step dt; shift_days step n' dt'
  end.

(** [dt + td]: the sum is taken on the fields of [dt] as they stand, the
    time zone is carried along unchanged. *)
Definition datetime_add (dt : datetime) (td : timedelta) : Exc datetime :=
  let us := microsecond dt + td_microseconds td in
  let s := hour dt * 3600 + minute dt * 60 + second dt + td_seconds td
           + us `div` 1000000 in
  let d := td_days td + s `div` 86400 in
  let s' := s `mod` 86400 in
  let dt' := mkDatetime (year dt) (month dt) (day dt)
               (s' `div` 3600) ((s' `mod` 3600) `div` 60) (s' `mod` 60)
               (us `mod` 1000000) (tzinfo dt) in
  if 0 <=? d then shift_days next_day (Z.to_nat d) dt'
  else shift_days prev_day (Z.to_nat (- d)) dt'.

(** *** [datetime.fromisoformat]

    The function of Python 3.11, where [datetime] is the class of the C
    module [_datetime]: it reads the UTF-8 bytes of the text through
    pointers, and the byte after the last one is NUL.  Beside
    [YYYY-MM-DD] it takes [YYYYMMDD] and the week dates [YYYY-Www[-d]] and
    [YYYYWww[d]], then any one character and a time [HH[:MM[:SS]]] or
    [HH[MM[SS]]] with a fraction of any length, and an offset or [Z]. *)

(** [is_digit]: an ASCII digit. *)
Definition is_digit (c : ascii) : bool :=
  let n := nat_of_ascii c in (48 <=? n)%nat && (n <=? 57)%nat.

Definition digit_value (c : ascii) : option Z :=
  if is_digit c then Some (Z.of_nat (nat_of_ascii c) - 48) else None.

(** [*p]: the byte at the pointer, NUL at the end of the text. *)
Definition peek (p : string) : ascii :=
  match p with
  | String c _ => c
  | EmptyString => Ascii.zero
  end.

(** [p + n] *)
Fixpoint drop_string (n : nat) (s : string) : string :=
  match n, s with
  | S n', String _ s' => drop_string n' s'
  | _, _ => s
  end.

(** [dtstr[i]] *)
Definition char_at (i : nat) (dtstr : string) : ascii :=
  peek (drop_string i dtstr).

(** [parse_digits(p, &var, n)]: the number that the next [n] bytes
    write, and the pointer after them. *)
Fixpoint parse_digits (n : nat) (var : Z) (p : string)
    : option (Z * string) :=
  match n with
  | O => Some (var, p)
  | S n' => d ← digit_value (peek p);
            parse_digits n' (var * 10 + d) (drop_string 1 p)
  end.

(** [s] without its leading bytes of the class [p]. *)
Fixpoint skip (p : ascii → bool) (s : string) : string :=
  match s with
  | EmptyString => EmptyString
  | String c s' => if p c then skip p s' else s
  end.

(** The days before the first of January of year [y], the days of year [y]
    before the first of month [m], and the number of a day counted from
    the first of January of the year 1. *)
Definition days_before_year (y : Z) : Z :=
  (y - 1) * 365 + (y - 1) `div` 4 - (y - 1) `div` 100 + (y - 1) `div` 400.

Definition days_before_month (y m : Z) : Z :=
  match m with
  | 1 => 0 | 2 => 31 | 3 => 59 | 4 => 90 | 5 => 120 | 6 => 151 | 7 => 181
  | 8 => 212 | 9 => 243 | 10 => 273 | 11 => 304 | _ => 334
  end + (if (2 <? m) && is_leap y then 1 else 0).

Definition ymd_to_ord (y m d : Z) : Z :=
  days_before_year y + days_before_month y m + d.

(** [ord_to_ymd]: the date of the day with the number [ordinal]. *)
Definition ord_to_ymd (ordinal : Z) : Z * Z * Z :=
  let n := ordinal - 1 in
  let n400 := n `div` 146097 in
  let n := n `mod` 146097 in
  let n100 := n `div` 36524 in
  let n := n `mod` 36524 in
  let n4 := n `div` 1461 in
  let n := n `mod` 1461 in
  let n1 := n `div` 365 in
  let n := n `mod` 365 in
  let y := n400 * 400 + 1 + n100 * 100 + n4 * 4 + n1 in
  if (n1 =? 4) || (n100 =? 4) then (y - 1, 12, 31)
  else
    let m := (n + 50) `div` 32 in
    if n <? days_before_month y m
    then (y, m - 1, n - days_before_month y (m - 1) + 1)
    else (y, m, n - days_before_month y m + 1).

(** [iso_week1_monday]: the number of the Monday that starts the first
    ISO week of the year. *)
Definition iso_week1_monday (y : Z) : Z :=
  let first_day := ymd_to_ord y 1 1 in
  let first_weekday := (first_day + 6) `mod` 7 in
  let week1_monday := first_day - first_weekday in
  if 3 <? first_weekday then week1_monday + 7 else week1_monday.

(** [iso_to_ymd]: a year has a week 53 when it starts on a Thursday, or
    on a Wednesday and is a leap year.  The year 0, which four digits can
    write, has no week that the constructor would accept. *)
Definition iso_to_ymd (iso_year iso_week iso_day : Z) : option (Z * Z * Z) :=
  let first_weekday := (ymd_to_ord iso_year 1 1 + 6) `mod` 7 in
  if (iso_week <=? 0) ||
     ((53 <=? iso_week) &&
      negb ((iso_week =? 53) &&
            ((first_weekday =? 3) ||
             ((first_weekday =? 2) && is_leap iso_year))))
  then None
  else if (iso_day <=? 0) || (8 <=? iso_day) then None
  else if iso_year <? 1 then None
  else Some (ord_to_ymd (iso_week1_monday iso_year
                         + (iso_week - 1) * 7 + iso_day - 1)).

(** [_find_isoformat_datetime_separator]: where the date ends, told from
    the bytes 4, 5, 8 and 10. *)
Definition find_isoformat_datetime_separator (dtstr : string) (len : Z)
    : Z :=
  if len =? 7 then 7
  else if bool_decide (char_at 4 dtstr = "-"%char) then
    if bool_decide (char_at 5 dtstr = "W"%char) then
      if len <? 8 then -1
      else if (8 <? len) && bool_decide (char_at 8 dtstr = "-"%char) then
        if len =? 9 then -1
        else if (10 <? len) && is_digit (char_at 10 dtstr) then 8
        else 10
      else 8
    else 10
  else if bool_decide (char_at 4 dtstr = "W"%char) then
    let idx :=
      7 + Z.of_nat (String.length (drop_string 7 dtstr))
        - Z.of_nat (String.length (skip is_digit (drop_string 7 dtstr))) in
    if idx <? 9 then idx
    else if idx `mod` 2 =? 0 then 7
    else 8
  else 8.

(** [parse_isoformat_date]: the date in the first [len] bytes; a [len]
    of -1 counts as no bound. *)
Definition parse_isoformat_date (dtstr : string) (len : Z)
    : option (Z * Z * Z) :=
  '(y, p) ← parse_digits 4 0 dtstr;
  let uses_separator := bool_decide (peek p = "-"%char) in
  let p := if uses_separator then drop_string 1 p else p in
  if bool_decide (peek p = "W"%char) then
    '(iso_week, p) ← parse_digits 2 0 (drop_string 1 p);
    let pos := if uses_separator then 8 else 7 in
    '(iso_day, _) ←
       (if (len <? 0) || (pos <? len) then
          if uses_separator && negb (bool_decide (peek p = "-"%char))
          then None
          else parse_digits 1 0 (if uses_separator then drop_string 1 p
                                 else p)
        else Some (1, p));
    iso_to_ymd y iso_week iso_day
  else
    '(m, p) ← parse_digits 2 0 p;
    if uses_separator && negb (bool_decide (peek p = "-"%char)) then None
    else
      '(d, _) ← parse_digits 2 0 (if uses_separator then drop_string 1 p
                                  else p);
      Some (y, m, d).

(** How the loop over hours, minutes and seconds ends: with a [return],
    or on the way to the fraction. *)
Inductive hms_end : Type :=
  | hms_return (rest : bool)              (* [return c != '\0'] *)
  | hms_fraction (p : string) (rem : Z).  (* [p] and [p_end - p] *)

(** The loop of [parse_hh_mm_ss_ff] from its round [i] on, [n] rounds to
    go: two digits, then the byte [c] after them. *)
Fixpoint hms_loop (n i : nat) (has_separator : bool) (p : string) (rem : Z)
    : option (list Z * hms_end) :=
  match n with
  | O => Some ([], hms_fraction p rem)
  | S n' =>
      '(v, p) ← parse_digits 2 0 p;
      let c := peek p in
      let has_separator :=
        match i with
        | O => bool_decide (c = ":"%char)
        | S _ => has_separator
        end in
      if rem - 3 <=? 0 then
        Some ([v], hms_return (negb (bool_decide (c = Ascii.zero))))
      else if has_separator && bool_decide (c = ":"%char) then
        '(vs, e) ← hms_loop n' (S i) has_separator (drop_string 1 p)
                     (rem - 3);
        Some (v :: vs, e)
      else if bool_decide (c = "."%char) || bool_decide (c = ","%char) then
        Some ([v], hms_fraction (drop_string 1 p) (rem - 3))
      else if negb has_separator then
        '(vs, e) ← hms_loop n' (S i) has_separator p (rem - 2);
        Some (v :: vs, e)
      else None
  end.

(** [parse_hh_mm_ss_ff(tstr, tstr_end, ...)] with [len = tstr_end - tstr]:
    the hour, the minute, the second and the microsecond, and whether
    something is left.  Of a fraction six digits count. *)
Definition parse_hh_mm_ss_ff (tstr : string) (len : Z)
    : option (Z * Z * Z * Z * bool) :=
  '(vs, e) ← hms_loop 3 0 true tstr len;
  let h := nth 0 vs 0 in
  let mi := nth 1 vs 0 in
  let s := nth 2 vs 0 in
  match e with
  | hms_return rest => Some (h, mi, s, 0, rest)
  | hms_fraction p rem =>
      let to_parse := Z.to_nat (Z.min rem 6) in
      '(us, p) ← parse_digits to_parse 0 p;
      Some (h, mi, s, us * 10 ^ (6 - Z.of_nat to_parse),
            negb (bool_decide (peek (skip is_digit p) = Ascii.zero)))
  end.

(** The first of the bytes [Z], [+] and [-] among the first [n]. *)
Fixpoint tzinfo_pos (n : nat) (p : string) : option nat :=
  match n, p with
  | S n', String c p' =>
      if bool_decide (c = "Z"%char) || bool_decide (c = "+"%char)
         || bool_decide (c = "-"%char)
      then Some O
      else S <$> tzinfo_pos n' p'
  | _, _ => None
  end.

(** [tzinfo_from_isoformat_results]: an offset of no seconds is UTC, and
    [timezone] takes an offset of less than a day. *)
Definition tzinfo_from_isoformat (tzoffset tzusec : Z) : option TzInfo :=
  if tzoffset =? 0 then Some (FixedOffset 0)
  else
    let off := tzoffset * 1000000 + tzusec in
    if (-86400000000 <? off) && (off <? 86400000000)
    then Some (FixedOffset off)
    else None.

(** [parse_isoformat_time(dtstr, dtlen, ...)]: the time of day and the
    time zone, if one is written. *)
Definition parse_isoformat_time (dtstr : string) (dtlen : Z)
    : option (Z * Z * Z * Z * option TzInfo) :=
  match tzinfo_pos (Z.to_nat dtlen) dtstr with
  | None =>
      '(h, mi, s, us, rest) ← parse_hh_mm_ss_ff dtstr dtlen;
      if rest : bool then None else Some (h, mi, s, us, None)
  | Some k =>
      '(h, mi, s, us, _) ← parse_hh_mm_ss_ff dtstr (Z.of_nat k);
      let p := drop_string k dtstr in
      if bool_decide (peek p = "Z"%char) then
        if bool_decide (peek (drop_string 1 p) = Ascii.zero)
        then Some (h, mi, s, us, Some (FixedOffset 0))
        else None
      else
        let tzsign := if bool_decide (peek p = "-"%char) then -1 else 1 in
        '(th, tmi, ts, tus, rest) ←
           parse_hh_mm_ss_ff (drop_string 1 p) (dtlen - Z.of_nat k - 1);
        tz ← (if rest : bool then None
              else tzinfo_from_isoformat
                     (tzsign * (th * 3600 + tmi * 60 + ts)) (tzsign * tus));
        Some (h, mi, s, us, Some tz)
  end.

(** The bytes of the character that starts with the byte [c]. *)
Definition char_width (c : ascii) : nat :=
  let n := nat_of_ascii c in
  if (n <? 128)%nat then 1%nat
  else if (224 <=? n)%nat && (n <? 240)%nat then 3%nat
  else if (240 <=? n)%nat then 4%nat
  else 2%nat.

(** [datetime.fromisoformat(s)], [None] when it raises [ValueError]: the
    date up to the separator, and, when there is more, one character and
    the time; then the checks of the constructor. *)
Definition fromisoformat (date_string : string) : option datetime :=
  let len := Z.of_nat (String.length date_string) in
  if len <? 7 then None
  else
    let separator_location :=
      find_isoformat_datetime_separator date_string len in
    '(y, m, d) ← parse_isoformat_date date_string separator_location;
    '(h, mi, s, us, tz) ←
       (if separator_location <? len then
          let p := drop_string (Z.to_nat separator_location) date_string in
          let w := char_width (peek p) in
          parse_isoformat_time (drop_string w p)
            (len - separator_location - Z.of_nat w)
        else Some (0, 0, 0, 0, None));
    if valid_date y m d && valid_time h mi s us
    then Some (mkDatetime y m d h mi s us tz)
    else None.

(** [pytz]'s [localize]: it refuses a date that has a time zone, and
    hands back any other date in the zone, its fields as they are. *)
Definition localize (dt : datetime) : Exc datetime :=
  match tzinfo dt with
  | Some _ => Raise ValueError
  | None =>
      Ok (mkDatetime (year dt) (month dt) (day dt) (hour dt) (minute dt)
            (second dt) (microsecond dt) (Some EuropeLondon))
  end.

Local Close Scope Z_scope.

(** ** The [icalendar] components *)

Inductive PropValue : Type :=
  | VText (s : string)
  | VDatetime (dt : datetime)
  | VDuration (td : timedelta).

(** A component: its name, its properties in the order they were added,
    and its sub-components. *)
Local Unset Elimination Schemes.
Inductive Component : Type :=
  mkComponent (name : string) (props : list (string * PropValue))
              (subcomponents : list Component).
Local Set Elimination Schemes.

Definition comp_name (c : Component) : string :=
  match c with mkComponent n _ _ => n end.
Definition props (c : Component) : list (string * PropValue) :=
  match c with mkComponent _ ps _ => ps end.
Definition subcomponents (c : Component) : list Component :=
  match c with mkComponent _ _ cs => cs end.

(** [Calendar()] and [Event()] of [icalendar] *)
Definition Calendar : Component := mkComponent "VCALENDAR" [] [].
Definition ICalEvent : Component := mkComponent "VEVENT" [] [].

(** [c.add(name, value)].  The signature is
    [add(self, name, value, parameters=None, encode=1)]: [value] has no
    default, so a call that gives the name alone raises [TypeError].  With
    a value the property is added, and the call returns [None]. *)
Definition Component_add (c : Component) (name : string)
    (value : option PropValue) : Exc Component :=
  match value with
  | None => Raise TypeError
  | Some v => Ok (mkComponent (comp_name c) (props c ++ [(name, v)])
                              (subcomponents c))
  end.

(** [add] with its value given cannot raise. *)
Definition add_prop (c : Component) (name : string) (v : PropValue)
    : Component :=
  mkComponent (comp_name c) (props c ++ [(name, v)]) (subcomponents c).

(** [c.add_component(sub)] *)
Definition add_component (c sub : Component) : Component :=
  mkComponent (comp_name c) (props c) (subcomponents c ++ [sub]).

(** [x.add(...)] where [x] is [None]: [None] has no attribute [add]. *)
Definition None_add (name : string) (value : PropValue) : Exc () :=
  Raise AttributeError.

(** The first value of a property. *)
Fixpoint prop (name : string) (ps : list (string * PropValue))
    : option PropValue :=
  match ps with
  | [] => None
  | (n, v) :: ps' => if decide (name = n) then Some v else prop name ps'
  end.

(** ** [create_ics_file] *)

(** The calendar that both exports start from. *)
Definition new_calendar : Component :=
  add_prop (add_prop Calendar "prodid" (VText "-//LEGO Events UK//EN"))
           "version" (VText "2.0").

(** The body of the [try] block: the component with its start and end, or
    the exception that leaves the block. *)
Definition ics_try_block (event : Event) (ical_event : Component)
    : Exc Component :=
  event_date ← match fromisoformat (date event) with
               | Some dt => Ok dt
               | None => Raise ValueError
               end;
  event_date ← localize event_date;
  ical_event ← Component_add ical_event "dtstart"
                 (Some (VDatetime event_date));
  dtend ← datetime_add event_date (timedelta_hours 2);
  ical_event ← Component_add ical_event "dtend" (Some (VDatetime dtend));
  (* alarm = ical_event.add('valarm') *)
  ical_event ← Component_add ical_event "valarm" None;
  (* [alarm] holds what [add] returned *)
  _ ← None_add "trigger" (VDuration (timedelta_days (-1)));
  _ ← None_add "action" (VText "DISPLAY");
  _ ← None_add "description" (VText "明天有 LEGO 免費活動！");
  Ok ical_event.

(** [create_ics_file(event)]: the calendar whose text is returned, or
    [None]. *)
Definition create_ics_file (event : Event) : option Component :=
  let cal := new_calendar in
  let ical_event := add_prop ICalEvent "summary" (VText (title event)) in
  let ical_event :=
    add_prop ical_event "description"
      (VText (description event +:+ newline +:+ newline +:+ "店舖: "
              +:+ store event)) in
  let ical_event := add_prop ical_event "location" (VText (location event)) in
  match ics_try_block event ical_event with
  | Raise _ => None
  | Ok ical_event =>
      let ical_event :=
        add_prop ical_event "uid"
          (VText (default "unknown" (id_ event) +:+ "@legoeventsuk")) in
      Some (add_component cal ical_event)
  end.

(** ** [export_all_events] *)

(** What the handler sends back. *)
Inductive Reply : Type :=
  | reply_text (text : string)
  | reply_document (document : Component) (filename caption : string).

(** The body of the [try] block of one round: [None] for the [continue]
    on a date that is ['TBA'], else the component or the exception. *)
Definition batch_round (event_id : string) (event : Event)
    : option (Exc Component) :=
  if decide (date event = "TBA") then None
  else Some (
    let ical_event := add_prop ICalEvent "summary" (VText (title event)) in
    let ical_event :=
      add_prop ical_event "description"
        (VText (description event +:+ newline +:+ "店舖: "
                +:+ store event)) in
    let ical_event :=
      add_prop ical_event "location" (VText (location event)) in
    event_date ← match fromisoformat (date event) with
                 | Some dt => Ok dt
                 | None => Raise ValueError
                 end;
    event_date ← localize event_date;
    ical_event ← Component_add ical_event "dtstart"
                   (Some (VDatetime event_date));
    dtend ← datetime_add event_date (timedelta_hours 2);
    ical_event ← Component_add ical_event "dtend" (Some (VDatetime dtend));
    ical_event ← Component_add ical_event "uid"
                   (Some (VText (event_id +:+ "@legoeventsuk")));
    Ok ical_event).

(** One round of [for event_id, event in events.items()] on the calendar
    and the counter. *)
Definition batch_step (st : Component * nat) (item : string * Event)
    : Component * nat :=
  let '(cal, count) := st in
  match batch_round item.1 item.2 with
  | Some (Ok ical_event) => (add_component cal ical_event, count + 1)
  | Some (Raise _) => (cal, count)
  | None => (cal, count)
  end.

Definition export_all_events (events : PyDict Event) : Reply :=
  match events with
  | [] => reply_text "沒有活動可以匯出。"
  | _ =>
      let '(cal, count) := foldl batch_step (new_calendar, 0) events in
      if decide (count = 0) then reply_text "沒有有效日期的活動。"
      else reply_document cal "all_lego_events.ics"
             ("📅 已匯出 " +:+ str count +:+ " 個活動！")
  end.

(** *** Vocabulary for the properties of the batch export *)

(** The component a round adds to the calendar, if it adds one. *)
Definition batch_component (item : string * Event) : option Component :=
  match batch_round item.1 item.2 with
  | Some (Ok ical_event) => Some ical_event
  | Some (Raise _) | None => None
  end.

(** The date of the event in the zone: it reads as a date without a time
    zone, which [localize] accepts. *)
Definition start_of (event : Event) : option datetime :=
  dt ← fromisoformat (date event);
  match localize dt with
  | Ok start => Some start
  | Raise _ => None
  end.

(** *** Vocabulary for the properties of the parser *)

(** [sub] occurs in [t] when the case of ASCII letters is ignored. *)
Definition occurs_ci (sub t : string) : Prop :=
  ∃ pre mid post, t = pre +:+ mid +:+ post ∧ lower mid = lower sub.

(** Every character of [s] is in the class [p]. *)
Fixpoint all_chars (p : ascii → bool) (s : string) : bool :=
  match s with
  | EmptyString => true
  | String c s' => p c && all_chars p s'
  end.

(** The texts [a] and [b] are the same when case is ignored. *)
Definition same_ci (a b : list N) : Prop :=
  fold_case <$> a = fold_case <$> b.

(** The words of a regular expression, with the groups they set. *)
Inductive matches : regex → list N → Groups → Groups → Prop :=
  | matches_class p c gs :
      p c = true → matches (Class p) [c] gs gs
  | matches_lit l w gs :
      same_ci w (decode l) → matches (Lit l) w gs gs
  | matches_seq r1 r2 w1 w2 gs gs1 gs2 :
      matches r1 w1 gs gs1 → matches r2 w2 gs1 gs2 →
      matches (Seq r1 r2) (w1 ++ w2) gs gs2
  | matches_alt_l r1 r2 w gs gs' :
      matches r1 w gs gs' → matches (Alt r1 r2) w gs gs'
  | matches_alt_r r1 r2 w gs gs' :
      matches r2 w gs gs' → matches (Alt r1 r2) w gs gs'
  | matches_rep lo hi p w gs :
      forallb p w = true → lo ≤ length w →
      (∀ h, hi = Some h → length w ≤ h) →
      matches (Rep lo hi p) w gs gs
  | matches_opt_some r w gs gs' :
      matches r w gs gs' → matches (Opt r) w gs gs'
  | matches_opt_none r gs :
      matches (Opt r) [] gs gs
  | matches_group i r w gs gs' :
      matches r w gs gs' → matches (Group i r) w gs ((i, w) :: gs').

(** The pattern in the words of the specification: a day of one or two
    digits, white space, the full English name of a month in any case,
    and, after optional white space, possibly a year of four digits.  The
    digits and the white space are those of Unicode. *)
Definition is_day (d : list N) : Prop :=
  forallb re_digit d = true ∧ 1 ≤ length d ≤ 2.

Definition is_month_name (m : list N) : Prop :=
  ∃ n, n ∈ month_names ∧ same_ci m (decode n).

Definition is_year (y : list N) : Prop :=
  forallb re_digit y = true ∧ length y = 4.

(** [s] without its leading characters of the class [p]. *)
Fixpoint skip_class (p : N → bool) (s : list N) : list N :=
  match s with
  | [] => []
  | c :: s' => if p c then skip_class p s' else s
  end.

(** [s] starts with a year. *)
Definition year_first (s : list N) : Prop :=
  ∃ y rest, s = y ++ rest ∧ is_year y.

(** After white space, [s] goes on with a year. *)
Definition year_follows (s : list N) : Prop :=
  ∃ ws y rest, s = ws ++ y ++ rest ∧ forallb re_space ws = true ∧
               is_year y.

(** After [pre], the text [t] reads as the day [d], the month [m] and the
    year [y]; without a year, none follows the month. *)
Definition date_at (t pre d m : list N) (y : option (list N)) : Prop :=
  ∃ ws1 rest,
    t = pre ++ d ++ ws1 ++ m ++ rest ∧
    is_day d ∧
    forallb re_space ws1 = true ∧ 1 ≤ length ws1 ∧
    is_month_name m ∧
    match y with
    | Some y' =>
        ∃ ws2 post, rest = ws2 ++ y' ++ post ∧
                    forallb re_space ws2 = true ∧ is_year y'
    | None => ¬ year_follows rest
    end.

(** The heading contains a date: a day, white space and a month. *)
Definition has_date (t : list N) : Prop :=
  ∃ pre d ws1 m rest,
    t = pre ++ d ++ ws1 ++ m ++ rest ∧
    is_day d ∧ forallb re_space ws1 = true ∧ 1 ≤ length ws1 ∧
    is_month_name m.

(** A word of [p{lo,hi}] at the head of [s], after which [k] gives [res]. *)
Definition rep_word {R} (p : N → bool) (lo : nat) (hi : option nat)
    (s : list N) (k : list N → option R) (res : R) : Prop :=
  ∃ w s', s = w ++ s' ∧ forallb p w = true ∧ lo ≤ length w ∧
          (∀ h, hi = Some h → length w ≤ h) ∧ k s' = Some res.

(** The candidate a block yields, if it yields one. *)
Definition block_candidate (year : nat) (article : Article) : option Event :=
  match parse_article year article with
  | Append event => Some event
  | Continue | Except => None
  end.

(** The number of a day counted from the first of January of the year 1. *)
Definition toordinal (dt : datetime) : Z :=
  ymd_to_ord (year dt) (month dt) (day dt).

(** The microseconds from the start of the year 1 to [dt], on the clock of
    [dt]. *)
Definition timestamp (dt : datetime) : Z :=
  ((((toordinal dt * 24 + hour dt) * 60 + minute dt) * 60 + second dt)
   * 1000000 + microsecond dt)%Z.

(** The fields of [dt] are those of a date and a time of day. *)
Definition valid_datetime (dt : datetime) : Prop :=
  valid_date (year dt) (month dt) (day dt) = true ∧
  valid_time (hour dt) (minute dt) (second dt) (microsecond dt) = true.

(** [dt] in the zone. *)
Definition in_london (dt : datetime) : datetime :=
  mkDatetime (year dt) (month dt) (day dt) (hour dt) (minute dt)
             (second dt) (microsecond dt) (Some EuropeLondon).

(** The last day that a [datetime] can hold, and its last two hours: two
    hours after them there is no date any more. *)
Definition last_day (dt : datetime) : Prop :=
  year dt = 9999%Z ∧ month dt = 12%Z ∧ day dt = 31%Z.
Definition last_two_hours (dt : datetime) : Prop :=
  last_day dt ∧ (22 ≤ hour dt)%Z.

(** The component of the batch export for an event that starts at [start]
    and ends at [dtend]. *)
Definition batch_vevent (event_id : string) (event : Event)
    (start dtend : datetime) : Component :=
  mkComponent "VEVENT"
    [("summary", VText (title event));
     ("description",
      VText (description event +:+ newline +:+ "店舖: " +:+ store event));
     ("location", VText (location event));
     ("dtstart", VDatetime start);
     ("dtend", VDatetime dtend);
     ("uid", VText (event_id +:+ "@legoeventsuk"))]
    [].

(** An event of the catalog with the date [d]. *)
Definition dated_event (d : string) : Event :=
  {| title := "Free LEGO set at selected stores"; location := "UK";
     date := d; date_display := d; store := "LEGO Store";
     description := "查看連結了解活動詳情"; source := "auto_scrape";
     url := ""; id_ := Some "auto_1";
     created_at := Some "2025-11-01T09:00:00" |}.


(** * The handlers of the bot

    The functions of [bot.py] around the core: the two files and their
    [load_data] and [save_data], the handlers [start], [list_events],
    [export_event], [manual_scrape] and [button_callback], and
    [broadcast_new_event].  A handler takes what it reads (the text of the
    message, the identifier of the user, the files) and gives back what it
    leaves: the files and the replies it sends.  The keyword arguments of
    the replies ([parse_mode], [disable_web_page_preview]) and the pauses
    ([asyncio.sleep]) are left out. *)

(** ** More of Python's strings and integers *)

(** [c.upper()] on one ASCII character. *)
Definition upper_ascii (c : ascii) : ascii :=
  let n := nat_of_ascii c in
  if (97 <=? n) && (n <=? 122) then ascii_of_nat (n - 32) else c.

(** A cased character: an ASCII letter. *)
Definition is_cased (c : ascii) : bool :=
  let n := nat_of_ascii c in
  ((65 <=? n) && (n <=? 90)) || ((97 <=? n) && (n <=? 122)).

(** [s.title()]: a letter that follows a letter is put in lower case, any
    other letter in upper case. *)
Fixpoint title_from (previous_is_cased : bool) (s : string) : string :=
  match s with
  | EmptyString => EmptyString
  | String c s' =>
      String (if previous_is_cased then lower_ascii c else upper_ascii c)
             (title_from (is_cased c) s')
  end.
Definition str_title (s : string) : string := title_from false s.

(** [s.replace(old, new)] for a non-empty [old]: the occurrences of [old]
    are found from left to right and do not overlap.  [pending] counts the
    characters of the occurrence just found that are still to be passed
    over. *)
Fixpoint replace_from (old new : string) (pending : nat) (s : string)
    : string :=
  match s with
  | EmptyString => EmptyString
  | String c s' =>
      match pending with
      | S n => replace_from old new n s'
      | O =>
          if startswith old s
          then new +:+ replace_from old new (String.length old - 1) s'
          else String c (replace_from old new 0 s')
      end
  end.

(** With an empty [old], [new] goes before every character and at the
    end. *)
Fixpoint replace_empty (new s : string) : string :=
  match s with
  | EmptyString => new
  | String c s' => new +:+ String c (replace_empty new s')
  end.

Definition replace (old new s : string) : string :=
  match old with
  | EmptyString => replace_empty new s
  | String _ _ => replace_from old new 0 s
  end.

(** [s * n] *)
Fixpoint str_mul (s : string) (n : nat) : string :=
  match n with
  | O => EmptyString
  | S n' => s +:+ str_mul s n'
  end.

(** [str(n)] for an integer: a minus sign for a negative one, then the
    decimal digits.  (Integers of thousands of digits, which the newer
    interpreters refuse to print and to read, are no identifiers of
    Telegram.) *)
Definition str_Z (n : Z) : string := pretty n.

(** The white space of [int]: tab, line feed, vertical tab, form feed,
    carriage return and the space. *)
Definition is_int_space (c : ascii) : bool :=
  let n := nat_of_ascii c in ((9 <=? n) && (n <=? 13)) || (n =? 32).

(** The digits of [int(s)] after the first one: digits, each possibly after
    one underscore, then nothing but white space. *)
Fixpoint int_tail (acc : Z) (s : string) : option Z :=
  match s with
  | EmptyString => Some acc
  | String c s' =>
      match digit_value c with
      | Some d => int_tail (acc * 10 + d) s'
      | None =>
          if decide (c = "_"%char) then
            match s' with
            | String c' s'' =>
                match digit_value c' with
                | Some d => int_tail (acc * 10 + d) s''
                | None => None
                end
            | EmptyString => None
            end
          else if all_chars is_int_space s then Some acc else None
      end
  end.

(** [int(s)]: white space, a sign, the digits, white space; [ValueError]
    for anything else. *)
Definition int_str (s : string) : Exc Z :=
  let s := skip is_int_space s in
  let '(sign, s) :=
    match s with
    | String "+" s' => (1%Z, s')
    | String "-" s' => ((-1)%Z, s')
    | _ => (1%Z, s)
    end in
  match s with
  | EmptyString => Raise ValueError
  | String c s' =>
      match digit_value c with
      | None => Raise ValueError
      | Some d =>
          match int_tail d s' with
          | Some n => Ok (sign * n)%Z
          | None => Raise ValueError
          end
      end
  end.

(** *** Characters

    A string of Python is a sequence of characters, here a sequence of
    bytes in UTF-8: a character is a byte and the continuation bytes
    ([10xxxxxx]) that follow it.  [len] and the slices count characters. *)

Definition is_continuation (c : ascii) : bool :=
  let n := nat_of_ascii c in (128 <=? n) && (n <? 192).

(** The first byte of [s] is a continuation byte. *)
Definition continues (s : string) : bool :=
  match s with
  | String c _ => is_continuation c
  | EmptyString => false
  end.

Fixpoint chars (s : string) : list string :=
  match s with
  | EmptyString => []
  | String c s' =>
      match chars s' with
      | w :: ws =>
          if continues s' then String c w :: ws
          else String c EmptyString :: w :: ws
      | [] => [String c EmptyString]
      end
  end.

(** [''.join(l)] *)
Definition join (l : list string) : string := foldr String.append EmptyString l.

(** [len(s)] *)
Definition len (s : string) : nat := length (chars s).

(** [s[i:j]] *)
Definition str_slice (i j : nat) (s : string) : string :=
  join (take (j - i) (drop i (chars s))).

(** [range(0, stop, step)] for a positive [step]: the multiples of [step]
    below [stop]. *)
Definition range_step (stop step : nat) : list nat :=
  (λ k, k * step) <$> seq 0 ((stop + step - 1) `div` step).

(** [a < b] on strings: the first character that differs decides, and a
    proper prefix is smaller.  (On UTF-8 the order of the bytes is the
    order of the characters.) *)
Definition str_lt (a b : string) : bool := String.ltb a b.

(** [sorted(l, key=key)]: the sort is stable, and compares the keys with
    [<].  An element goes before the first one whose key is not smaller
    than its own. *)
Fixpoint insort {A} (key : A → string) (x : A) (l : list A) : list A :=
  match l with
  | [] => [x]
  | y :: l' => if str_lt (key y) (key x) then y :: insort key x l' else x :: l
  end.

Definition sorted {A} (key : A → string) (l : list A) : list A :=
  foldr (insort key) [] l.

(** ** The two files *)

(** A user as [start] and [button_callback] write it. *)
Record User := mkUser {
  subscribed : bool;
  locations : list string;
  reminders : PyDict string
}.

(** [{'subscribed': True, 'locations': [], 'reminders': {}}] *)
Definition new_user : User :=
  {| subscribed := true; locations := []; reminders := [] |}.

(** A file that holds a dictionary, [None] when it does not exist. *)
Definition File (V : Type) : Type := option (PyDict V).

(** [load_data(filename)]: the empty dictionary for a file that is not
    there. *)
Definition load_data {V} (file : File V) : PyDict V :=
  match file with
  | Some data => data
  | None => []
  end.

(** [save_data(filename, data)]: the file afterwards. *)
Definition save_data {V} (data : PyDict V) : File V := Some data.

(** [k in d] *)
Definition dict_in {V} (k : string) (d : PyDict V) : bool :=
  bool_decide (is_Some (dict_get k d)).

(** ** [start] *)

Definition welcome_text : string :=
  newline +:+ "🎉 歡迎使用 LEGO 免費活動追蹤 Bot！" +:+ newline +:+ newline
  +:+ "✨ **功能**：" +:+ newline
  +:+ "• 🤖 自動搜尋最新活動" +:+ newline
  +:+ "• 📅 匯出到 Google Calendar" +:+ newline
  +:+ "• 🔔 新活動通知" +:+ newline +:+ newline
  +:+ "📍 支援店舖：" +:+ newline
  +:+ "• LEGO Store" +:+ newline
  +:+ "• Smyths Toys" +:+ newline
  +:+ "• John Lewis" +:+ newline +:+ newline
  +:+ "🔧 指令：" +:+ newline
  +:+ "/list - 查看所有活動" +:+ newline
  +:+ "/subscribe - 訂閱通知" +:+ newline
  +:+ "/calendar - 匯出到日曆" +:+ newline
  +:+ "/scrape - 立即搜尋活動" +:+ newline
  +:+ "/help - 幫助" +:+ newline +:+ newline
  +:+ "Bot 每 6 小時自動搜尋新活動！" +:+ newline.

(** [start]: the users file afterwards and the reply.  The file is written
    only for a user who is not in it. *)
Definition start (effective_user_id : Z) (users_file : File User)
    : File User * Reply :=
  let user_id := str_Z effective_user_id in
  let users := load_data users_file in
  let users_file :=
    if dict_in user_id users then users_file
    else save_data (dict_set user_id new_user users) in
  (users_file, reply_text welcome_text).

(** ** [list_events] *)

(** [x[1].get('date', 'ZZZ')]: an event has its date. *)
Definition sort_key (x : string * Event) : string := date x.2.

(** One round of [for event_id, event in sorted_events[:10]]. *)
Definition list_round (message : string) (item : string * Event) : string :=
  let '(event_id, event) := item in
  let message := message +:+ ("🎪 *" +:+ title event +:+ "*" +:+ newline) in
  let message := message +:+ ("📍 " +:+ location event +:+ newline) in
  let message := message +:+ ("📅 " +:+ date_display event +:+ newline) in
  let message := message +:+ ("🏪 " +:+ store event +:+ newline) in
  let message :=
    match url event with
    | EmptyString => message
    | String _ _ => message +:+ ("🔗 [詳情](" +:+ url event +:+ ")" +:+ newline)
    end in
  let message := message +:+ ("📥 /export_" +:+ event_id +:+ newline) in
  message +:+ (str_mul "─" 30 +:+ newline +:+ newline).

(** The message before it is cut. *)
Definition list_message (events : PyDict Event) : string :=
  let sorted_events := sorted sort_key events in
  foldl list_round ("📅 **即將舉行的活動**" +:+ newline +:+ newline)
        (take 10 sorted_events).

(** [[message[i:i+4000] for i in range(0, len(message), 4000)]] *)
Definition chunks (message : string) : list string :=
  (λ i, str_slice i (i + 4000) message) <$> range_step (len message) 4000.

(** [list_events]: the texts of the replies, in the order they are sent. *)
Definition list_events (events_file : File Event) : list string :=
  let events := load_data events_file in
  match events with
  | [] =>
      ["🤷‍♂️ 暫時沒有活動。" +:+ newline +:+ newline +:+ "使用 /scrape 立即搜尋！"]
  | _ :: _ =>
      let message := list_message events in
      if 4000 <? len message then chunks message else [message]
  end.

(** ** [export_event] *)

(** [export_event]: the reply to the message [command]. *)
Definition export_event (command : string) (events_file : File Event)
    : Reply :=
  let event_id := replace "/export_" "" command in
  let events := load_data events_file in
  match dict_get event_id events with
  | None => reply_text "❌ 找不到這個活動！"
  | Some event =>
      match create_ics_file event with
      | None => reply_text "❌ 無法生成日曆文件。"
      | Some ics_content =>
          reply_document ics_content ("lego_event_" +:+ event_id +:+ ".ics")
            ("📅 日曆文件已生成！" +:+ newline +:+ newline
             +:+ "點擊文件用 Google Calendar 打開")
      end
  end.

(** [handle_export] of [main]: nothing is sent for a text that does not
    start with the command. *)
Definition handle_export (text : string) (events_file : File Event)
    : option Reply :=
  if startswith "/export_" text then Some (export_event text events_file)
  else None.

(** ** [broadcast_new_event] *)

(** The text of the notification; [event['id']] raises [KeyError] for an
    event without an identifier. *)
Definition broadcast_message (event : Event) : Exc string :=
  let message :=
    newline +:+ "🆕 **發現新活動！**" +:+ newline +:+ newline
    +:+ "🎪 " +:+ title event +:+ newline
    +:+ "📍 " +:+ location event +:+ newline
    +:+ "📅 " +:+ date_display event +:+ newline
    +:+ "🏪 " +:+ store event +:+ newline in
  let message :=
    match url event with
    | EmptyString => message
    | String _ _ =>
        message +:+ (newline +:+ "🔗 [查看詳情](" +:+ url event +:+ ")")
    end in
  match id_ event with
  | None => Raise KeyError
  | Some event_id =>
      Ok (message +:+ (newline +:+ newline +:+ "📥 /export_" +:+ event_id))
  end.

(** One round of [for user_id in users]: the call of [send_message] is
    made when [int(user_id)] has a value; what the call raises is caught,
    as is the [ValueError] of [int]. *)
Definition send_round (message : string) (calls : list (Z * string))
    (user_id : string) : list (Z * string) :=
  match int_str user_id with
  | Ok chat_id => calls ++ [(chat_id, message)]
  | Raise _ => calls
  end.

(** [broadcast_new_event]: the calls of [send_message], each with its
    [chat_id] and its [text], in the order they are made. *)
Definition broadcast_new_event (users_file : File User) (event : Event)
    : Exc (list (Z * string)) :=
  let users := load_data users_file in
  message ← broadcast_message event;
  Ok (foldl (send_round message) [] users.*1).

(** ** [manual_scrape] *)

(** [auto_scrape_task] with its scrape: the events file afterwards and the
    events handed to [broadcast_new_event]. *)
Definition scrape_task (year : nat) (clock : nat → string)
    (fetched : FetchResult) (events_file : File Event)
    : File Event * list Event :=
  match scrape_lego_news year fetched with
  | [] => (events_file, [])
  | all_new_events =>
      let st := merge_loop clock (load_data events_file) all_new_events in
      if decide (0 < new_count st)
      then (save_data (existing_events st), broadcast st)
      else (events_file, broadcast st)
  end.

(** [manual_scrape]: the events file afterwards, the events broadcast and
    the two replies. *)
Definition manual_scrape (year : nat) (clock : nat → string)
    (fetched : FetchResult) (events_file : File Event)
    : File Event * list Event * list string :=
  let '(events_file, added) := scrape_task year clock fetched events_file in
  let events := load_data events_file in
  (events_file, added,
   ["🔍 正在搜尋新活動...";
    "✅ 搜尋完成！" +:+ newline +:+ newline +:+ "目前共有 "
    +:+ str (length events) +:+ " 個活動。" +:+ newline
    +:+ "使用 /list 查看。"]).

(** ** [button_callback] *)

(** [users[user_id]['locations'] = locations] *)
Definition set_locations (user : User) (locations : list string) : User :=
  {| subscribed := subscribed user; locations := locations;
     reminders := reminders user |}.

(** [button_callback]: the users file afterwards, and whether the handler
    returned.  [answer] and [edit_message_text] are the two calls to
    Telegram, which may raise; the file is written after the second has
    returned. *)
Definition button_callback (answer : Exc ())
    (edit_message_text : string → Exc ()) (from_user_id : Z)
    (data : string) (users_file : File User) : File User * Exc () :=
  match answer with
  | Raise e => (users_file, Raise e)
  | Ok _ =>
      let user_id := str_Z from_user_id in
      let users := load_data users_file in
      let users :=
        if dict_in user_id users then users
        else dict_set user_id new_user users in
      if startswith "sub_" data then
        let location := replace "sub_" "" data in
        match dict_get user_id users with
        | None => (users_file, Raise KeyError)
        | Some user =>
            let '(user, text) :=
              if decide (location = "all")
              then (set_locations user ["all"], "✅ 已訂閱所有地區！")
              else
                (if bool_decide (location ∈ locations user) then user
                 else set_locations user (locations user ++ [location]),
                 "✅ 已訂閱 " +:+ str_title location +:+ "！") in
            match edit_message_text text with
            | Raise e => (users_file, Raise e)
            | Ok _ => (save_data (dict_set user_id user users), Ok ())
            end
        end
      else (users_file, Ok ())
  end.

(** ** Vocabulary for the properties of the handlers *)

(** The keys of the catalog are [auto_1], ..., [auto_n], in this order. *)
Definition dense (d : PyDict Event) : Prop :=
  d.*1 = auto_id <$> seq 1 (length d).

(** The candidates whose title the stored catalog does not have. *)
Definition unknown (stored : PyDict Event) (l : list Event) : list Event :=
  filter (λ c, title c ∉ existing_titles stored) l.

(** The event [e] is the candidate [c] with an identifier [auto_n], [n] at
    least [lo], and a time stamp. *)
Definition inserted_as (lo : nat) (e c : Event) : Prop :=
  ∃ n t, lo ≤ n ∧ e = set_id_created c (auto_id n) t.

(** The number that a string of ASCII digits writes after the digits of
    [acc]. *)
Fixpoint int_digits (acc : Z) (s : string) : option Z :=
  match s with
  | EmptyString => Some acc
  | String c s' => d ← digit_value c; int_digits (acc * 10 + d) s'
  end.

(** The decimal digit [n], for [n] from 0 to 9. *)
Definition digit_char (n : Z) : ascii := ascii_of_nat (Z.to_nat (48 + n)).

(** A number written with two and with four digits, and a date written as
    [YYYY-MM-DD]. *)
Definition two_digits (n : Z) : string :=
  String (digit_char (n `div` 10)) (String (digit_char (n `mod` 10)) "").

Definition four_digits (n : Z) : string :=
  two_digits (n `div` 100) +:+ two_digits (n `mod` 100).

Definition iso_date (y m d : Z) : string :=
  four_digits y +:+ "-" +:+ two_digits m +:+ "-" +:+ two_digits d.

(** Midnight and two o'clock of a day in the zone. *)
Definition london_midnight (y m d : Z) : datetime :=
  mkDatetime y m d 0 0 0 0 (Some EuropeLondon).
Definition london_two (y m d : Z) : datetime :=
  mkDatetime y m d 2 0 0 0 (Some EuropeLondon).

(** The date of the first of two entries is not after the date of the
    second, as strings. *)
Definition date_le (a b : string * Event) : Prop :=
  str_lt (sort_key b) (sort_key a) = false.

(** The lines of [list_events] for one entry. *)
Definition event_block (item : string * Event) : string :=
  list_round EmptyString item.

(** A character of a string: a byte followed by continuation bytes. *)
Definition is_char (w : string) : Prop :=
  ∃ c t, w = String c t ∧ all_chars is_continuation t = true.

(** A list of characters as [chars] gives it: only the first may start
    with a continuation byte. *)
Definition chars_wf (ws : list string) : Prop :=
  Forall is_char ws ∧ Forall (λ w, continues w = false) (tail ws).

(** The first line of the list of events. *)
Definition list_header : string :=
  "📅 **即將舉行的活動**" +:+ newline +:+ newline.

(** The reply of [list_events] for an empty catalog. *)
Definition no_events_text : string :=
  "🤷‍♂️ 暫時沒有活動。" +:+ newline +:+ newline +:+ "使用 /scrape 立即搜尋！".

(** The users of the file, in its order, are those with the identifiers
    [ids]. *)
Definition registered (ids : list Z) (users_file : File User) : Prop :=
  (load_data users_file).*1 = str_Z <$> ids.

(** The locations of the user [user_id] in the file, [None] for a user who
    is not in it. *)
Definition locations_of (user_id : string) (users_file : File User)
    : option (list string) :=
  locations <$> dict_get user_id (load_data users_file).

(** No user of the file has a location twice. *)
Definition locations_distinct (users_file : File User) : Prop :=
  ∀ user_id user,
    dict_get user_id (load_data users_file) = Some user →
    NoDup (locations user).

(** The user [from_user_id] as [button_callback] finds or makes it, and as
    it leaves it when the button [data] has been handled. *)
Definition found_user (from_user_id : Z) (users_file : File User) : User :=
  default new_user (dict_get (str_Z from_user_id) (load_data users_file)).

Definition pressed_user (from_user_id : Z) (data : string)
    (users_file : File User) : User :=
  let user := found_user from_user_id users_file in
  let location := replace "sub_" "" data in
  if decide (location = "all") then set_locations user ["all"]
  else if bool_decide (location ∈ locations user) then user
  else set_locations user (locations user ++ [location]).

(** The text that [button_callback] puts in place of the menu. *)
Definition button_text (data : string) : string :=
  let location := replace "sub_" "" data in
  if decide (location = "all") then "✅ 已訂閱所有地區！"
  else "✅ 已訂閱 " +:+ str_title location +:+ "！".

(** The identifiers [ids] and [id], once. *)
Definition with_id (ids : list Z) (id : Z) : list Z :=
  if bool_decide (id ∈ ids) then ids else ids ++ [id].


(** * Properties *)

(** ** The dictionary *)

Section dict.
Context {V : Type}.
Implicit Types (d : PyDict V) (k : string) (v : V).

Lemma dict_get_set_eq k v d : dict_get k (dict_set k v d) = Some v.
Proof.
  induction d as [|[k' v'] d IH]; simpl.
  - by rewrite decide_True.
  - destruct (decide (k = k')) as [->|Hne]; simpl.
    + by rewrite decide_True.
    + by rewrite decide_False.
Qed.

Lemma dict_get_set_ne k k' v d :
  k ≠ k' → dict_get k' (dict_set k v d) = dict_get k' d.
Proof.
  intros Hne. induction d as [|[k0 v0] d IH]; simpl.
  - by rewrite decide_False.
  - destruct (decide (k = k0)) as [->|Hne0]; simpl.
    + by rewrite !decide_False.
    + by rewrite IH.
Qed.

Lemma dict_set_elem k v d : (k, v) ∈ dict_set k v d.
Proof.
  induction d as [|[k' v'] d IH]; simpl.
  - apply list_elem_of_here.
  - destruct (decide (k = k')); [apply list_elem_of_here|].
    by apply list_elem_of_further.
Qed.

Lemma dict_set_elem_ne k k' v v' d :
  k ≠ k' → (k', v') ∈ d → (k', v') ∈ dict_set k v d.
Proof.
  intros Hne. induction d as [|[k0 v0] d IH]; simpl.
  { by intros ?%elem_of_nil. }
  intros [Heq|Hin]%elem_of_cons.
  - injection Heq as <- <-. rewrite decide_False by done.
    apply list_elem_of_here.
  - destruct (decide (k = k0)); apply list_elem_of_further; auto.
Qed.

Lemma dict_set_length_le k v d : length d ≤ length (dict_set k v d).
Proof.
  induction d as [|[k' v'] d IH]; simpl; [lia|].
  destruct (decide (k = k')); simpl; lia.
Qed.

Lemma dict_set_length_fresh k v d :
  k ∉ d.*1 → length (dict_set k v d) = S (length d).
Proof.
  induction d as [|[k' v'] d IH]; simpl; [done|].
  intros Hnin. apply not_elem_of_cons in Hnin as [Hne Hnin].
  rewrite decide_False by done. simpl. by rewrite IH.
Qed.

Lemma dict_set_length_present k v d :
  k ∈ d.*1 → length (dict_set k v d) = length d.
Proof.
  induction d as [|[k' v'] d IH]; simpl.
  - by intros ?%elem_of_nil.
  - intros Hin. destruct (decide (k = k')); [done|]. simpl.
    apply elem_of_cons in Hin as [?|Hin]; [done|]. by rewrite IH.
Qed.

Lemma dict_set_keys_fresh k v d :
  k ∉ d.*1 → (dict_set k v d).*1 = d.*1 ++ [k].
Proof.
  induction d as [|[k' v'] d IH]; simpl; [done|].
  intros Hnin. apply not_elem_of_cons in Hnin as [Hne Hnin].
  rewrite decide_False by done. simpl. f_equal. by apply IH.
Qed.

Lemma dict_set_keys_present k v d :
  k ∈ d.*1 → (dict_set k v d).*1 = d.*1.
Proof.
  induction d as [|[k' v'] d IH]; simpl.
  - by intros ?%elem_of_nil.
  - intros Hin. destruct (decide (k = k')) as [->|]; [done|]. simpl.
    apply elem_of_cons in Hin as [?|Hin]; [done|]. f_equal. by apply IH.
Qed.

Lemma dict_set_wf k v d : dict_wf d → dict_wf (dict_set k v d).
Proof.
  unfold dict_wf. intros Hwf.
  destruct (decide (k ∈ d.*1)) as [Hin|Hnin].
  - by rewrite dict_set_keys_present.
  - rewrite dict_set_keys_fresh by done.
    apply NoDup_app. split_and!; [done| |apply NoDup_singleton].
    intros x Hx ->%list_elem_of_singleton. done.
Qed.

Lemma dict_get_Some_elem k v d : dict_get k d = Some v → (k, v) ∈ d.
Proof.
  induction d as [|[k' v'] d IH]; simpl; [done|].
  destruct (decide (k = k')) as [->|].
  - intros [= ->]. apply list_elem_of_here.
  - intros. apply list_elem_of_further. auto.
Qed.

Lemma dict_get_None_keys k d : dict_get k d = None ↔ k ∉ d.*1.
Proof.
  induction d as [|[k' v'] d IH]; simpl.
  - split; [intros _; apply not_elem_of_nil|done].
  - rewrite not_elem_of_cons. destruct (decide (k = k')) as [->|Hne].
    + split; [done|]. by intros [? _].
    + rewrite IH. split; [by intros|by intros [_ ?]].
Qed.
End dict.

(** ** The identifiers *)

Lemma auto_id_inj : Inj (=) (=) auto_id.
Proof.
  intros n m Heq. unfold auto_id, str in Heq.
  apply (inj (String.app "auto_")) in Heq. by apply (inj pretty) in Heq.
Qed.

Lemma auto_id_ne n m : n ≠ m → auto_id n ≠ auto_id m.
Proof. intros Hne Heq. by apply auto_id_inj in Heq. Qed.

(** ** The merge loop *)

Section merge.
Variable titles : gset string.
Variable clock : nat → string.
Implicit Types (st : MergeState) (event : Event).

Local Abbreviation step := (merge_step titles clock).

Lemma merge_step_known st event :
  title event ∈ titles → step st event = st.
Proof. intros Hin. unfold merge_step. by rewrite decide_True. Qed.

Lemma merge_step_new st event :
  title event ∉ titles →
  step st event =
    let event_id := auto_id (next_number st) in
    let event' := set_id_created event event_id (clock (new_count st)) in
    {| existing_events := dict_set event_id event' (existing_events st);
       new_count := new_count st + 1;
       broadcast := broadcast st ++ [event'] |}.
Proof. intros Hin. unfold merge_step. by rewrite decide_False. Qed.

Lemma merge_step_next_number st event :
  next_number st ≤ next_number (step st event).
Proof.
  unfold merge_step, next_number. case_decide; [done|]. simpl.
  pose proof (dict_set_length_le
    (auto_id (length (existing_events st) + new_count st + 1))
    (set_id_created event
       (auto_id (length (existing_events st) + new_count st + 1))
       (clock (new_count st)))
    (existing_events st)). lia.
Qed.

Lemma merge_step_next_number_new st event :
  title event ∉ titles → next_number st < next_number (step st event).
Proof.
  intros Hnew. rewrite merge_step_new by done. unfold next_number. simpl.
  pose proof (dict_set_length_le
    (auto_id (length (existing_events st) + new_count st + 1))
    (set_id_created event
       (auto_id (length (existing_events st) + new_count st + 1))
       (clock (new_count st)))
    (existing_events st)). lia.
Qed.

Lemma merge_step_keeps st event k v :
  (∀ m, next_number st ≤ m → k ≠ auto_id m) →
  (k, v) ∈ existing_events st → (k, v) ∈ existing_events (step st event).
Proof.
  intros Hk Hin. unfold merge_step. case_decide; [done|]. simpl.
  apply dict_set_elem_ne; [|done]. intros Heq. by eapply Hk.
Qed.

Lemma merge_step_get st event k :
  (∀ m, next_number st ≤ m → k ≠ auto_id m) →
  dict_get k (existing_events (step st event))
  = dict_get k (existing_events st).
Proof.
  intros Hk. unfold merge_step. case_decide; [done|]. simpl.
  apply dict_get_set_ne. intros Heq. by eapply Hk.
Qed.

Lemma merge_step_wf st event :
  dict_wf (existing_events st) → dict_wf (existing_events (step st event)).
Proof.
  unfold merge_step. case_decide; [done|]. simpl. apply dict_set_wf.
Qed.

Lemma foldl_step_next_number l st :
  next_number st ≤ next_number (foldl step st l).
Proof.
  revert st. induction l as [|e l IH]; intros st; simpl; [done|].
  etrans; [apply (merge_step_next_number st e)|apply IH].
Qed.

Lemma foldl_step_keeps l st k v :
  (∀ m, next_number st ≤ m → k ≠ auto_id m) →
  (k, v) ∈ existing_events st → (k, v) ∈ existing_events (foldl step st l).
Proof.
  revert st. induction l as [|e l IH]; intros st Hk Hin; simpl; [done|].
  apply IH.
  - intros m Hm. apply Hk. pose proof (merge_step_next_number st e). lia.
  - by apply merge_step_keeps.
Qed.

Lemma foldl_step_get l st k :
  (∀ m, next_number st ≤ m → k ≠ auto_id m) →
  dict_get k (existing_events (foldl step st l))
  = dict_get k (existing_events st).
Proof.
  revert st. induction l as [|e l IH]; intros st Hk; simpl; [done|].
  rewrite IH.
  - by apply merge_step_get.
  - intros m Hm. apply Hk. pose proof (merge_step_next_number st e). lia.
Qed.

Lemma foldl_step_wf l st :
  dict_wf (existing_events st) →
  dict_wf (existing_events (foldl step st l)).
Proof.
  revert st. induction l as [|e l IH]; intros st Hwf; simpl; [done|].
  by apply IH, merge_step_wf.
Qed.

Lemma foldl_step_all_known l st :
  Forall (λ e, title e ∈ titles) l → foldl step st l = st.
Proof.
  revert st. induction l as [|e l IH]; intros st Hall; simpl; [done|].
  inversion Hall; subst. rewrite merge_step_known by done. by apply IH.
Qed.


Lemma merge_step_added_ok lo st event :
  added_ok lo st → added_ok lo (step st event).
Proof.
  intros [Hlo Hall]. destruct (decide (title event ∈ titles)) as [Hin|Hnew].
  { by rewrite merge_step_known. }
  pose proof (merge_step_next_number_new st event Hnew) as Hlt.
  split; [lia|]. revert Hlt. rewrite merge_step_new by done. simpl.
  intros Hlt. apply Forall_app. split.
  - eapply Forall_impl; [exact Hall|]. simpl.
    intros e (n & Hn & Hid & Hin). exists n.
    split; [lia|]. split; [done|].
    rewrite dict_get_set_ne; [done|]. apply auto_id_ne. lia.
  - apply Forall_singleton. exists (next_number st).
    split; [lia|]. split; [done|]. apply dict_get_set_eq.
Qed.

Lemma foldl_step_added_ok lo l st :
  added_ok lo st → added_ok lo (foldl step st l).
Proof.
  revert st. induction l as [|e l IH]; intros st Hok; simpl; [done|].
  by apply IH, merge_step_added_ok.
Qed.

Lemma merge_step_sorted lo st event :
  added_ok lo st → StronglySorted id_lt (broadcast st) →
  StronglySorted id_lt (broadcast (step st event)).
Proof.
  intros [Hlo Hall] Hsorted.
  destruct (decide (title event ∈ titles)) as [Hin|Hnew].
  { by rewrite merge_step_known. }
  rewrite merge_step_new by done. simpl.
  apply StronglySorted_app. split_and!; [|done|].
  - intros e1 e2 He1 ->%list_elem_of_singleton.
    rewrite Forall_forall in Hall.
    destruct (Hall e1 He1) as (n & Hn & Hid & _).
    exists n, (next_number st). split; [done|]. split; [done|lia].
  - repeat constructor.
Qed.

Lemma foldl_step_sorted lo l st :
  added_ok lo st → StronglySorted id_lt (broadcast st) →
  StronglySorted id_lt (broadcast (foldl step st l)).
Proof.
  revert st. induction l as [|e l IH]; intros st Hok Hs; simpl; [done|].
  apply IH; [by apply merge_step_added_ok|by eapply merge_step_sorted].
Qed.

Lemma foldl_step_titles l st :
  title <$> broadcast (foldl step st l)
  = (title <$> broadcast st) ++ filter (λ t, t ∉ titles) (title <$> l).
Proof.
  revert st. induction l as [|e l IH]; intros st; simpl.
  { by rewrite app_nil_r. }
  rewrite IH. destruct (decide (title e ∈ titles)) as [Hin|Hnew].
  - rewrite merge_step_known by done.
    rewrite filter_cons_False; [done|]. by intros ?.
  - rewrite merge_step_new by done. simpl.
    rewrite filter_cons_True by done. rewrite fmap_app. simpl.
    by rewrite <-app_assoc.
Qed.

Lemma foldl_step_count l st :
  new_count st = length (broadcast st) →
  new_count (foldl step st l) = length (broadcast (foldl step st l)).
Proof.
  revert st. induction l as [|e l IH]; intros st Hc; simpl; [done|].
  apply IH. unfold merge_step. case_decide; [done|]. simpl.
  rewrite length_app. simpl. lia.
Qed.

Lemma merge_step_count_le st event : new_count st ≤ new_count (step st event).
Proof. unfold merge_step. case_decide; simpl; lia. Qed.

Lemma foldl_step_count_le l st : new_count st ≤ new_count (foldl step st l).
Proof.
  revert st. induction l as [|e l IH]; intros st; simpl; [done|].
  etrans; [apply (merge_step_count_le st e)|apply IH].
Qed.

Lemma foldl_step_unchanged l st :
  new_count (foldl step st l) = new_count st → foldl step st l = st.
Proof.
  revert st. induction l as [|e l IH]; intros st; simpl; [done|].
  destruct (decide (title e ∈ titles)) as [Hin|Hnew].
  - rewrite merge_step_known by done. apply IH.
  - intros Hc. pose proof (foldl_step_count_le l (step st e)) as Hle.
    revert Hc Hle. rewrite merge_step_new by done. simpl. lia.
Qed.

Lemma foldl_step_broadcast l st e :
  e ∈ broadcast st → e ∈ broadcast (foldl step st l).
Proof.
  revert st. induction l as [|c l IH]; intros st Hin; simpl; [done|].
  apply IH. unfold merge_step. case_decide; [done|]. simpl.
  apply elem_of_app. by left.
Qed.

Lemma foldl_step_broadcast_prefix l st :
  ∃ suffix, broadcast (foldl step st l) = broadcast st ++ suffix.
Proof.
  revert st. induction l as [|c l IH]; intros st; simpl.
  { exists []. by rewrite app_nil_r. }
  destruct (IH (step st c)) as [suffix ->].
  unfold merge_step. case_decide; [by eexists|]. simpl.
  eexists. by rewrite <-app_assoc.
Qed.

Lemma foldl_step_head l st e added :
  broadcast st = [] → broadcast (foldl step st l) = e :: added →
  has_number e (next_number st).
Proof.
  revert st. induction l as [|c l IH]; intros st Hnil; simpl.
  { by rewrite Hnil. }
  destruct (decide (title c ∈ titles)) as [Hin|Hnew].
  - rewrite merge_step_known by done. by apply IH.
  - destruct (foldl_step_broadcast_prefix l (step st c)) as [suffix ->].
    rewrite merge_step_new by done. simpl. rewrite Hnil. simpl.
    by intros [= <- _].
Qed.

(** A candidate with an unknown title is inserted under the number that
    is next when its turn comes, and is still there when the loop ends. *)
Lemma foldl_step_insert l1 c l2 st :
  title c ∉ titles →
  let st1 := foldl step st l1 in
  let e := set_id_created c (auto_id (next_number st1))
                          (clock (new_count st1)) in
  e ∈ broadcast (foldl step st (l1 ++ c :: l2)) ∧
  dict_get (auto_id (next_number st1))
           (existing_events (foldl step st (l1 ++ c :: l2))) = Some e.
Proof.
  intros Hnew st1 e. rewrite foldl_app. simpl. fold st1.
  pose proof (merge_step_next_number_new st1 c Hnew) as Hlt.
  split.
  - apply foldl_step_broadcast. rewrite merge_step_new by done. simpl.
    apply elem_of_app. right. by apply list_elem_of_singleton.
  - rewrite foldl_step_get.
    + rewrite merge_step_new by done. simpl. apply dict_get_set_eq.
    + intros m Hm. apply auto_id_ne. lia.
Qed.
End merge.

Lemma elem_of_existing_titles t (d : PyDict Event) :
  t ∈ existing_titles d ↔ ∃ k v, (k, v) ∈ d ∧ title v = t.
Proof.
  unfold existing_titles, dict_values. rewrite elem_of_list_to_set.
  rewrite list_elem_of_fmap. split.
  - intros (v & -> & Hin). apply list_elem_of_fmap in Hin as ([k v'] & -> & Hin).
    by exists k, v'.
  - intros (k & v & Hin & <-). exists v. split; [done|].
    apply list_elem_of_fmap. by exists (k, v).
Qed.

(** *** Catalogs without a clashing key *)

Section clash_free_states.
Variable titles : gset string.
Variable clock : nat → string.
Implicit Types (st : MergeState) (event : Event).

Local Abbreviation step := (merge_step titles clock).


Lemma merge_step_gap_ok lo st event :
  gap_ok lo st → gap_ok lo (step st event).
Proof.
  intros (Hfree & Hcount & Hnext & Hnum).
  destruct (decide (title event ∈ titles)) as [Hin|Hnew].
  { by rewrite merge_step_known. }
  rewrite merge_step_new by done. cbv zeta.
  assert (auto_id (next_number st) ∉ (existing_events st).*1) as Hfresh.
  { intros Hin. by eapply (Hfree _ (next_number st)). }
  set (e := set_id_created event (auto_id (next_number st))
              (clock (new_count st))).
  assert (next_number
            {| existing_events :=
                 dict_set (auto_id (next_number st)) e (existing_events st);
               new_count := new_count st + 1;
               broadcast := broadcast st ++ [e] |}
          = next_number st + 2) as Hnext'.
  { unfold next_number. simpl. rewrite dict_set_length_fresh by done. lia. }
  split_and!.
  - unfold clash_free. intros k m. rewrite Hnext'. simpl.
    rewrite dict_set_keys_fresh by done.
    intros [Hk| ->%list_elem_of_singleton]%elem_of_app Hm.
    + apply Hfree; [done|lia].
    + apply auto_id_ne. lia.
  - simpl. rewrite length_app. simpl. lia.
  - rewrite Hnext'. simpl. lia.
  - cbn [broadcast]. intros k e' [[_ Hk]|[-> <-]]%lookup_snoc_Some.
    + by apply Hnum.
    + unfold has_number, e. cbn [id_ set_id_created]. do 2 f_equal. lia.
Qed.

Lemma foldl_step_gap_ok lo l st :
  gap_ok lo st → gap_ok lo (foldl step st l).
Proof.
  revert st. induction l as [|e l IH]; intros st Hok; simpl; [done|].
  by apply IH, merge_step_gap_ok.
Qed.
End clash_free_states.

(** ** [auto_scrape_task] *)


Lemma merge_loop_unfold clock stored l :
  merge_loop clock stored l
  = foldl (merge_step (existing_titles stored) clock) (merge_init stored) l.
Proof. done. Qed.

Lemma merge_init_added_ok stored :
  added_ok (length stored + 1) (merge_init stored).
Proof. split; [unfold next_number; simpl; lia|]. simpl. constructor. Qed.

(** The result of the task is the final state of the loop: when nothing
    was added the dictionary is the stored one. *)
Lemma auto_scrape_task_loop clock stored l :
  auto_scrape_task clock stored l
  = (existing_events (merge_loop clock stored l),
     broadcast (merge_loop clock stored l)).
Proof.
  unfold auto_scrape_task. destruct l as [|c l]; [done|].
  case_decide as Hc; [done|].
  rewrite merge_loop_unfold in *.
  rewrite foldl_step_unchanged; [done|]. simpl in *. lia.
Qed.

Lemma merge_wf clock stored l :
  dict_wf stored → dict_wf (auto_scrape_task clock stored l).1.
Proof.
  intros Hwf. rewrite auto_scrape_task_loop. simpl. by apply foldl_step_wf.
Qed.

(** The titles of the added events are the candidates' titles filtered by
    the titles of the stored catalog alone. *)
Lemma merge_added_titles clock stored l :
  title <$> (auto_scrape_task clock stored l).2
  = filter (λ t, t ∉ existing_titles stored) (title <$> l).
Proof.
  rewrite auto_scrape_task_loop. simpl. rewrite merge_loop_unfold.
  by rewrite foldl_step_titles.
Qed.

(** Within one call the numbers of the identifiers strictly increase. *)
Lemma merge_ids_increasing clock stored l :
  StronglySorted id_lt (auto_scrape_task clock stored l).2.
Proof.
  rewrite auto_scrape_task_loop. simpl. rewrite merge_loop_unfold.
  eapply foldl_step_sorted; [apply merge_init_added_ok|constructor].
Qed.

(** Every added event carries a number above the size of the stored
    catalog and stands in the resulting catalog under its identifier. *)
Lemma merge_added_in_catalog clock stored l e :
  e ∈ (auto_scrape_task clock stored l).2 →
  ∃ n, length stored < n ∧ has_number e n ∧
       dict_get (auto_id n) (auto_scrape_task clock stored l).1 = Some e.
Proof.
  rewrite auto_scrape_task_loop. simpl. rewrite merge_loop_unfold.
  intros Hin.
  destruct (foldl_step_added_ok (existing_titles stored) clock
              (length stored + 1) l (merge_init stored)
              (merge_init_added_ok stored)) as [_ Hall].
  rewrite Forall_forall in Hall.
  destruct (Hall e Hin) as (n & Hn & Hid & Hget).
  exists n. split; [lia|]. done.
Qed.

(** The first event added by a call gets the size of the catalog plus one. *)
Lemma merge_first_id clock stored l e added :
  (auto_scrape_task clock stored l).2 = e :: added →
  has_number e (length stored + 1).
Proof.
  rewrite auto_scrape_task_loop. simpl. rewrite merge_loop_unfold.
  intros Hb. apply foldl_step_head in Hb; [|done].
  unfold next_number in Hb. simpl in Hb. by rewrite Nat.add_0_r in Hb.
Qed.

Lemma merge_init_gap_ok stored :
  no_clash stored → gap_ok (length stored + 1) (merge_init stored).
Proof.
  intros Hnc. split_and!; simpl.
  - intros k m Hk Hm. apply Hnc; [done|].
    unfold next_number in Hm. simpl in Hm. lia.
  - done.
  - unfold next_number. simpl. lia.
  - intros k e. by rewrite lookup_nil.
Qed.

(** In a catalog without a clashing key, the event added as the [k]-th of a
    call (counting from 0) gets the number [size + 2k + 1]: the dictionary
    has grown by [k] entries and the counter holds [k] as well. *)
Lemma merge_numbers_no_clash clock stored l k e :
  no_clash stored →
  (auto_scrape_task clock stored l).2 !! k = Some e →
  has_number e (length stored + 2 * k + 1).
Proof.
  intros Hnc. rewrite auto_scrape_task_loop. simpl. rewrite merge_loop_unfold.
  destruct (foldl_step_gap_ok (existing_titles stored) clock
              (length stored + 1) l (merge_init stored)
              (merge_init_gap_ok stored Hnc)) as (_ & _ & _ & Hnum).
  intros Hk. apply Hnum in Hk. unfold has_number in *. rewrite Hk.
  do 2 f_equal. lia.
Qed.

(** In a catalog without a clashing key no entry is replaced. *)
Lemma merge_keeps_entries clock stored l k v :
  no_clash stored → (k, v) ∈ stored →
  (k, v) ∈ (auto_scrape_task clock stored l).1.
Proof.
  intros Hnc Hin. rewrite auto_scrape_task_loop. simpl.
  rewrite merge_loop_unfold. apply foldl_step_keeps; [|done].
  intros m Hm. apply Hnc.
  - apply list_elem_of_fmap. by exists (k, v).
  - unfold next_number in Hm. simpl in Hm. lia.
Qed.

Lemma merge_covers_titles clock stored l c :
  no_clash stored → c ∈ l →
  title c ∈ existing_titles (auto_scrape_task clock stored l).1.
Proof.
  intros Hnc Hc. apply elem_of_existing_titles.
  destruct (decide (title c ∈ existing_titles stored)) as [Hin|Hnew].
  - apply elem_of_existing_titles in Hin as (k & v & Hin & Ht).
    exists k, v. split; [|done]. by apply merge_keeps_entries.
  - apply list_elem_of_split in Hc as (l1 & l2 & ->).
    rewrite auto_scrape_task_loop. simpl. rewrite merge_loop_unfold.
    destruct (foldl_step_insert (existing_titles stored) clock l1 c l2
                (merge_init stored) Hnew) as [_ Hget].
    apply dict_get_Some_elem in Hget. eexists _, _. split; [exact Hget|done].
Qed.

(** In a catalog without a clashing key, a second merge of the same
    candidates adds nothing and leaves the catalog as the first left it. *)
Lemma merge_idempotent_no_clash clock clock' stored l :
  no_clash stored →
  auto_scrape_task clock' (auto_scrape_task clock stored l).1 l
  = ((auto_scrape_task clock stored l).1, []).
Proof.
  intros Hnc. rewrite (auto_scrape_task_loop clock').
  rewrite (merge_loop_unfold clock').
  rewrite foldl_step_all_known; [reflexivity|].
  apply Forall_forall. intros c Hc. by apply merge_covers_titles.
Qed.

(** A catalog whose keys are [auto_1 .. auto_n] has no clashing key. *)
Lemma dense_no_clash (stored : PyDict Event) :
  stored.*1 = auto_id <$> seq 1 (length stored) → no_clash stored.
Proof.
  intros Hkeys k m Hk Hm. rewrite Hkeys in Hk.
  apply list_elem_of_fmap in Hk as (n & -> & Hn).
  apply elem_of_seq in Hn. apply auto_id_ne. lia.
Qed.

(** C10: the titles known to a call are those of the stored catalog alone;
    two candidates with one title that the stored catalog does not have are
    both inserted, under different identifiers, and both stand in the
    resulting catalog. *)
Theorem merge_same_title_twice clock stored l1 c1 l2 c2 l3 :
  title c1 = title c2 →
  title c1 ∉ existing_titles stored →
  ∃ n1 n2 t1 t2,
    let catalog := (auto_scrape_task clock stored (l1 ++ c1 :: l2 ++ c2 :: l3)).1 in
    let added := (auto_scrape_task clock stored (l1 ++ c1 :: l2 ++ c2 :: l3)).2 in
    let e1 := set_id_created c1 (auto_id n1) t1 in
    let e2 := set_id_created c2 (auto_id n2) t2 in
    n1 < n2 ∧ auto_id n1 ≠ auto_id n2 ∧
    e1 ∈ added ∧ e2 ∈ added ∧
    dict_get (auto_id n1) catalog = Some e1 ∧
    dict_get (auto_id n2) catalog = Some e2 ∧
    title e1 = title e2 ∧
    title <$> added
    = filter (λ t, t ∉ existing_titles stored)
             (title <$> l1 ++ c1 :: l2 ++ c2 :: l3).
Proof.
  intros Heq Hnew1. assert (title c2 ∉ existing_titles stored) as Hnew2.
  { by rewrite <-Heq. }
  set (titles := existing_titles stored).
  set (st1 := foldl (merge_step titles clock) (merge_init stored) l1).
  set (st2 := foldl (merge_step titles clock) (merge_init stored)
                (l1 ++ c1 :: l2)).
  exists (next_number st1), (next_number st2),
    (clock (new_count st1)), (clock (new_count st2)).
  simpl. rewrite merge_added_titles.
  rewrite auto_scrape_task_loop. simpl. rewrite merge_loop_unfold.
  assert (next_number st1 < next_number st2) as Hlt.
  { unfold st2. rewrite foldl_app. simpl. fold st1.
    pose proof (merge_step_next_number_new titles clock st1 c1 Hnew1).
    pose proof (foldl_step_next_number titles clock l2
                  (merge_step titles clock st1 c1)). lia. }
  destruct (foldl_step_insert titles clock l1 c1 (l2 ++ c2 :: l3)
              (merge_init stored) Hnew1) as [Hb1 Hg1].
  destruct (foldl_step_insert titles clock (l1 ++ c1 :: l2) c2 l3
              (merge_init stored) Hnew2) as [Hb2 Hg2].
  rewrite <-app_assoc in Hb2, Hg2. simpl in Hb2, Hg2.
  split_and!; try done. apply auto_id_ne. lia.
Qed.

(** C10 at two candidates titled "A" and the empty catalog. *)
Lemma merge_same_title_twice_witness :
  ∃ n1 n2 t1 t2,
    let catalog :=
      (auto_scrape_task (λ _, "2026-01-01T00:00:00") []
         ([] ++ candidate "A" :: [] ++ candidate "A" :: [])).1 in
    let added :=
      (auto_scrape_task (λ _, "2026-01-01T00:00:00") []
         ([] ++ candidate "A" :: [] ++ candidate "A" :: [])).2 in
    let e1 := set_id_created (candidate "A") (auto_id n1) t1 in
    let e2 := set_id_created (candidate "A") (auto_id n2) t2 in
    n1 < n2 ∧ auto_id n1 ≠ auto_id n2 ∧
    e1 ∈ added ∧ e2 ∈ added ∧
    dict_get (auto_id n1) catalog = Some e1 ∧
    dict_get (auto_id n2) catalog = Some e2 ∧
    title e1 = title e2 ∧
    title <$> added
    = filter (λ t, t ∉ existing_titles [])
             (title <$> [] ++ candidate "A" :: [] ++ candidate "A" :: []).
Proof.
  apply (merge_same_title_twice (λ _, "2026-01-01T00:00:00") []
           [] (candidate "A") [] (candidate "A") []).
  - reflexivity.
  - vm_compute. intros H. inversion H.
Defined.

(** C1, where the code leaves the claim: merged into the empty catalog, two
    candidates with different titles get [auto_1] and [auto_3]; the second
    is not given the size of the catalog at the start plus two. *)
Theorem merge_second_id_skips clock :
  let stored : PyDict Event := [] in
  let added := (auto_scrape_task clock stored
                  [candidate "A"; candidate "B"]).2 in
  id_ <$> added = [Some (auto_id 1); Some (auto_id 3)] ∧
  added !! 1 ≫= id_ ≠ Some (auto_id (length stored + 1 + 1)).
Proof. split; [reflexivity|]. intros H. vm_compute in H. discriminate H. Qed.

(** C2, where the code leaves the claim: the catalog that the merge of "A"
    and "B" into the empty catalog leaves has the keys [auto_1] and
    [auto_3]; the merge of "C" into it assigns [auto_3] again and replaces
    the event "B". *)
Theorem merge_reuses_id clock :
  let stored := (auto_scrape_task clock [] [candidate "A"; candidate "B"]).1 in
  let result := auto_scrape_task clock stored [candidate "C"] in
  stored.*1 = ["auto_1"; "auto_3"] ∧
  id_ <$> result.2 = [Some "auto_3"] ∧
  title <$> dict_get "auto_3" stored = Some "B" ∧
  title <$> dict_get "auto_3" result.1 = Some "C" ∧
  title <$> dict_values result.1 = ["A"; "C"].
Proof. repeat split; reflexivity. Qed.

(** C3, where the code leaves the claim: on that catalog, merging the
    candidates "C" and "B" adds "C" in place of the event "B", and merging
    the same candidates into the result adds "B" in place of "C". *)
Theorem merge_twice_adds_again clock :
  let stored := (auto_scrape_task clock [] [candidate "A"; candidate "B"]).1 in
  let candidates := [candidate "C"; candidate "B"] in
  let first := auto_scrape_task clock stored candidates in
  let second := auto_scrape_task clock first.1 candidates in
  title <$> first.2 = ["C"] ∧
  title <$> second.2 = ["B"] ∧
  title <$> dict_values first.1 = ["A"; "C"] ∧
  title <$> dict_values second.1 = ["A"; "B"].
Proof. repeat split; reflexivity. Qed.


(** ** Dates and times *)

Local Open Scope Z_scope.

Lemma time_of_day_fields h mi s :
  0 ≤ h < 24 → 0 ≤ mi < 60 → 0 ≤ s < 60 →
  let t := h * 3600 + mi * 60 + s in
  t `div` 3600 = h ∧ (t `mod` 3600) `div` 60 = mi ∧ t `mod` 60 = s ∧
  0 ≤ t < 86400.
Proof. intros Hh Hmi Hs t. subst t. Z.div_mod_to_equations. lia. Qed.

Lemma valid_time_bounds h mi s us :
  valid_time h mi s us = true →
  0 ≤ h < 24 ∧ 0 ≤ mi < 60 ∧ 0 ≤ s < 60 ∧ 0 ≤ us < 1000000.
Proof.
  unfold valid_time. rewrite !andb_true_iff.
  rewrite !Z.leb_le, !Z.ltb_lt. lia.
Qed.

Lemma valid_date_bounds y m d :
  valid_date y m d = true →
  1 ≤ y ≤ 9999 ∧ 1 ≤ m ≤ 12 ∧ 1 ≤ d ≤ days_in_month y m.
Proof.
  unfold valid_date. rewrite !andb_true_iff. rewrite !Z.leb_le. lia.
Qed.

Lemma Exc_bind_Ok {A} (m : Exc A) : (x ← m; Ok x) = m.
Proof. by destruct m. Qed.

(** [dt + td] for a [td] of whole days and a time of day that stays within
    the day. *)
Lemma datetime_add_split dt days secs :
  valid_datetime dt →
  0 ≤ hour dt * 3600 + minute dt * 60 + second dt + secs < 86400 →
  datetime_add dt (mkTimedelta days secs 0)
  = let t := hour dt * 3600 + minute dt * 60 + second dt + secs in
    let dt' := mkDatetime (year dt) (month dt) (day dt)
                 (t `div` 3600) ((t `mod` 3600) `div` 60) (t `mod` 60)
                 (microsecond dt) (tzinfo dt) in
    if 0 <=? days then shift_days next_day (Z.to_nat days) dt'
    else shift_days prev_day (Z.to_nat (- days)) dt'.
Proof.
  intros [_ Ht] Hsecs. apply valid_time_bounds in Ht as (Hh & Hmi & Hs & Hus).
  unfold datetime_add. cbn [td_days td_seconds td_microseconds].
  rewrite Z.add_0_r. rewrite (Z.div_small (microsecond dt)) by lia.
  rewrite (Z.mod_small (microsecond dt)) by lia. rewrite Z.add_0_r.
  rewrite (Z.div_small _ 86400) by lia. rewrite (Z.mod_small _ 86400) by lia.
  by rewrite Z.add_0_r.
Qed.

Lemma days_in_month_bounds y m : 28 ≤ days_in_month y m ≤ 31.
Proof.
  unfold days_in_month.
  destruct (m =? 2); [destruct (is_leap y); lia|].
  destruct ((m =? 4) || (m =? 6) || (m =? 9) || (m =? 11)); lia.
Qed.

Lemma days_in_december y : days_in_month y 12 = 31.
Proof. done. Qed.

Lemma next_day_Raise dt :
  valid_datetime dt → (∃ e, next_day dt = Raise e) ↔ last_day dt.
Proof.
  intros [Hd _]. apply valid_date_bounds in Hd as (Hy & Hm & Hday).
  unfold next_day, last_day.
  destruct (day dt <? days_in_month (year dt) (month dt)) eqn:H1;
    [|destruct (month dt <? 12) eqn:H2; [|destruct (year dt <? 9999) eqn:H3]];
    rewrite ?Z.ltb_lt, ?Z.ltb_ge in *.
  - split; [by intros [? ?]|]. intros (? & Hm12 & ?).
    rewrite Hm12, days_in_december in H1. lia.
  - split; [by intros [? ?]|lia].
  - split; [by intros [? ?]|lia].
  - split; [intros _|by eexists].
    assert (month dt = 12) as Hm12 by lia.
    rewrite Hm12, days_in_december in H1, Hday. lia.
Qed.

Lemma is_leap_spec y :
  is_leap y = true ↔ y `mod` 4 = 0 ∧ (y `mod` 100 ≠ 0 ∨ y `mod` 400 = 0).
Proof.
  unfold is_leap. rewrite andb_true_iff, orb_true_iff, negb_true_iff.
  rewrite !Z.eqb_eq, Z.eqb_neq. done.
Qed.

Lemma days_before_next_year y :
  days_before_year (y + 1)
  = days_before_year y + (if is_leap y then 366 else 365).
Proof.
  unfold days_before_year. replace (y + 1 - 1) with y by lia.
  destruct (is_leap y) eqn:Hl.
  - apply is_leap_spec in Hl. Z.div_mod_to_equations. lia.
  - assert (¬ (y `mod` 4 = 0 ∧ (y `mod` 100 ≠ 0 ∨ y `mod` 400 = 0))) as Hn.
    { rewrite <-is_leap_spec. congruence. }
    Z.div_mod_to_equations. lia.
Qed.

Lemma days_before_next_month y m :
  1 ≤ m ≤ 11 →
  days_before_month y (m + 1) = days_before_month y m + days_in_month y m.
Proof.
  intros Hm.
  assert (m = 1 ∨ m = 2 ∨ m = 3 ∨ m = 4 ∨ m = 5 ∨ m = 6 ∨ m = 7 ∨ m = 8
          ∨ m = 9 ∨ m = 10 ∨ m = 11) as Hcases by lia.
  unfold days_before_month, days_in_month.
  destruct_or! Hcases; subst m; simpl; destruct (is_leap y); done.
Qed.

Lemma days_before_december y :
  days_before_month y 12 = 334 + (if is_leap y then 1 else 0).
Proof. done. Qed.

(** The day after is one day later, at the same time of day. *)
Lemma next_day_ordinal dt dt' :
  valid_datetime dt → next_day dt = Ok dt' →
  toordinal dt' = toordinal dt + 1 ∧ valid_datetime dt' ∧
  hour dt' = hour dt ∧ minute dt' = minute dt ∧ second dt' = second dt ∧
  microsecond dt' = microsecond dt ∧ tzinfo dt' = tzinfo dt.
Proof.
  intros [Hd Ht]. pose proof Hd as Hd'.
  apply valid_date_bounds in Hd' as (Hy & Hm & Hday).
  pose proof (days_in_month_bounds (year dt) (month dt)) as Hdim.
  unfold next_day, toordinal, ymd_to_ord.
  destruct (day dt <? days_in_month (year dt) (month dt)) eqn:H1;
    [|destruct (month dt <? 12) eqn:H2; [|destruct (year dt <? 9999) eqn:H3]];
    rewrite ?Z.ltb_lt, ?Z.ltb_ge in *; intros [= <-]; unfold valid_datetime;
    cbn [on_date year month day hour minute second microsecond tzinfo].
  - split_and!; try done; [lia|]. unfold valid_date.
    rewrite !andb_true_iff, !Z.leb_le. lia.
  - rewrite days_before_next_month by lia. split_and!; try done; [lia|].
    unfold valid_date.
    pose proof (days_in_month_bounds (year dt) (month dt + 1)).
    rewrite !andb_true_iff, !Z.leb_le. lia.
  - assert (month dt = 12) as Hm12 by lia.
    rewrite Hm12, days_in_december in *.
    rewrite days_before_next_year, days_before_december.
    split_and!; try done.
    + change (days_before_month (year dt + 1) 1) with 0.
      destruct (is_leap (year dt)); lia.
    + unfold valid_date.
      rewrite !andb_true_iff, !Z.leb_le. change (days_in_month _ 1) with 31.
      lia.
Qed.

Lemma two_hours_sum dt :
  valid_datetime dt →
  datetime_add dt (timedelta_hours 2)
  = if decide (hour dt < 22)
    then Ok (mkDatetime (year dt) (month dt) (day dt) (hour dt + 2)
               (minute dt) (second dt) (microsecond dt) (tzinfo dt))
    else next_day (mkDatetime (year dt) (month dt) (day dt) (hour dt - 22)
                     (minute dt) (second dt) (microsecond dt) (tzinfo dt)).
Proof.
  intros Hv. pose proof Hv as [Hd Ht].
  apply valid_time_bounds in Ht as (Hh & Hmi & Hs & Hus).
  change (timedelta_hours 2) with (mkTimedelta 0 7200 0).
  destruct (decide (hour dt < 22)) as [Hearly|Hlate].
  - rewrite datetime_add_split; [|done|lia]. cbv zeta. simpl shift_days.
    assert (hour dt * 3600 + minute dt * 60 + second dt + 7200
            = (hour dt + 2) * 3600 + minute dt * 60 + second dt) as -> by lia.
    by destruct (time_of_day_fields (hour dt + 2) (minute dt) (second dt))
      as (-> & -> & -> & _); [lia..|].
  - unfold datetime_add. cbn [td_days td_seconds td_microseconds].
    rewrite Z.add_0_r. rewrite (Z.div_small (microsecond dt)) by lia.
    rewrite (Z.mod_small (microsecond dt)) by lia. rewrite Z.add_0_r.
    assert (hour dt * 3600 + minute dt * 60 + second dt + 7200
            = 1 * 86400
              + ((hour dt - 22) * 3600 + minute dt * 60 + second dt))
      as -> by lia.
    destruct (time_of_day_fields (hour dt - 22) (minute dt) (second dt))
      as (H1 & H2 & H3 & H4); [lia..|].
    rewrite Z.div_add_l by lia. rewrite (Z.add_comm (1 * 86400)).
    rewrite Z.mod_add by lia.
    rewrite (Z.div_small _ 86400) by lia.
    rewrite (Z.mod_small _ 86400) by lia. rewrite H1, H2, H3.
    simpl. apply Exc_bind_Ok.
Qed.

(** Two hours later: the sum exists for every date but one in the last
    two hours of the last day, keeps the time zone, and is later by 7200
    seconds. *)
Lemma two_hours_later dt :
  valid_datetime dt → ¬ last_two_hours dt →
  ∃ dtend,
    datetime_add dt (timedelta_hours 2) = Ok dtend ∧
    timestamp dtend = timestamp dt + 7200 * 1000000 ∧
    tzinfo dtend = tzinfo dt ∧ valid_datetime dtend.
Proof.
  intros Hv Hlast. rewrite two_hours_sum by done. pose proof Hv as [Hd Ht].
  apply valid_time_bounds in Ht as (Hh & Hmi & Hs & Hus).
  destruct (decide (hour dt < 22)) as [Hearly|Hlate].
  - eexists. split; [done|]. unfold timestamp, toordinal, valid_datetime.
    cbn [year month day hour minute second microsecond tzinfo].
    split_and!; [lia|done|done|].
    unfold valid_time. rewrite !andb_true_iff, !Z.leb_le, !Z.ltb_lt. lia.
  - set (dt0 := mkDatetime (year dt) (month dt) (day dt) (hour dt - 22)
                  (minute dt) (second dt) (microsecond dt) (tzinfo dt)).
    assert (valid_datetime dt0) as Hv0.
    { split; [done|]. unfold valid_time. simpl.
      rewrite !andb_true_iff, !Z.leb_le, !Z.ltb_lt. lia. }
    destruct (next_day dt0) as [e|dtend] eqn:Hnext.
    { exfalso. apply Hlast. split; [|lia].
      assert (last_day dt0) as Hl0; [|done].
      apply next_day_Raise; [done|by eexists]. }
    destruct (next_day_ordinal dt0 dtend Hv0 Hnext)
      as (Hord & Hvend & Hh' & Hmi' & Hs' & Hus' & Htz).
    exists dtend. split_and!; [done| |done|done].
    unfold timestamp. rewrite Hord, Hh', Hmi', Hs', Hus'.
    unfold toordinal, dt0. simpl. lia.
Qed.

(** In the last two hours of the last day the sum is out of range. *)
Lemma two_hours_overflow dt :
  valid_datetime dt → last_two_hours dt →
  datetime_add dt (timedelta_hours 2) = Raise OverflowError.
Proof.
  intros Hv [(Hy & Hm & Hd) Hh]. rewrite two_hours_sum by done.
  rewrite decide_False by lia. unfold next_day.
  cbn [year month day]. rewrite Hy, Hm, Hd. reflexivity.
Qed.

Lemma fromisoformat_valid s dt : fromisoformat s = Some dt → valid_datetime dt.
Proof.
  unfold fromisoformat. case_match; [done|].
  destruct (parse_isoformat_date _ _) as [[[y m] d]|]; simpl; [|done].
  match goal with
  | |- context [mbind _ ?r] => destruct r as [[[[[h mi] sec] us] tz]|]
  end; simpl; [|done].
  destruct (valid_date y m d) eqn:Hd; simpl; [|done].
  destruct (valid_time h mi sec us) eqn:Ht; simpl; [|done].
  by intros [= <-].
Qed.

(** [localize] accepts the dates without a time zone and puts them in the
    zone as they are. *)
Lemma localize_spec dt start :
  localize dt = Ok start ↔ tzinfo dt = None ∧ start = in_london dt.
Proof.
  unfold localize, in_london. destruct (tzinfo dt) as [tz|].
  - split; [done|]. by intros [? _].
  - split; [by intros [= <-]|by intros [_ ->]].
Qed.

(** The start of an event: its date read, when it has no time zone, put in
    the zone. *)
Lemma start_of_spec event start :
  start_of event = Some start ↔
  ∃ dt, fromisoformat (date event) = Some dt ∧ tzinfo dt = None ∧
        start = in_london dt.
Proof.
  unfold start_of. destruct (fromisoformat (date event)) as [dt|]; simpl.
  - pose proof (localize_spec dt start) as Hl.
    destruct (localize dt) as [e|start'] eqn:Hloc.
    + split; [done|]. intros (dt' & [= <-] & H). apply Hl in H. done.
    + split.
      * intros [= ->]. exists dt. split; [done|]. by apply Hl.
      * intros (dt' & [= <-] & H). apply Hl in H. by injection H as ->.
  - split; [done|]. by intros (? & ? & _).
Qed.

Local Close Scope Z_scope.

(** ** [create_ics_file] *)

(** The [try] block never reaches its end: when the dates are in place,
    [add('valarm')] raises. *)
Lemma ics_try_block_raises event ical_event :
  ∃ e, ics_try_block event ical_event = Raise e.
Proof.
  unfold ics_try_block.
  destruct (fromisoformat (date event)) as [dt|]; simpl; [|by eexists].
  destruct (localize dt) as [|start]; simpl; [by eexists|].
  destruct (datetime_add start (timedelta_hours 2)) as [|dtend]; simpl;
    by eexists.
Qed.

Lemma create_ics_file_None event : create_ics_file event = None.
Proof.
  unfold create_ics_file.
  destruct (ics_try_block_raises event
    (add_prop
       (add_prop (add_prop ICalEvent "summary" (VText (title event)))
          "description"
          (VText (description event +:+ newline +:+ newline +:+ "店舖: "
                  +:+ store event)))
       "location" (VText (location event)))) as [e ->].
  done.
Qed.


(** How the [try] block is left: at the date when it does not read or
    has a time zone, at the end when that is out of range, and else at
    the alarm. *)
Lemma ics_try_block_exit event ical_event :
  ics_try_block event ical_event
  = match fromisoformat (date event) with
    | None => Raise ValueError
    | Some dt =>
        match tzinfo dt with
        | Some _ => Raise ValueError
        | None =>
            if decide (last_two_hours dt) then Raise OverflowError
            else Raise TypeError
        end
    end.
Proof.
  unfold ics_try_block.
  destruct (fromisoformat (date event)) as [dt|] eqn:Hf; simpl; [|done].
  pose proof (fromisoformat_valid _ _ Hf) as Hv. unfold localize.
  destruct (tzinfo dt) as [tz|] eqn:Htz; simpl; [done|].
  fold (in_london dt).
  destruct (decide (last_two_hours dt)) as [Hlate|Hlate].
  - by rewrite two_hours_overflow.
  - destruct (two_hours_later (in_london dt)) as (dtend & -> & _); done.
Qed.

(** With the dates in place the block is left by the [TypeError] of
    [add('valarm')]. *)
Lemma ics_try_block_valarm event ical_event start :
  start_of event = Some start → ¬ last_two_hours start →
  ics_try_block event ical_event = Raise TypeError.
Proof.
  intros (dt & Hf & Htz & ->)%start_of_spec Hlate.
  rewrite ics_try_block_exit, Hf, Htz. by rewrite decide_False.
Qed.

(** For an event whose date is "2025-12-05", which reads as the fifth of
    December 2025, the block is left by that [TypeError], and there is no
    document. *)
Lemma create_ics_file_valid_date :
  start_of (dated_event "2025-12-05")
  = Some (mkDatetime 2025 12 5 0 0 0 0 (Some EuropeLondon)) ∧
  (∀ ical_event,
     ics_try_block (dated_event "2025-12-05") ical_event = Raise TypeError) ∧
  create_ics_file (dated_event "2025-12-05") = None.
Proof.
  split_and!; [reflexivity| |apply create_ics_file_None].
  intros ical_event. eapply ics_try_block_valarm; [reflexivity|].
  by intros [[? _] _].
Qed.

(** C4, as the code has it: for an event whose date is "TBA", does not read
    as a date, or reads as a date that has a time zone, which [localize]
    refuses, the [try] block is left at the date by a [ValueError], and
    the result is [None]. *)
Theorem create_ics_file_failure event :
  date event = "TBA" ∨
  fromisoformat (date event) = None ∨
  (∃ dt, fromisoformat (date event) = Some dt ∧ tzinfo dt ≠ None) →
  (∀ ical_event, ics_try_block event ical_event = Raise ValueError) ∧
  create_ics_file event = None.
Proof.
  intros H. split; [|apply create_ics_file_None].
  intros ical_event. rewrite ics_try_block_exit.
  destruct H as [Htba|[Hnone|(dt & Hf & Hdt)]].
  - by rewrite Htba.
  - by rewrite Hnone.
  - rewrite Hf. by destruct (tzinfo dt).
Qed.

(** C4 at an event whose date is "TBA". *)
Lemma create_ics_file_failure_witness :
  (∀ ical_event,
     ics_try_block (dated_event "TBA") ical_event = Raise ValueError) ∧
  create_ics_file (dated_event "TBA") = None.
Proof.
  apply (create_ics_file_failure (dated_event "TBA")). left. reflexivity.
Defined.

(** C4, where the code leaves the claim: an event whose date is not "TBA"
    and reads as a date, ten o'clock on the fifth of December 2025 at the
    offset zero, has no document: [localize] refuses the date. *)
Lemma create_ics_file_offset_date :
  let event := dated_event "2025-12-05T10:00:00+00:00" in
  date event ≠ "TBA" ∧
  fromisoformat (date event)
  = Some (mkDatetime 2025 12 5 10 0 0 0 (Some (FixedOffset 0))) ∧
  localize (mkDatetime 2025 12 5 10 0 0 0 (Some (FixedOffset 0)))
  = Raise ValueError ∧
  (∀ ical_event, ics_try_block event ical_event = Raise ValueError) ∧
  create_ics_file event = None.
Proof. split_and!; [done|reflexivity..]. Qed.

(** ** [export_all_events] *)

Lemma batch_component_spec item c :
  batch_component item = Some c ↔
  date item.2 ≠ "TBA" ∧
  ∃ start dtend,
    start_of item.2 = Some start ∧
    datetime_add start (timedelta_hours 2) = Ok dtend ∧
    c = batch_vevent item.1 item.2 start dtend.
Proof.
  destruct item as [event_id event]. unfold batch_component, batch_round.
  simpl. destruct (decide (date event = "TBA")) as [Htba|Htba].
  { split; [done|]. by intros [? _]. }
  unfold start_of.
  destruct (fromisoformat (date event)) as [dt|]; simpl.
  2:{ split; [done|]. by intros (_ & ? & ? & ? & _). }
  destruct (localize dt) as [|start]; simpl.
  { split; [done|]. by intros (_ & ? & ? & ? & _). }
  destruct (datetime_add start (timedelta_hours 2)) as [|dtend] eqn:Hadd;
    simpl.
  { split; [done|]. intros (_ & ? & ? & [= <-] & Hadd' & _). congruence. }
  split.
  - intros [= <-]. split; [done|]. by exists start, dtend.
  - intros (_ & ? & ? & [= <-] & Hadd' & ->).
    rewrite Hadd in Hadd'. by injection Hadd' as <-.
Qed.

(** An event yields a component exactly when its date is not "TBA" and
    has a start, two hours after which there still is a date. *)
Lemma batch_component_is_Some item :
  is_Some (batch_component item) ↔
  date item.2 ≠ "TBA" ∧
  ∃ start, start_of item.2 = Some start ∧ ¬ last_two_hours start.
Proof.
  split.
  - intros [c (Htba & start & dtend & Hs & Hadd & _)%batch_component_spec].
    split; [done|]. exists start. split; [done|]. intros Hlate.
    pose proof Hs as (dt & Hf & _ & ->)%start_of_spec.
    apply fromisoformat_valid in Hf.
    rewrite two_hours_overflow in Hadd; done.
  - intros [Htba (start & Hs & Hlate)]. pose proof Hs as Hs'.
    apply start_of_spec in Hs' as (dt & Hf & Htz & ->).
    apply fromisoformat_valid in Hf.
    destruct (two_hours_later (in_london dt)) as (dtend & Hadd & _);
      [done|done|].
    eexists. apply batch_component_spec. split; [done|].
    by exists (in_london dt), dtend.
Qed.

Lemma batch_step_component cal count item :
  batch_step (cal, count) item
  = match batch_component item with
    | Some c => (add_component cal c, count + 1)
    | None => (cal, count)
    end.
Proof.
  unfold batch_step, batch_component.
  by destruct (batch_round item.1 item.2) as [[e|c]|].
Qed.

Lemma foldl_batch_step events cal count :
  foldl batch_step (cal, count) events
  = (mkComponent (comp_name cal) (props cal)
       (subcomponents cal ++ omap batch_component events),
     count + length (omap batch_component events)).
Proof.
  revert cal count. induction events as [|item events IH]; intros cal count.
  { simpl. rewrite app_nil_r, Nat.add_0_r. by destruct cal. }
  change (foldl batch_step (cal, count) (item :: events))
    with (foldl batch_step (batch_step (cal, count) item) events).
  rewrite batch_step_component. csimpl.
  destruct (batch_component item) as [c|]; rewrite IH; [|done].
  unfold add_component. cbn [comp_name props subcomponents length].
  rewrite <-app_assoc. f_equal. simpl. lia.
Qed.



(** The dates that Python 3.11 reads beside [YYYY-MM-DD]: each of these
    events yields a component that starts on the fifth of December 2025
    in the zone; and an event on the last day, at midnight, yields
    one. *)
Lemma export_all_events_formats :
  let midnight := mkDatetime 2025 12 5 0 0 0 0 (Some EuropeLondon) in
  start_of (dated_event "20251205") = Some midnight ∧
  start_of (dated_event "2025-W49-5") = Some midnight ∧
  start_of (dated_event "2025-12-05T1000")
  = Some (mkDatetime 2025 12 5 10 0 0 0 (Some EuropeLondon)) ∧
  start_of (dated_event "2025-12-05T10:00:00.5")
  = Some (mkDatetime 2025 12 5 10 0 0 500000 (Some EuropeLondon)) ∧
  fromisoformat "2025-12-05T10:00:00Z"
  = Some (mkDatetime 2025 12 5 10 0 0 0 (Some (FixedOffset 0))) ∧
  is_Some (batch_component ("auto_1", dated_event "20251205")) ∧
  is_Some (batch_component ("auto_1", dated_event "9999-12-31")) ∧
  is_Some (batch_component ("auto_1", dated_event "0001-01-01")).
Proof. split_and!; try reflexivity; by eexists. Qed.

(** The example of the specification: of an event dated "2025-12-05" and
    one dated "TBA", the document has the component of the first. *)
Lemma export_all_events_example :
  ∃ c filename caption,
    export_all_events [("auto_1", dated_event "2025-12-05");
                       ("auto_2", dated_event "TBA")]
    = reply_document
        (mkComponent "VCALENDAR"
           [("prodid", VText "-//LEGO Events UK//EN");
            ("version", VText "2.0")] [c]) filename caption ∧
    prop "summary" (props c)
    = Some (VText "Free LEGO set at selected stores") ∧
    prop "dtstart" (props c)
    = Some (VDatetime (mkDatetime 2025 12 5 0 0 0 0 (Some EuropeLondon))) ∧
    prop "dtend" (props c)
    = Some (VDatetime (mkDatetime 2025 12 5 2 0 0 0 (Some EuropeLondon))) ∧
    prop "uid" (props c) = Some (VText "auto_1@legoeventsuk").
Proof. do 3 eexists. split; [reflexivity|]. split_and!; reflexivity. Qed.


(** ** Strings *)

Local Arguments String.append !_ _ / : simpl nomatch.

Lemma string_app_nil_r (s : string) : s +:+ "" = s.
Proof. induction s as [|c s IH]; simpl; [done|]. by rewrite IH. Qed.

Lemma string_app_assoc (a b c : string) : (a +:+ b) +:+ c = a +:+ b +:+ c.
Proof. induction a as [|x a IH]; simpl; [done|]. by rewrite IH. Qed.

Lemma string_app_length (a b : string) :
  String.length (a +:+ b) = String.length a + String.length b.
Proof. induction a as [|x a IH]; simpl; [done|]. by rewrite IH. Qed.

Lemma lower_app (a b : string) : lower (a +:+ b) = lower a +:+ lower b.
Proof. induction a as [|x a IH]; simpl; [done|]. by rewrite IH. Qed.

Lemma lower_length (s : string) : String.length (lower s) = String.length s.
Proof. induction s as [|c s IH]; simpl; [done|]. by rewrite IH. Qed.

(** A split of [lower t] comes from a split of [t]. *)
Lemma lower_app_inv (t a b : string) :
  lower t = a +:+ b →
  ∃ a' b', t = a' +:+ b' ∧ lower a' = a ∧ lower b' = b.
Proof.
  revert t. induction a as [|x a IH]; intros t; simpl.
  - intros <-. by exists "", t.
  - destruct t as [|c t]; simpl; [done|]. intros [= <- Ht].
    destruct (IH t Ht) as (a' & b' & -> & <- & <-).
    by exists (String c a'), b'.
Qed.

Lemma startswith_spec (p s : string) :
  startswith p s = true ↔ ∃ post, s = p +:+ post.
Proof.
  revert s. induction p as [|a p IH]; intros s; simpl.
  - split; [intros _; by exists s|done].
  - destruct s as [|b s].
    + split; [done|]. by intros [post ?].
    + destruct (decide (a = b)) as [->|Hne].
      * rewrite IH. split.
        -- intros [post ->]. by exists post.
        -- intros [post [= ->]]. by exists post.
      * split; [done|]. intros [post [= ? _]]. done.
Qed.

Lemma contains_spec (sub s : string) :
  contains sub s = true ↔ ∃ pre post, s = pre +:+ sub +:+ post.
Proof.
  induction s as [|c s IH]; simpl.
  - rewrite orb_false_r, startswith_spec. split.
    + intros [post ->]. by exists "", post.
    + intros (pre & post & Heq). destruct pre as [|? ?]; [|done].
      by exists post.
  - rewrite orb_true_iff, startswith_spec, IH. split.
    + intros [[post ->]|(pre & post & ->)].
      * by exists "", post.
      * by exists (String c pre), post.
    + intros (pre & post & Heq). destruct pre as [|x pre]; simpl in Heq.
      * left. by exists post.
      * injection Heq as <- ->. right. by exists pre, post.
Qed.

(** The test of the code, [sub.lower() in t.lower()], says that [sub]
    occurs in [t] up to case. *)
Lemma contains_lower_spec (sub t : string) :
  contains (lower sub) (lower t) = true ↔ occurs_ci sub t.
Proof.
  rewrite contains_spec. unfold occurs_ci. split.
  - intros (pre & post & Heq).
    apply lower_app_inv in Heq as (pre' & rest & -> & <- & Heq).
    apply lower_app_inv in Heq as (mid & post' & -> & Hmid & <-).
    by exists pre', mid, post'.
  - intros (pre & mid & post & -> & Hmid).
    exists (lower pre), (lower post). by rewrite !lower_app, Hmid.
Qed.


Lemma all_chars_app p (a b : string) :
  all_chars p (a +:+ b) = all_chars p a && all_chars p b.
Proof.
  induction a as [|c a IH]; simpl; [done|]. rewrite IH. by destruct (p c).
Qed.

(** ** Bytes and characters *)

Lemma byte_N_of_ascii b : byte (N_of_ascii b) = b.
Proof. apply ascii_N_embedding. Qed.

Lemma encode_app (a b : list N) : encode (a ++ b) = encode a +:+ encode b.
Proof.
  induction a as [|c a IH]; simpl; [done|].
  by rewrite IH, string_app_assoc.
Qed.

Lemma writes_encode_char c bs : writes c bs = true → encode_char c = bs.
Proof.
  unfold writes, encode_char, is_scalar.
  intros [Hs ->%bool_decide_eq_true]%andb_true_iff.
  destruct ((56448 <=? c)%N && (c <=? 56575)%N) eqn:H; [|done]. exfalso.
  apply andb_true_iff in H as [H1%N.leb_le H2%N.leb_le].
  apply orb_true_iff in Hs as [Hs%N.ltb_lt|[Hs%N.ltb_lt _]%andb_true_iff];
    lia.
Qed.

Lemma encode_char_alone b :
  encode_char (if (N_of_ascii b <? 128)%N then N_of_ascii b
               else (56320 + N_of_ascii b)%N) = String b "".
Proof.
  pose proof (N_ascii_bounded b) as Hb. unfold encode_char.
  destruct (N_of_ascii b <? 128)%N eqn:H.
  - apply N.ltb_lt in H.
    destruct ((56448 <=? N_of_ascii b)%N && (N_of_ascii b <=? 56575)%N)
      eqn:H1.
    { apply andb_true_iff in H1 as [?%N.leb_le _]. lia. }
    unfold utf8. destruct (N_of_ascii b <? 128)%N eqn:H2.
    + by rewrite byte_N_of_ascii.
    + apply N.ltb_ge in H2. lia.
  - apply N.ltb_ge in H.
    destruct ((56448 <=? 56320 + N_of_ascii b)%N
              && (56320 + N_of_ascii b <=? 56575)%N) eqn:H1.
    + replace (56320 + N_of_ascii b - 56320)%N with (N_of_ascii b) by lia.
      by rewrite byte_N_of_ascii.
    + apply andb_false_iff in H1 as [H1%N.leb_gt|H1%N.leb_gt]; lia.
Qed.

(** [encode] undoes [decode]. *)
Lemma encode_decode (s : string) : encode (decode s) = s.
Proof.
  assert (∀ n s, String.length s ≤ n → encode (decode s) = s) as H.
  2:{ by apply (H (String.length s)). }
  clear s. intros n. induction n as [|n IH]; intros s Hn.
  { destruct s; [reflexivity|simpl in Hn; lia]. }
  destruct s as [|b0 s1]; [reflexivity|]. simpl in Hn.
  assert (encode ((if (N_of_ascii b0 <? 128)%N then N_of_ascii b0
                   else (56320 + N_of_ascii b0)%N) :: decode s1)
          = String b0 s1) as Halone.
  { cbn [encode]. rewrite encode_char_alone, IH by lia. done. }
  cbn [decode]. cbv zeta.
  destruct s1 as [|b1 s2]; [exact Halone|].
  destruct (writes _ (String b0 (String b1 ""))) eqn:H2.
  { cbn [encode]. rewrite (writes_encode_char _ _ H2), IH; [done|].
    simpl in Hn. lia. }
  destruct s2 as [|b2 s3]; [exact Halone|].
  destruct (writes _ (String b0 (String b1 (String b2 "")))) eqn:H3.
  { cbn [encode]. rewrite (writes_encode_char _ _ H3), IH; [done|].
    simpl in Hn. lia. }
  destruct s3 as [|b3 s4]; [exact Halone|].
  destruct (writes _ (String b0 (String b1 (String b2 (String b3 "")))))
    eqn:H4; [|exact Halone].
  cbn [encode]. rewrite (writes_encode_char _ _ H4), IH; [done|].
  simpl in Hn. lia.
Qed.

Lemma consumed_app (w s : list N) : consumed (w ++ s) s = w.
Proof.
  unfold consumed. rewrite length_app.
  replace (length w + length s - length s) with (length w) by lia.
  apply take_app_length.
Qed.

(** ** The matcher against the words of the expression *)

Lemma or_else_Some {A} (a b : option A) x :
  or_else a b = Some x → a = Some x ∨ b = Some x.
Proof. destruct a; simpl; auto. Qed.

Lemma or_else_is_Some {A} (a b : option A) :
  is_Some a ∨ is_Some b → is_Some (or_else a b).
Proof. destruct a; simpl; [by eauto|]. by intros [[? ?]|?]. Qed.

Lemma strip_prefix_ci_sound (l s s' : list N) :
  strip_prefix_ci l s = Some s' → ∃ w, s = w ++ s' ∧ same_ci w l.
Proof.
  revert s. induction l as [|a l IH]; intros s; simpl.
  - intros [= ->]. by exists [].
  - destruct s as [|b s]; [done|]. case_decide as Hab; [|done].
    intros (w & -> & Hw)%IH. exists (b :: w). split; [done|].
    unfold same_ci in *. csimpl. by rewrite Hw, Hab.
Qed.

Lemma strip_prefix_ci_complete (l w s' : list N) :
  same_ci w l → strip_prefix_ci l (w ++ s') = Some s'.
Proof.
  unfold same_ci. revert w. induction l as [|a l IH]; intros w; simpl.
  - by destruct w.
  - destruct w as [|b w]; csimpl; [done|]. intros [= Hab Hw].
    rewrite decide_True by done. by apply IH.
Qed.

Section matcher_correct.
Context {R : Type}.
Implicit Types (k : list N → Groups → option R).

Lemma rep_word_stop p lo hi s (k : list N → option R) res :
  match lo with 0 => k s | S _ => None end = Some res →
  rep_word p lo hi s k res.
Proof.
  intros Hs. destruct lo; [|done]. exists [], s. simpl.
  split_and!; try done. intros; lia.
Qed.

Lemma rep_word_more p lo hi c s (k : list N → option R) res :
  p c = true → hi ≠ Some 0 →
  rep_word p (pred lo) (pred <$> hi) s k res →
  rep_word p lo hi (c :: s) k res.
Proof.
  intros Hc Hhi (w & s' & -> & Hall & Hlo & Hhi' & Hk).
  exists (c :: w), s'. simpl. rewrite Hc, Hall.
  split_and!; try done; [lia|].
  intros h ->. simpl in Hhi'. specialize (Hhi' _ eq_refl).
  destruct h; [done|]. simpl in Hhi'. lia.
Qed.

Lemma match_rep_sound p lo hi s (k : list N → option R) res :
  match_rep p lo hi s k = Some res → rep_word p lo hi s k res.
Proof.
  revert lo hi. induction s as [|c s IH]; intros lo hi.
  - simpl. destruct hi as [[|h]|]; apply rep_word_stop.
  - simpl. destruct hi as [[|h]|]; [apply rep_word_stop| |].
    + destruct (p c) eqn:Hc; [|apply rep_word_stop].
      intros [Hm|Hs]%or_else_Some; [|by apply rep_word_stop].
      apply rep_word_more; [done|done|]. by apply IH.
    + destruct (p c) eqn:Hc; [|apply rep_word_stop].
      intros [Hm|Hs]%or_else_Some; [|by apply rep_word_stop].
      apply rep_word_more; [done|done|]. by apply IH.
Qed.

Lemma match_rep_complete p lo hi w s' (k : list N → option R) :
  forallb p w = true → lo ≤ length w →
  (∀ h, hi = Some h → length w ≤ h) →
  is_Some (k s') → is_Some (match_rep p lo hi (w ++ s') k).
Proof.
  revert lo hi. induction w as [|c w IH]; intros lo hi Hall Hlo Hhi Hk.
  - simpl in *. assert (lo = 0) as -> by lia.
    destruct s' as [|c s']; simpl.
    + by destruct hi as [[|h]|].
    + destruct hi as [[|h]|]; [done| |].
      * destruct (p c); [|done]. apply or_else_is_Some. by right.
      * destruct (p c); [|done]. apply or_else_is_Some. by right.
  - simpl in *. apply andb_true_iff in Hall as [Hc Hall]. rewrite Hc.
    destruct hi as [[|h]|].
    + specialize (Hhi _ eq_refl). lia.
    + apply or_else_is_Some. left. apply IH; [done|lia| |done].
      simpl. intros h' [= <-]. specialize (Hhi _ eq_refl). lia.
    + apply or_else_is_Some. left. apply IH; [done|lia| |done].
      simpl. intros h' [=].
Qed.

Lemma match_re_sound r s gs k res :
  match_re r s gs k = Some res →
  ∃ w s' gs', s = w ++ s' ∧ matches r w gs gs' ∧ k s' gs' = Some res.
Proof.
  revert s gs k. induction r as [p|l|r1 IH1 r2 IH2|r1 IH1 r2 IH2|lo hi p
    |r1 IH1|i r1 IH1]; intros s gs k; simpl.
  - destruct s as [|c s]; [done|]. destruct (p c) eqn:Hc; [|done].
    intros Hk. exists [c], s, gs.
    split_and!; [done|by constructor|done].
  - destruct (strip_prefix_ci (decode l) s) as [s'|] eqn:Hl; [|done].
    apply strip_prefix_ci_sound in Hl as (w & -> & Hw).
    intros Hk. exists w, s', gs. split_and!; [done|by constructor|done].
  - intros (w1 & s1 & gs1 & -> & Hm1 & Hk1)%IH1.
    apply IH2 in Hk1 as (w2 & s2 & gs2 & -> & Hm2 & Hk2).
    exists (w1 ++ w2), s2, gs2. rewrite <-app_assoc.
    split_and!; [done|by econstructor|done].
  - intros [H|H]%or_else_Some.
    + apply IH1 in H as (w & s' & gs' & -> & Hm & Hk).
      exists w, s', gs'. split_and!; [done|by apply matches_alt_l|done].
    + apply IH2 in H as (w & s' & gs' & -> & Hm & Hk).
      exists w, s', gs'. split_and!; [done|by apply matches_alt_r|done].
  - intros (w & s' & -> & Hall & Hlo & Hhi & Hk)%match_rep_sound.
    exists w, s', gs. split_and!; [done|by constructor|done].
  - intros [H|H]%or_else_Some.
    + apply IH1 in H as (w & s' & gs' & -> & Hm & Hk).
      exists w, s', gs'. split_and!; [done|by apply matches_opt_some|done].
    + exists [], s, gs. split_and!; [done|apply matches_opt_none|done].
  - intros (w & s' & gs' & -> & Hm & Hk)%IH1.
    rewrite consumed_app in Hk.
    exists w, s', ((i, w) :: gs'). split_and!; [done|by constructor|done].
Qed.

Lemma match_re_complete r w gs gs' s' k :
  matches r w gs gs' → is_Some (k s' gs') →
  is_Some (match_re r (w ++ s') gs k).
Proof.
  intros Hm. revert s' k.
  induction Hm as [p c gs Hc|l w gs Hw|r1 r2 w1 w2 gs gs1 gs2 _ IH1 _ IH2
    |r1 r2 w gs gs' _ IH|r1 r2 w gs gs' _ IH|lo hi p w gs Hall Hlo Hhi
    |r w gs gs' _ IH|r gs|i r w gs gs' _ IH]; intros s' k Hk; simpl.
  - by rewrite Hc.
  - by rewrite (strip_prefix_ci_complete (decode l) w s' Hw).
  - rewrite <-app_assoc. apply IH1. by apply IH2.
  - apply or_else_is_Some. left. by apply IH.
  - apply or_else_is_Some. right. by apply IH.
  - by apply match_rep_complete.
  - apply or_else_is_Some. left. by apply IH.
  - apply or_else_is_Some. by right.
  - apply IH. by rewrite consumed_app.
Qed.
End matcher_correct.

(** [re.search] finds a match exactly when some part of the text is a word
    of the expression; the groups it reports are those of a word that
    starts at the leftmost position where one starts. *)
Lemma re_search_from_unfold r s :
  re_search_from r s
  = or_else (match_re r s [] search_end)
            match s with
            | [] => None
            | _ :: s' => re_search_from r s'
            end.
Proof. by destruct s. Qed.

Lemma re_search_complete r s pre w post gs :
  s = pre ++ w ++ post → matches r w [] gs → is_Some (re_search_from r s).
Proof.
  intros -> Hm. induction pre as [|c pre IH]; simpl.
  - rewrite re_search_from_unfold. apply or_else_is_Some. left.
    by eapply match_re_complete.
  - apply or_else_is_Some. by right.
Qed.

Lemma re_search_sound r s gs :
  re_search_from r s = Some gs →
  ∃ pre rest,
    s = pre ++ rest ∧
    match_re r rest [] search_end = Some gs ∧
    ∀ pre' w' post' gs',
      s = pre' ++ w' ++ post' → matches r w' [] gs' →
      length pre ≤ length pre'.
Proof.
  induction s as [|c s IH]; simpl.
  - intros [H|H]%or_else_Some; [|done].
    exists [], []. split_and!; [done|done|]. simpl. intros; lia.
  - intros Hs.
    destruct (match_re r (c :: s) [] search_end) as [gs0|] eqn:H0;
      simpl in Hs.
    + injection Hs as ->. exists [], (c :: s).
      split_and!; [done|done|]. simpl. intros; lia.
    + apply IH in Hs as (pre & rest & -> & Hm & Hleft).
      exists (c :: pre), rest. split_and!; [done|done|].
      intros pre' w' post' gs' Heq Hw. destruct pre' as [|c' pre'].
      * simpl in Heq. assert (is_Some (match_re r (w' ++ post') []
                                         search_end)) as [x Hx].
        { by eapply match_re_complete. }
        rewrite <-Heq in Hx. congruence.
      * simpl in Heq. injection Heq as <- Heq. simpl.
        pose proof (Hleft _ _ _ _ Heq Hw). lia.
Qed.

(** ** The date pattern *)

Lemma skip_class_spec p s :
  ∃ ws, s = ws ++ skip_class p s ∧ forallb p ws = true.
Proof.
  induction s as [|c s (ws & Hs & Hws)]; simpl.
  - by exists [].
  - destruct (p c) eqn:Hc.
    + exists (c :: ws). simpl. rewrite Hc, Hws. split; [|done].
      by rewrite <-Hs.
    + by exists [].
Qed.

Lemma skip_class_app p ws s :
  forallb p ws = true → skip_class p (ws ++ s) = skip_class p s.
Proof.
  induction ws as [|c ws IH]; simpl; [done|].
  intros [Hc Hws]%andb_true_iff. rewrite Hc. by apply IH.
Qed.

(** No digit is white space. *)
Lemma digit_not_space c : re_digit c = true → re_space c = false.
Proof.
  unfold re_digit. intros (zero & Hz & Hc)%existsb_exists.
  apply andb_true_iff in Hc as [H1%N.leb_le H2%N.ltb_lt].
  unfold re_space, space_ranges. cbn [existsb fst snd].
  rewrite !orb_false_iff, !andb_false_iff, !N.leb_gt.
  unfold digit_zeros in Hz. cbn [In] in Hz.
  repeat (destruct Hz as [<-|Hz]; [split_and!; try done; lia|]).
  done.
Qed.

(** White space is no letter: the folding leaves it. *)
Lemma space_fold_case c : re_space c = true → fold_case c = c.
Proof.
  unfold re_space, space_ranges, fold_case. cbn [existsb fst snd].
  rewrite !orb_true_iff, !andb_true_iff, !N.leb_le. intros H.
  repeat match goal with
  | |- context [if ?b then _ else _] => destruct b eqn:?
  end; try done; exfalso;
    rewrite ?orb_true_iff, ?andb_true_iff, ?N.leb_le, ?N.eqb_eq in *; lia.
Qed.

Lemma skip_year y rest :
  is_year y → skip_class re_space (y ++ rest) = y ++ rest.
Proof.
  intros [Hd Hl]. destruct y as [|c y]; [done|]. simpl in *.
  apply andb_true_iff in Hd as [Hc _]. by rewrite (digit_not_space c Hc).
Qed.

Lemma year_follows_skip s :
  year_follows s ↔ year_first (skip_class re_space s).
Proof.
  split.
  - intros (ws & y & rest & -> & Hws & Hy). exists y, rest.
    split; [|done]. rewrite skip_class_app by done. by apply skip_year.
  - intros (y & rest & Hs & Hy).
    destruct (skip_class_spec re_space s) as (ws & Heq & Hws).
    exists ws, y, rest. by rewrite <-Hs.
Qed.

Lemma match_rep_total {R} p s (k : list N → option R) :
  (∀ s', is_Some (k s')) → match_rep p 0 None s k = k (skip_class p s).
Proof.
  intros Hk. induction s as [|c s IH]; simpl; [done|].
  destruct (p c); [|done]. rewrite IH.
  by destruct (Hk (skip_class p s)) as [x ->].
Qed.

Lemma match_re_seq {R} r1 r2 s gs (k : list N → Groups → option R) :
  match_re (Seq r1 r2) s gs k
  = match_re r1 s gs (λ s' gs', match_re r2 s' gs' k).
Proof. done. Qed.

Lemma matches_months w gs gs' :
  matches months_re w gs gs' → gs' = gs ∧ is_month_name w.
Proof.
  unfold months_re. intros H.
  repeat match goal with
  | H : matches (Alt _ _) _ _ _ |- _ => inversion H; subst; clear H
  end;
  match goal with
  | H : matches (Lit ?l) _ _ _ |- _ =>
      inversion H; subst; split; [done|]; exists l; split; [|done];
      unfold month_names; set_solver
  end.
Qed.

Lemma months_matches w gs : is_month_name w → matches months_re w gs gs.
Proof.
  intros (n & Hn & Hw). unfold month_names in Hn. unfold months_re.
  repeat (apply elem_of_cons in Hn as [->|Hn];
          [repeat first [ by apply matches_lit
                        | by apply matches_alt_l, matches_lit
                        | apply matches_alt_r ]|]).
  by apply elem_of_nil in Hn.
Qed.

(** What a match of the pattern at the head of [s] reports. *)
Lemma match_date_re s gs :
  match_re date_re s [] search_end = Some gs →
  ∃ d ws1 m rest,
    s = d ++ ws1 ++ m ++ rest ∧
    is_day d ∧ forallb re_space ws1 = true ∧ 1 ≤ length ws1 ∧
    is_month_name m ∧
    ((∃ y post, skip_class re_space rest = y ++ post ∧ is_year y ∧
                gs = [(3, y); (2, m); (1, d)])
     ∨ (¬ year_first (skip_class re_space rest) ∧ gs = [(2, m); (1, d)])).
Proof.
  unfold date_re. rewrite match_re_seq.
  intros (d & s1 & gs1 & -> & Hd & H)%match_re_sound.
  rewrite match_re_seq in H.
  apply match_re_sound in H as (ws1 & s2 & gs2 & -> & Hws1 & H).
  rewrite match_re_seq in H.
  apply match_re_sound in H as (m & s3 & gs3 & -> & Hm & H).
  inversion Hd as [| | | | | | | |? ? ? ? ? Hd']; subst.
  inversion Hd' as [| | | | |? ? ? ? ? Hdall Hdlo Hdhi| | |]; subst.
  inversion Hws1 as [| | | | |? ? ? ? ? Hwall Hwlo _| | |]; subst.
  inversion Hm as [| | | | | | | |? ? ? ? ? Hm']; subst.
  apply matches_months in Hm' as [-> Hmonth].
  exists d, ws1, m, s3. split_and!; try done.
  { split; [done|]. specialize (Hdhi _ eq_refl). lia. }
  rewrite match_re_seq in H. change (match_re (Rep 0 None re_space) s3
    [(2, m); (1, d)] ?k) with (match_rep re_space 0 None s3
      (λ s', k s' [(2, m); (1, d)])) in H.
  rewrite match_rep_total in H.
  2:{ intros s'. simpl. apply or_else_is_Some. right. by eexists. }
  cbv beta in H.
  change (match_re (Opt ?r) ?s0 ?g ?k)
    with (or_else (match_re r s0 g k) (k s0 g)) in H.
  destruct (match_re (Group 3 (Rep 4 (Some 4) re_digit))
              (skip_class re_space s3)
              [(2, m); (1, d)] search_end) as [gs0|] eqn:Hy; simpl in H.
  - injection H as ->. left.
    apply match_re_sound in Hy as (y & post & gs' & Hs & Hy & [= <-]).
    inversion Hy as [| | | | | | | |? ? ? ? ? Hy']; subst.
    inversion Hy' as [| | | | |? ? ? ? ? Hyall Hylo Hyhi| | |]; subst.
    exists y, post. split_and!; [done| |done].
    split; [done|]. specialize (Hyhi _ eq_refl). lia.
  - injection H as <-. right. split; [|done].
    intros (y & post & Hs & Hyall & Hylen).
    assert (is_Some (match_re (Group 3 (Rep 4 (Some 4) re_digit))
                       (y ++ post) [(2, m); (1, d)] search_end)) as [x Hx].
    { eapply match_re_complete; [|by eexists].
      apply matches_group, matches_rep; [done|lia|]. intros h [= <-]. lia. }
    rewrite <-Hs in Hx. congruence.
Qed.

Lemma date_re_word d ws1 m :
  is_day d → forallb re_space ws1 = true → 1 ≤ length ws1 →
  is_month_name m →
  matches date_re (d ++ ws1 ++ m) [] [(2, m); (1, d)].
Proof.
  intros [Hd Hdl] Hws Hwl Hm.
  replace (d ++ ws1 ++ m) with (d ++ ws1 ++ m ++ [] ++ []).
  2:{ by rewrite !app_nil_r. }
  unfold date_re. apply matches_seq with (gs1 := [(1, d)]).
  { apply matches_group, matches_rep; [done|lia|]. intros h [= <-]. lia. }
  apply matches_seq with (gs1 := [(1, d)]).
  { apply matches_rep; [done|done|done]. }
  apply matches_seq with (gs1 := [(2, m); (1, d)]).
  { by apply matches_group, months_matches. }
  apply matches_seq with (gs1 := [(2, m); (1, d)]).
  { apply matches_rep; [done|simpl; lia|done]. }
  apply matches_opt_none.
Qed.

(** The search finds nothing exactly in the headings without a date. *)
Lemma re_search_date_None t :
  re_search date_re t = None ↔ ¬ has_date (decode t).
Proof.
  unfold re_search. split.
  - intros Hnone (pre & d & ws1 & m & rest & Ht & Hd & Hws & Hwl & Hm).
    assert (is_Some (re_search_from date_re (decode t)))
      as [x Hx]; [|congruence].
    eapply (re_search_complete _ _ pre (d ++ ws1 ++ m) rest).
    + by rewrite Ht, <-!app_assoc.
    + by apply date_re_word.
  - intros Hno.
    destruct (re_search_from date_re (decode t)) as [gs|] eqn:Hs; [|done].
    exfalso. apply Hno.
    apply re_search_sound in Hs as (pre & s & -> & Hm & _).
    apply match_date_re in Hm as (d & ws1 & m & rest & -> & ? & ? & ? & ? & _).
    by exists pre, d, ws1, m, rest.
Qed.

(** What the search finds: the leftmost date of the heading, its day in
    group 1, its month in group 2, and in group 3 its year if it has one. *)
Lemma re_search_date_Some t gs :
  re_search date_re t = Some gs →
  ∃ pre d m y,
    date_at (decode t) pre d m y ∧
    (∀ pre' d' m' y', date_at (decode t) pre' d' m' y' →
                      length pre ≤ length pre') ∧
    group 1 gs = Some (encode d) ∧ group 2 gs = Some (encode m) ∧
    group 3 gs = encode <$> y.
Proof.
  unfold re_search.
  intros (pre & s & Ht & Hm & Hleft)%re_search_sound. rewrite Ht.
  apply match_date_re in Hm
    as (d & ws1 & m & rest & -> & Hd & Hws & Hwl & Hmonth & Hy).
  assert (∀ pre' d' m' y',
    date_at (pre ++ d ++ ws1 ++ m ++ rest) pre' d' m' y' →
    length pre ≤ length pre') as Hleft'.
  { intros pre' d' m' y' (ws' & rest' & Heq & Hd' & Hws' & Hwl' & Hm' & _).
    eapply (Hleft pre' (d' ++ ws' ++ m') rest').
    - by rewrite Ht, Heq, <-!app_assoc.
    - by apply date_re_word. }
  destruct Hy as [(y & post & Hs & Hy & ->)|[Hno ->]].
  - exists pre, d, m, (Some y). split_and!; try done.
    exists ws1, rest. split_and!; try done.
    destruct (skip_class_spec re_space rest) as (ws2 & Hrest & Hws2).
    exists ws2, post. by rewrite <-Hs.
  - exists pre, d, m, None. split_and!; try done.
    exists ws1, rest. split_and!; try done.
    by rewrite year_follows_skip.
Qed.

(** ** The date at a position is one *)

Lemma list_app_split {A} (a b x y : list A) :
  a ++ x = b ++ y → length a ≤ length b →
  ∃ z, b = a ++ z ∧ x = z ++ y.
Proof.
  revert b. induction a as [|c a IH]; intros b; simpl.
  - intros -> _. by exists b.
  - destruct b as [|c' b]; simpl; [lia|]. intros [= <- Heq] Hlen.
    destruct (IH b Heq) as (z & -> & ->); [lia|]. by exists z.
Qed.

Lemma list_app_same_length {A} (a b x y : list A) :
  a ++ x = b ++ y → length a = length b → a = b ∧ x = y.
Proof. intros Heq Hlen. by apply app_inj_1. Qed.

(** A month name starts with a character that is not white space. *)
Lemma month_name_head m :
  is_month_name m → ∃ c m', m = c :: m' ∧ re_space c = false.
Proof.
  intros (n & Hn & Hm). destruct m as [|c m'].
  { unfold month_names in Hn.
    repeat (apply elem_of_cons in Hn as [->|Hn]; [done|]).
    by apply elem_of_nil in Hn. }
  exists c, m'. split; [done|].
  destruct (re_space c) eqn:Hc; [|done]. exfalso.
  unfold same_ci in Hm. csimpl in Hm. rewrite (space_fold_case c Hc) in Hm.
  unfold month_names in Hn.
  repeat (apply elem_of_cons in Hn as [->|Hn];
          [vm_compute in Hm; injection Hm as -> _; done|]).
  by apply elem_of_nil in Hn.
Qed.

Lemma skip_month ws m rest :
  forallb re_space ws = true → is_month_name m →
  skip_class re_space (ws ++ m ++ rest) = m ++ rest.
Proof.
  intros Hws (c & m' & -> & Hc)%month_name_head.
  rewrite skip_class_app by done. simpl. by rewrite Hc.
Qed.

(** No month name starts another. *)
Lemma month_names_prefix n n' z :
  n ∈ month_names → n' ∈ month_names →
  fold_case <$> decode n' = (fold_case <$> decode n) ++ z → n = n'.
Proof.
  unfold month_names. intros Hn Hn' Heq.
  repeat (apply elem_of_cons in Hn as [->|Hn]);
    try (by apply elem_of_nil in Hn);
    repeat (apply elem_of_cons in Hn' as [->|Hn']);
    try (by apply elem_of_nil in Hn'); try reflexivity;
    exfalso; vm_compute in Heq; congruence.
Qed.

Lemma day_length d d' ws ws' x y :
  is_day d → is_day d' →
  forallb re_space ws = true → 1 ≤ length ws →
  forallb re_space ws' = true → 1 ≤ length ws' →
  d ++ ws ++ x = d' ++ ws' ++ y →
  length d = length d'.
Proof.
  assert (∀ d d' ws ws' x y,
    is_day d → is_day d' → forallb re_space ws = true → 1 ≤ length ws →
    d ++ ws ++ x = d' ++ ws' ++ y → length d ≤ length d' →
    length d = length d') as Hle.
  { clear. intros d d' ws ws' x y [Hd Hdl] [Hd' Hdl'] Hws Hwl Heq Hle.
    destruct (list_app_split _ _ _ _ Heq Hle) as (z & -> & Hz).
    destruct z as [|c z]; [by rewrite app_nil_r|]. exfalso.
    rewrite forallb_app in Hd'. apply andb_true_iff in Hd' as [_ Hz'].
    simpl in Hz'. apply andb_true_iff in Hz' as [Hc _].
    destruct ws as [|c' ws]; simpl in *; [lia|].
    injection Hz as ->. apply andb_true_iff in Hws as [Hws _].
    rewrite (digit_not_space c Hc) in Hws. done. }
  intros Hd Hd' Hws Hwl Hws' Hwl' Heq.
  destruct (decide (length d ≤ length d')) as [Hl|Hl].
  - by apply (Hle d d' ws ws' x y).
  - symmetry. symmetry in Heq. apply (Hle d' d ws' ws y x); [done..|lia].
Qed.

Lemma month_same m m' x y :
  is_month_name m → is_month_name m' → m ++ x = m' ++ y →
  m = m' ∧ x = y.
Proof.
  assert (∀ m m' x y, is_month_name m → is_month_name m' →
            m ++ x = m' ++ y → length m ≤ length m' →
            m = m' ∧ x = y) as Hle.
  { clear. intros m m' x y (n & Hn & Hm) (n' & Hn' & Hm') Heq Hlen.
    destruct (list_app_split _ _ _ _ Heq Hlen) as (z & -> & ->).
    unfold same_ci in Hm, Hm'. rewrite fmap_app, Hm in Hm'. symmetry in Hm'.
    pose proof (month_names_prefix n n' (fold_case <$> z) Hn Hn' Hm') as ->.
    apply (f_equal length) in Hm'.
    rewrite length_app, !length_fmap in Hm'.
    destruct z; simpl in Hm'; [|lia]. by rewrite !app_nil_r. }
  intros Hm Hm' Heq.
  destruct (decide (length m ≤ length m')) as [Hl|Hl].
  - by apply Hle.
  - symmetry in Heq. destruct (Hle m' m y x) as [-> ->]; try done. lia.
Qed.

Lemma year_first_same y1 y2 p1 p2 :
  is_year y1 → is_year y2 → y1 ++ p1 = y2 ++ p2 → y1 = y2.
Proof.
  intros [_ H1] [_ H2] Heq.
  destruct (list_app_same_length _ _ _ _ Heq) as [-> _]; [lia|done].
Qed.

(** The day, the month and the year of the date at a position. *)
Lemma date_at_unique t pre d m y d' m' y' :
  date_at t pre d m y → date_at t pre d' m' y' →
  d = d' ∧ m = m' ∧ y = y'.
Proof.
  intros (ws & rest & Ht & Hd & Hws & Hwl & Hm & Hy)
         (ws' & rest' & Ht' & Hd' & Hws' & Hwl' & Hm' & Hy').
  rewrite Ht in Ht'. apply (inj (app pre)) in Ht'.
  pose proof (day_length _ _ _ _ _ _ Hd Hd' Hws Hwl Hws' Hwl' Ht') as Hlen.
  destruct (list_app_same_length _ _ _ _ Ht' Hlen) as [<- Hrest].
  assert (m ++ rest = m' ++ rest') as Hmr.
  { rewrite <-(skip_month ws m rest), <-(skip_month ws' m' rest') by done.
    by rewrite Hrest. }
  destruct (month_same _ _ _ _ Hm Hm' Hmr) as [<- <-].
  split_and!; [done|done|].
  destruct y as [y1|], y' as [y2|]; [|exfalso..|done].
  - destruct Hy as (w1 & p1 & Hr1 & Hw1 & Hy1).
    destruct Hy' as (w2 & p2 & Hr2 & Hw2 & Hy2). f_equal.
    apply (year_first_same y1 y2 p1 p2); [done|done|].
    assert (skip_class re_space rest = y1 ++ p1) as E1.
    { rewrite Hr1, skip_class_app by done. by apply skip_year. }
    assert (skip_class re_space rest = y2 ++ p2) as E2.
    { rewrite Hr2, skip_class_app by done. by apply skip_year. }
    by rewrite <-E1, <-E2.
  - destruct Hy as (w1 & p1 & Hr1 & Hw1 & Hy1). apply Hy'.
    by exists w1, y1, p1.
  - destruct Hy' as (w2 & p2 & Hr2 & Hw2 & Hy2). apply Hy.
    by exists w2, y2, p2.
Qed.

(** The bytes of a character are at least one, so those of a year are
    not the empty string, which [or] would pass over. *)
Lemma encode_char_not_empty c : encode_char c ≠ "".
Proof.
  unfold encode_char, utf8. by repeat case_match.
Qed.

Lemma year_encode_not_empty y : is_year y → encode y ≠ "".
Proof.
  intros [_ Hl]. destruct y as [|c y]; [done|]. simpl.
  pose proof (encode_char_not_empty c). by destruct (encode_char c).
Qed.

(** The pieces of a date of the heading are pieces of its bytes. *)
Lemma date_at_bytes t pre d m y :
  date_at (decode t) pre d m y →
  ∃ ws1 rest,
    t = encode pre +:+ encode d +:+ encode ws1 +:+ encode m +:+ encode rest.
Proof.
  intros (ws1 & rest & Ht & _). exists ws1, rest.
  rewrite <-!encode_app, <-Ht. symmetry. apply encode_decode.
Qed.

(** ** The body of the scraping loop *)

Lemma str_or_dash (a b c : string) :
  str_or (Some (a +:+ String "-" b)) c = a +:+ String "-" b.
Proof. by destruct a. Qed.

(** The fields of an appended event in terms of its heading. *)
Lemma parse_article_Append year article e :
  parse_article year article = Append e →
  ∃ t target,
    title_elem article = Some t ∧
    contains "free" (lower t) = true ∧ contains "lego" (lower t) = true ∧
    first_href article = Ok target ∧
    title e = t ∧ url e = target ∧
    store e = (if contains "smyths" (lower t) then "Smyths Toys"
               else if contains "john lewis" (lower t) then "John Lewis"
               else "LEGO Store") ∧
    location e = city_loop cities t
                   (if contains "smyths" (lower t) then "UK Smyths Stores"
                    else "UK") ∧
    (∀ gs, re_search date_re t = Some gs →
       date e = str_or (group 3 gs) (str year) +:+ "-" +:+
                default "" (group 2 gs) +:+ "-" +:+ default "" (group 1 gs) ∧
       date_display e = date e) ∧
    (re_search date_re t = None →
       date e = "TBA" ∧ date_display e = "待公布") ∧
    description e = "查看連結了解活動詳情" ∧ source e = "auto_scrape" ∧
    id_ e = None ∧ created_at e = None.
Proof.
  unfold parse_article. destruct (title_elem article) as [t|]; [|done].
  destruct (contains "free" (lower t)) eqn:Hfree; [|done].
  destruct (contains "lego" (lower t)) eqn:Hlego; [|done].
  simpl negb. simpl orb. cbv iota.
  destruct (first_href article) as [|target] eqn:Hhref.
  { by destruct (contains "smyths" (lower t)),
       (contains "john lewis" (lower t)). }
  intros He. exists t, target.
  destruct (contains "smyths" (lower t)),
    (contains "john lewis" (lower t)); injection He as <-;
    cbn [title url store location date date_display description source
         id_ created_at];
    (split_and!; try done;
     [ intros gs Hgs; rewrite Hgs, !str_or_dash; split; reflexivity
     | intros Hgs; rewrite Hgs; split; reflexivity ]).
Qed.

Lemma city_loop_found cs l1 city l2 t loc :
  cs = l1 ++ city :: l2 → occurs_ci city t →
  (∀ c, c ∈ l1 → ¬ occurs_ci c t) → city_loop cs t loc = city.
Proof.
  intros -> Hcity Hnone. induction l1 as [|c l1 IH]; simpl.
  - apply contains_lower_spec in Hcity. by rewrite Hcity.
  - destruct (contains (lower c) (lower t)) eqn:Hc.
    + apply contains_lower_spec in Hc. exfalso. eapply Hnone; [|done].
      apply list_elem_of_here.
    + apply IH. intros c' Hc'. apply Hnone. by apply list_elem_of_further.
Qed.

Lemma city_loop_none cs t loc :
  (∀ c, c ∈ cs → ¬ occurs_ci c t) → city_loop cs t loc = loc.
Proof.
  induction cs as [|c cs IH]; intros Hnone; simpl; [done|].
  destruct (contains (lower c) (lower t)) eqn:Hc.
  - apply contains_lower_spec in Hc. exfalso. eapply Hnone; [|done].
    apply list_elem_of_here.
  - apply IH. intros c' Hc'. apply Hnone. by apply list_elem_of_further.
Qed.

Lemma contains_occurs_true sub t :
  lower sub = sub → contains sub (lower t) = true ↔ occurs_ci sub t.
Proof. intros Hsub. rewrite <-contains_lower_spec. by rewrite Hsub. Qed.

Lemma contains_occurs_false sub t :
  lower sub = sub → contains sub (lower t) = false ↔ ¬ occurs_ci sub t.
Proof.
  intros Hsub. rewrite <-contains_lower_spec, Hsub.
  by destruct (contains sub (lower t)).
Qed.

(** C6: a candidate whose heading contains a date has as its date the
    year, the month and the day of the leftmost date of the heading as
    they are written, joined by hyphens, with the current year where that
    date has no year, and the same text as its display; a candidate whose
    heading contains no date has the date "TBA" and the pending label as
    its display.  The heading is read as its characters, and a date in it
    is a day, white space and the name of a month as [re] takes them:
    the digits and the white space of Unicode, the name in any case. *)
Theorem date_synthesis year article e :
  parse_article year article = Append e →
  (∀ pre d m y,
     date_at (decode (title e)) pre d m y →
     (∀ pre' d' m' y', date_at (decode (title e)) pre' d' m' y' →
                       length pre ≤ length pre') →
     date e = default (str year) (encode <$> y) +:+ "-" +:+ encode m
              +:+ "-" +:+ encode d ∧
     date_display e = date e) ∧
  (has_date (decode (title e)) →
     ∃ pre d m y,
       date_at (decode (title e)) pre d m y ∧
       ∀ pre' d' m' y', date_at (decode (title e)) pre' d' m' y' →
                        length pre ≤ length pre') ∧
  (¬ has_date (decode (title e)) →
     date e = "TBA" ∧ date_display e = "待公布").
Proof.
  intros (t & target & _ & _ & _ & _ & <- & _ & _ & _ & Hsome & Hnone & _)
    %parse_article_Append.
  assert (has_date (decode (title e)) →
    ∃ pre d m y,
      date_at (decode (title e)) pre d m y ∧
      (∀ pre' d' m' y', date_at (decode (title e)) pre' d' m' y' →
                        length pre ≤ length pre') ∧
      date e = default (str year) (encode <$> y) +:+ "-" +:+ encode m
               +:+ "-" +:+ encode d ∧
      date_display e = date e) as Hfound.
  { intros Hdate. destruct (re_search date_re (title e)) as [gs|] eqn:Hs.
    2:{ by apply re_search_date_None in Hs. }
    destruct (Hsome gs eq_refl) as [Hd Hdd].
    apply re_search_date_Some in Hs
      as (pre & d & m & y & Hat & Hleft & H1 & H2 & H3).
    exists pre, d, m, y. split_and!; try done.
    rewrite Hd, H1, H2, H3. simpl. f_equal.
    destruct y as [y|]; [|done].
    destruct Hat as (? & ? & _ & _ & _ & _ & _ & ? & ? & _ & _ & Hy).
    simpl. pose proof (year_encode_not_empty y Hy).
    by destruct (encode y). }
  split_and!.
  - intros pre d m y Hat Hleft.
    destruct Hfound as (pre0 & d0 & m0 & y0 & Hat0 & Hleft0 & Hd & Hdd).
    { destruct Hat as (ws & rest & ? & ? & ? & ? & ? & _).
      by exists pre, d, ws, m, rest. }
    assert (pre0 = pre) as ->.
    { pose proof (Hleft _ _ _ _ Hat0). pose proof (Hleft0 _ _ _ _ Hat).
      destruct Hat as (? & ? & Ht & _), Hat0 as (? & ? & Ht0 & _).
      rewrite Ht in Ht0.
      destruct (list_app_same_length _ _ _ _ Ht0) as [-> _]; [lia|done]. }
    by destruct (date_at_unique _ _ _ _ _ _ _ _ Hat Hat0) as (-> & -> & ->).
  - intros Hdate.
    destruct (Hfound Hdate) as (pre & d & m & y & ? & ? & _).
    by exists pre, d, m, y.
  - intros Hno. apply Hnone. by apply re_search_date_None.
Qed.

(** C7: the store is "Smyths Toys" where the heading has "smyths", else
    "John Lewis" where it has "john lewis", else "LEGO Store"; the location
    is the first city of the list that the heading has, whatever the store,
    and without such a city the Smyths label or "UK". *)
Theorem classification year article e :
  parse_article year article = Append e →
  (occurs_ci "smyths" (title e) → store e = "Smyths Toys") ∧
  (¬ occurs_ci "smyths" (title e) → occurs_ci "john lewis" (title e) →
   store e = "John Lewis") ∧
  (¬ occurs_ci "smyths" (title e) → ¬ occurs_ci "john lewis" (title e) →
   store e = "LEGO Store") ∧
  (∀ l1 city l2,
     ["London"; "Manchester"; "Birmingham"; "Liverpool"; "Glasgow"; "Leeds";
      "Edinburgh"] = l1 ++ city :: l2 →
     occurs_ci city (title e) → (∀ c, c ∈ l1 → ¬ occurs_ci c (title e)) →
     location e = city) ∧
  ((∀ c, c ∈ cities → ¬ occurs_ci c (title e)) →
   occurs_ci "smyths" (title e) → location e = "UK Smyths Stores") ∧
  ((∀ c, c ∈ cities → ¬ occurs_ci c (title e)) →
   ¬ occurs_ci "smyths" (title e) → location e = "UK").
Proof.
  intros (t & target & _ & _ & _ & _ & <- & _ & Hstore & Hloc & _)
    %parse_article_Append.
  split_and!.
  - intros Hs%contains_occurs_true; [|done]. by rewrite Hstore, Hs.
  - intros Hs%contains_occurs_false Hj%contains_occurs_true; [|done..].
    by rewrite Hstore, Hs, Hj.
  - intros Hs%contains_occurs_false Hj%contains_occurs_false; [|done..].
    by rewrite Hstore, Hs, Hj.
  - intros l1 city l2 Hsplit Hcity Hnone. rewrite Hloc.
    by eapply city_loop_found.
  - intros Hnone Hs%contains_occurs_true; [|done].
    rewrite Hloc, Hs. by apply city_loop_none.
  - intros Hnone Hs%contains_occurs_false; [|done].
    rewrite Hloc, Hs. by apply city_loop_none.
Qed.

Lemma foldl_scrape_round year events articles :
  foldl (scrape_round year) events articles
  = events ++ omap (block_candidate year) articles.
Proof.
  revert events. induction articles as [|a articles IH]; intros events; simpl.
  { by rewrite app_nil_r. }
  rewrite IH. unfold scrape_round, block_candidate.
  destruct (parse_article year a); simpl; [done|done|].
  by rewrite <-app_assoc.
Qed.

Lemma omap_length_le {A B} (f : A → option B) (l : list A) :
  length (omap f l) ≤ length l.
Proof.
  induction l as [|x l IH]; csimpl; [done|]. destruct (f x); csimpl; lia.
Qed.

Lemma title_elem_heading article t :
  title_elem article = Some t → t ∈ h2 article ++ h3 article.
Proof.
  unfold title_elem. destruct (h2 article) as [|h hs] eqn:H2.
  - destruct (h3 article) as [|h hs]; simpl; [done|].
    intros [= ->]. apply list_elem_of_here.
  - intros [= ->]. apply list_elem_of_here.
Qed.

(** C8: the result lists, in the order of the blocks, the candidates of
    the first five blocks that yield one, and a block yields a candidate
    only from a heading of level 2 or 3 that has both "free" and "lego". *)
Theorem scrape_first_five year articles :
  scrape_lego_news year (Response 200 articles)
  = omap (block_candidate year) (take 5 articles) ∧
  length (scrape_lego_news year (Response 200 articles)) ≤ 5 ∧
  ∀ article e,
    block_candidate year article = Some e →
    ∃ h, h ∈ h2 article ++ h3 article ∧ title e = h ∧
         occurs_ci "free" h ∧ occurs_ci "lego" h.
Proof.
  assert (scrape_lego_news year (Response 200 articles)
          = omap (block_candidate year) (take 5 articles)) as Heq.
  { unfold scrape_lego_news. by rewrite foldl_scrape_round. }
  split_and!; [done| |].
  - rewrite Heq. etrans; [apply omap_length_le|]. rewrite length_take. lia.
  - intros article e. unfold block_candidate.
    destruct (parse_article year article) as [| |e'] eqn:Hp; [done|done|].
    intros [= ->].
    apply parse_article_Append in Hp
      as (t & target & Ht & Hfree & Hlego & _ & <- & _).
    exists (title e). split_and!; [by apply title_elem_heading|done| |].
    + by apply (contains_occurs_true "free").
    + by apply (contains_occurs_true "lego").
Qed.

Lemma parse_article_passing year article t :
  title_elem article = Some t → occurs_ci "free" t → occurs_ci "lego" t →
  match first_href article with
  | Ok target => ∃ e, parse_article year article = Append e ∧ url e = target
  | Raise _ => parse_article year article = Except
  end.
Proof.
  intros Ht Hfree%(contains_occurs_true "free") Hlego%(contains_occurs_true "lego");
    [|done..].
  unfold parse_article. rewrite Ht, Hfree, Hlego. simpl negb. simpl orb.
  cbv iota.
  destruct (first_href article) as [|target];
    destruct (contains "smyths" (lower t)),
      (contains "john lewis" (lower t)); try done; by eexists.
Qed.

(** C9, as the code has it: a block that passes the filter yields a
    candidate whose url is the [href] of its first link when that link has
    one, and the empty string when the block has no link; when the first
    link has no [href] the block is skipped, and the loop goes on with the
    events it had. *)
Theorem url_extraction year article t :
  title_elem article = Some t → occurs_ci "free" t → occurs_ci "lego" t →
  match anchors article with
  | [] => ∃ e, parse_article year article = Append e ∧ url e = ""
  | a :: _ =>
      match href a with
      | Some target =>
          ∃ e, parse_article year article = Append e ∧ url e = target
      | None =>
          parse_article year article = Except ∧
          ∀ events, scrape_round year events article = events
      end
  end.
Proof.
  intros Ht Hfree Hlego.
  pose proof (parse_article_passing year article t Ht Hfree Hlego) as H.
  unfold first_href in H. destruct (anchors article) as [|a ?]; [done|].
  destruct (href a); [done|]. split; [done|].
  intros events. unfold scrape_round. by rewrite H.
Qed.

Lemma occurs_ci_intro sub t :
  contains (lower sub) (lower t) = true → occurs_ci sub t.
Proof. apply contains_lower_spec. Qed.

(** C9 at a block with a heading and one link to "https://example.org/a". *)
Lemma url_extraction_witness :
  ∃ e, parse_article 2026
         (mkArticle ["Free LEGO set at selected stores"] []
                    [mkAnchor (Some "https://example.org/a")]) = Append e ∧
       url e = "https://example.org/a".
Proof.
  apply (url_extraction 2026
           (mkArticle ["Free LEGO set at selected stores"] []
                      [mkAnchor (Some "https://example.org/a")])
           "Free LEGO set at selected stores").
  - reflexivity.
  - apply occurs_ci_intro. reflexivity.
  - apply occurs_ci_intro. reflexivity.
Defined.

(** C9, where the code leaves the claim: a block that passes the filter and
    whose first link has no [href] yields no candidate. *)
Lemma first_link_without_href :
  let article :=
    mkArticle ["Free LEGO set at selected stores"] []
              [mkAnchor None; mkAnchor (Some "https://example.org/a")] in
  title_elem article = Some "Free LEGO set at selected stores" ∧
  contains "free" (lower "Free LEGO set at selected stores") = true ∧
  contains "lego" (lower "Free LEGO set at selected stores") = true ∧
  anchors article ≠ [] ∧
  block_candidate 2026 article = None ∧
  scrape_lego_news 2026 (Response 200 [article]) = [].
Proof. repeat split; done. Qed.

(** C6 at the heading of the specification's example, in the year 2026. *)
Lemma date_synthesis_witness :
  let e :=
    {| title := "Get a free LEGO set this 5 December in London";
       location := "London"; date := "2026-December-5";
       date_display := "2026-December-5"; store := "LEGO Store";
       description := "查看連結了解活動詳情"; source := "auto_scrape";
       url := ""; id_ := None; created_at := None |} in
  (∀ pre d m y,
     date_at (decode (title e)) pre d m y →
     (∀ pre' d' m' y', date_at (decode (title e)) pre' d' m' y' →
                       length pre ≤ length pre') →
     date e = default (str 2026) (encode <$> y) +:+ "-" +:+ encode m
              +:+ "-" +:+ encode d ∧
     date_display e = date e) ∧
  (has_date (decode (title e)) →
     ∃ pre d m y,
       date_at (decode (title e)) pre d m y ∧
       ∀ pre' d' m' y', date_at (decode (title e)) pre' d' m' y' →
                        length pre ≤ length pre') ∧
  (¬ has_date (decode (title e)) →
     date e = "TBA" ∧ date_display e = "待公布").
Proof.
  apply (date_synthesis 2026
           (mkArticle ["Get a free LEGO set this 5 December in London"]
                      [] [])).
  reflexivity.
Defined.

(** The dates that [re] finds beyond ASCII: after a no-break space, in
    Arabic-Indic digits, and with the long s in the name of the month. *)
Lemma date_synthesis_unicode year :
  let heading (t : string) := mkArticle [t] [] [] in
  (∃ e, parse_article year
          (heading (encode (decode "Free LEGO 5" ++ [160%N]
                            ++ decode "December 2025")))
        = Append e ∧ date e = "2025-December-5") ∧
  (∃ e, parse_article year
          (heading (encode (decode "Free LEGO " ++ [1637%N]
                            ++ decode " December")))
        = Append e ∧
        date e = str year +:+ "-December-" +:+ encode [1637%N]) ∧
  (∃ e, parse_article year
          (heading (encode (decode "Free LEGO 5 Augu" ++ [383%N]
                            ++ decode "t 2025")))
        = Append e ∧
        date e = "2025-Augu" +:+ encode [383%N] +:+ "t-5").
Proof.
  intros heading. split_and!; eexists; (split; [reflexivity|]).
  - reflexivity.
  - apply (str_or_dash (str year) _ "TBA").
  - reflexivity.
Qed.

(** A heading has a date also where the day and the month are set apart
    by a no-break space. *)
Lemma has_date_no_break_space :
  has_date (decode "Free LEGO 5" ++ [160%N] ++ decode "December 2025").
Proof.
  exists (decode "Free LEGO "), [53%N], [160%N], (decode "December"),
    (decode " 2025").
  split_and!; [reflexivity|by split; [|simpl; lia]|reflexivity|simpl; lia|].
  exists "December". split; [|reflexivity].
  unfold month_names. by repeat first [apply list_elem_of_here
                                      |apply list_elem_of_further].
Qed.

(** The example of the specification, in any year. *)
Lemma date_synthesis_example year :
  ∃ e, parse_article year
         (mkArticle ["Get a free LEGO set this 5 December in London"] [] [])
       = Append e ∧
       date e = str year +:+ "-December-5" ∧ location e = "London".
Proof.
  eexists. split; [reflexivity|]. split; [|reflexivity].
  apply (str_or_dash (str year) "December-5" "TBA").
Qed.

(** C7 at a heading with "Smyths" and "Glasgow". *)
Lemma classification_witness :
  let e :=
    {| title := "Free LEGO gift at Smyths Glasgow";
       location := "Glasgow"; date := "TBA"; date_display := "待公布";
       store := "Smyths Toys";
       description := "查看連結了解活動詳情"; source := "auto_scrape";
       url := ""; id_ := None; created_at := None |} in
  (occurs_ci "smyths" (title e) → store e = "Smyths Toys") ∧
  (¬ occurs_ci "smyths" (title e) → occurs_ci "john lewis" (title e) →
   store e = "John Lewis") ∧
  (¬ occurs_ci "smyths" (title e) → ¬ occurs_ci "john lewis" (title e) →
   store e = "LEGO Store") ∧
  (∀ l1 city l2,
     ["London"; "Manchester"; "Birmingham"; "Liverpool"; "Glasgow"; "Leeds";
      "Edinburgh"] = l1 ++ city :: l2 →
     occurs_ci city (title e) → (∀ c, c ∈ l1 → ¬ occurs_ci c (title e)) →
     location e = city) ∧
  ((∀ c, c ∈ cities → ¬ occurs_ci c (title e)) →
   occurs_ci "smyths" (title e) → location e = "UK Smyths Stores") ∧
  ((∀ c, c ∈ cities → ¬ occurs_ci c (title e)) →
   ¬ occurs_ci "smyths" (title e) → location e = "UK").
Proof.
  apply (classification 2026
           (mkArticle ["Free LEGO gift at Smyths Glasgow"] [] [])).
  reflexivity.
Defined.

(** The examples of the specification for the filter and the stores. *)
Lemma relevance_examples year :
  (∃ e, block_candidate year
          (mkArticle ["Free LEGO set at selected stores"] [] []) = Some e) ∧
  block_candidate year (mkArticle ["LEGO minifigure giveaway"] [] []) = None ∧
  (∃ e, block_candidate year (mkArticle ["Free LEGO at Smyths"] [] [])
        = Some e ∧ store e = "Smyths Toys") ∧
  (∃ e, block_candidate year
          (mkArticle ["Free LEGO at Smyths in Glasgow"] [] []) = Some e ∧
        location e = "Glasgow").
Proof.
  split_and!; [by eexists|done|eexists; split; reflexivity
              |eexists; split; reflexivity].
Qed.


(** * Properties of the handlers *)

(** ** More on the merge *)

Section merge_more.
Variable titles : gset string.
Variable clock : nat → string.
Implicit Types (st : MergeState) (event : Event).

Local Abbreviation step := (merge_step titles clock).

Lemma foldl_step_keys l st :
  ∃ new_keys,
    (existing_events (foldl step st l)).*1
    = (existing_events st).*1 ++ new_keys ∧
    length new_keys + new_count st ≤ new_count (foldl step st l).
Proof.
  revert st. induction l as [|c l IH]; intros st; simpl.
  { exists []. rewrite app_nil_r. split; [done|simpl; lia]. }
  destruct (IH (step st c)) as (ks & Hks & Hlen).
  destruct (decide (title c ∈ titles)) as [Hin|Hnew].
  { rewrite merge_step_known in Hks, Hlen |- * by done. by exists ks. }
  revert Hks Hlen. rewrite merge_step_new by done. cbn zeta.
  cbn [existing_events new_count]. intros Hks Hlen.
  destruct (decide (auto_id (next_number st) ∈ (existing_events st).*1))
    as [Hold|Hfresh].
  - rewrite dict_set_keys_present in Hks by done.
    exists ks. split; [done|lia].
  - rewrite dict_set_keys_fresh in Hks by done.
    exists ([auto_id (next_number st)] ++ ks).
    split; [by rewrite Hks, <-app_assoc|]. rewrite length_app. simpl. lia.
Qed.

Lemma inserted_as_le lo lo' e c :
  lo ≤ lo' → inserted_as lo' e c → inserted_as lo e c.
Proof. intros Hle (n & t & Hn & ->). exists n, t. split; [lia|done]. Qed.

Lemma foldl_step_added l st :
  ∃ added,
    broadcast (foldl step st l) = broadcast st ++ added ∧
    Forall2 (inserted_as (next_number st)) added
            (filter (λ c, title c ∉ titles) l).
Proof.
  revert st. induction l as [|c l IH]; intros st; simpl.
  { exists []. rewrite app_nil_r. split; [done|constructor]. }
  destruct (IH (step st c)) as (added & Hb & Hall).
  destruct (decide (title c ∈ titles)) as [Hin|Hnew].
  { rewrite filter_cons_False by (by intros ?).
    rewrite merge_step_known in Hb, Hall |- * by done. by exists added. }
  rewrite filter_cons_True by done.
  pose proof (merge_step_next_number titles clock st c) as Hle.
  revert Hb Hall Hle. rewrite merge_step_new by done. cbn zeta.
  cbn [broadcast]. intros Hb Hall Hle.
  exists (set_id_created c (auto_id (next_number st)) (clock (new_count st))
          :: added).
  split; [by rewrite Hb, <-app_assoc|]. constructor.
  - exists (next_number st), (clock (new_count st)). split; [lia|done].
  - eapply Forall2_impl; [exact Hall|]. intros e c'.
    by apply inserted_as_le.
Qed.

(** Without a clash the keys grow by the identifiers [lo], [lo + 2],
    ... *)
Lemma foldl_step_gap_keys lo keys l st :
  gap_ok lo st →
  (existing_events st).*1
  = keys ++ ((λ k, auto_id (lo + 2 * k)) <$> seq 0 (new_count st)) →
  (existing_events (foldl step st l)).*1
  = keys ++ ((λ k, auto_id (lo + 2 * k))
             <$> seq 0 (new_count (foldl step st l))).
Proof.
  revert st. induction l as [|c l IH]; intros st Hok Hkeys; simpl; [done|].
  apply IH; [by apply merge_step_gap_ok|].
  destruct (decide (title c ∈ titles)) as [Hin|Hnew].
  { by rewrite merge_step_known. }
  destruct Hok as (Hfree & _ & Hnext & _).
  rewrite merge_step_new by done. cbn zeta. cbn [existing_events new_count].
  rewrite dict_set_keys_fresh.
  - rewrite Hkeys, Nat.add_1_r, seq_S, fmap_app, app_assoc. simpl.
    by rewrite Hnext.
  - intros Hin. by eapply (Hfree _ (next_number st)).
Qed.
End merge_more.

Lemma merge_added_count clock stored l :
  new_count (merge_loop clock stored l)
  = length (broadcast (merge_loop clock stored l)).
Proof. rewrite merge_loop_unfold. by apply foldl_step_count. Qed.

(** X1: a merge deletes no key of the catalog and moves none: the keys
    afterwards are the keys before, in their order, followed by at most one
    new key for each event added.  The catalog never shrinks. *)
Theorem merge_keeps_keys clock stored l :
  let catalog := (auto_scrape_task clock stored l).1 in
  let added := (auto_scrape_task clock stored l).2 in
  ∃ new_keys,
    catalog.*1 = stored.*1 ++ new_keys ∧
    length new_keys ≤ length added ∧
    length stored ≤ length catalog ≤ length stored + length added.
Proof.
  cbv zeta. rewrite auto_scrape_task_loop. cbn [fst snd].
  rewrite <-merge_added_count. rewrite merge_loop_unfold.
  destruct (foldl_step_keys (existing_titles stored) clock l
              (merge_init stored)) as (ks & Hks & Hlen).
  cbn [merge_init existing_events new_count] in Hks, Hlen.
  exists ks. split; [done|]. split; [lia|].
  apply (f_equal length) in Hks. rewrite length_app, !length_fmap in Hks.
  lia.
Qed.

(** X2: the events added by a merge are the candidates with a title that
    the stored catalog does not have, in the order of the candidates, each
    with an identifier above the size of the stored catalog and a time
    stamp; nothing else of a candidate is changed. *)
Theorem merge_added_are_candidates clock stored l :
  Forall2 (inserted_as (length stored + 1))
          (auto_scrape_task clock stored l).2 (unknown stored l).
Proof.
  rewrite auto_scrape_task_loop. cbn [snd]. rewrite merge_loop_unfold.
  destruct (foldl_step_added (existing_titles stored) clock l
              (merge_init stored)) as (added & -> & Hall).
  cbn [merge_init broadcast]. rewrite app_nil_l.
  unfold next_number in Hall. cbn [merge_init existing_events new_count] in Hall.
  by rewrite Nat.add_0_r in Hall.
Qed.

(** X3: when every candidate has the title of an event of the catalog,
    the merge leaves the catalog as it is and adds nothing. *)
Theorem merge_known_candidates clock stored l :
  Forall (λ c, title c ∈ title <$> dict_values stored) l →
  auto_scrape_task clock stored l = (stored, []).
Proof.
  intros Hall. rewrite auto_scrape_task_loop, merge_loop_unfold.
  rewrite foldl_step_all_known; [done|].
  eapply Forall_impl; [exact Hall|]. intros c Hc.
  unfold existing_titles. by apply elem_of_list_to_set.
Qed.

(** X3 at a catalog of one event and a candidate with its title. *)
Lemma merge_known_candidates_witness :
  auto_scrape_task (λ _, "2026-01-01T00:00:00")
    [("auto_1", dated_event "TBA")]
    [candidate "Free LEGO set at selected stores"]
  = ([("auto_1", dated_event "TBA")], []).
Proof.
  apply (merge_known_candidates (λ _, "2026-01-01T00:00:00")
           [("auto_1", dated_event "TBA")]
           [candidate "Free LEGO set at selected stores"]).
  repeat constructor.
Defined.

(** X4: within one call the identifiers of the added events strictly
    increase, each lies above the size of the stored catalog, and every
    added event stands in the resulting catalog under its identifier. *)
Theorem merge_added_stored clock stored l :
  let catalog := (auto_scrape_task clock stored l).1 in
  let added := (auto_scrape_task clock stored l).2 in
  StronglySorted id_lt added ∧
  ∀ e, e ∈ added →
       ∃ n, length stored < n ∧ has_number e n ∧
            dict_get (auto_id n) catalog = Some e.
Proof.
  split; [apply merge_ids_increasing|]. intros e. apply merge_added_in_catalog.
Qed.

(** X5: on a catalog without a clashing key the merge is append-only and
    idempotent: every entry of the catalog is kept, the title of every
    candidate is in the resulting catalog, and a second merge of the same
    candidates adds nothing and leaves the catalog as the first left it. *)
Theorem merge_append_only clock clock' stored l :
  no_clash stored →
  let catalog := (auto_scrape_task clock stored l).1 in
  (∀ k v, (k, v) ∈ stored → (k, v) ∈ catalog) ∧
  (∀ c, c ∈ l → title c ∈ title <$> dict_values catalog) ∧
  auto_scrape_task clock' catalog l = (catalog, []).
Proof.
  intros Hnc. cbv zeta. split_and!.
  - intros k v. by apply merge_keeps_entries.
  - intros c Hc. pose proof (merge_covers_titles clock stored l c Hnc Hc) as H.
    unfold existing_titles in H. by apply elem_of_list_to_set in H.
  - by apply merge_idempotent_no_clash.
Qed.

Lemma empty_no_clash : no_clash [].
Proof. intros k m Hk. by apply elem_of_nil in Hk. Qed.

(** X5 at the empty catalog and two candidates. *)
Lemma merge_append_only_witness :
  let l := [candidate "A"; candidate "B"] in
  let catalog := (auto_scrape_task (λ _, "2026-01-01T00:00:00") [] l).1 in
  (∀ k v, (k, v) ∈ [] → (k, v) ∈ catalog) ∧
  (∀ c, c ∈ l → title c ∈ title <$> dict_values catalog) ∧
  auto_scrape_task (λ _, "2026-01-02T00:00:00") catalog l = (catalog, []).
Proof.
  apply (merge_append_only (λ _, "2026-01-01T00:00:00")
           (λ _, "2026-01-02T00:00:00") []
           [candidate "A"; candidate "B"]).
  apply empty_no_clash.
Defined.

Lemma merge_gap_keys clock stored l :
  no_clash stored →
  (auto_scrape_task clock stored l).1.*1
  = stored.*1 ++ ((λ k, auto_id (length stored + 1 + 2 * k))
                  <$> seq 0 (length (auto_scrape_task clock stored l).2)).
Proof.
  intros Hnc. rewrite auto_scrape_task_loop. cbn [fst snd].
  rewrite <-merge_added_count. rewrite merge_loop_unfold.
  apply foldl_step_gap_keys; [by apply merge_init_gap_ok|].
  simpl. by rewrite app_nil_r.
Qed.

(** X6: on a catalog of [n] entries without a clashing key, a merge that
    adds [k] events appends the keys [auto_(n+1)], [auto_(n+3)], ...,
    [auto_(n+2k-1)]: the number goes up by two for every event added. *)
Theorem merge_keys_step_two clock stored l :
  no_clash stored →
  let catalog := (auto_scrape_task clock stored l).1 in
  let added := (auto_scrape_task clock stored l).2 in
  catalog.*1
  = stored.*1 ++ ((λ k, auto_id (length stored + 1 + 2 * k))
                  <$> seq 0 (length added)) ∧
  id_ <$> added
  = (λ k, Some (auto_id (length stored + 1 + 2 * k)))
    <$> seq 0 (length added).
Proof.
  intros Hnc. cbv zeta. split; [by apply merge_gap_keys|].
  rewrite auto_scrape_task_loop. cbn [fst snd]. rewrite merge_loop_unfold.
  pose proof (merge_init_gap_ok stored Hnc) as Hok.
  destruct (foldl_step_gap_ok (existing_titles stored) clock
              (length stored + 1) l (merge_init stored) Hok)
    as (_ & Hcount & _ & Hnum).
  apply list_eq. intros i. rewrite !list_lookup_fmap.
  destruct (broadcast _ !! i) as [e|] eqn:He; simpl.
  - rewrite lookup_seq_lt by (by eapply lookup_lt_Some). simpl.
    by rewrite (Hnum i e He).
  - rewrite lookup_seq_ge; [done|]. by apply lookup_ge_None.
Qed.

(** X6 at the empty catalog and two candidates. *)
Lemma merge_keys_step_two_witness :
  let l := [candidate "A"; candidate "B"] in
  let catalog := (auto_scrape_task (λ _, "2026-01-01T00:00:00") [] l).1 in
  let added := (auto_scrape_task (λ _, "2026-01-01T00:00:00") [] l).2 in
  catalog.*1
  = [] ++ ((λ k, auto_id (0 + 1 + 2 * k)) <$> seq 0 (length added)) ∧
  id_ <$> added
  = (λ k, Some (auto_id (0 + 1 + 2 * k))) <$> seq 0 (length added).
Proof.
  apply (merge_keys_step_two (λ _, "2026-01-01T00:00:00") []
           [candidate "A"; candidate "B"]).
  apply empty_no_clash.
Defined.

(** X7: a catalog with the keys [auto_1], ..., [auto_n] has these keys
    again after a merge exactly when the merge adds at most one event. *)
Theorem merge_dense_iff clock stored l :
  dense stored →
  dense (auto_scrape_task clock stored l).1 ↔
  length (auto_scrape_task clock stored l).2 ≤ 1.
Proof.
  intros Hd. pose proof (dense_no_clash stored Hd) as Hnc.
  pose proof (merge_gap_keys clock stored l Hnc) as Hkeys. unfold dense.
  set (catalog := (auto_scrape_task clock stored l).1) in *.
  set (added := (auto_scrape_task clock stored l).2) in *.
  assert (length catalog = length stored + length added) as Hlen.
  { apply (f_equal length) in Hkeys.
    by rewrite length_app, !length_fmap, length_seq in Hkeys. }
  rewrite Hkeys, Hlen, seq_app, fmap_app, <-Hd. simpl.
  split.
  - intros Heq%app_inv_head.
    destruct (length added) as [|[|k]]; [lia|lia|]. exfalso.
    cbn [seq fmap list_fmap] in Heq. injection Heq as _ Heq _.
    unfold str in Heq. apply (inj pretty) in Heq. lia.
  - intros Hle. f_equal.
    destruct (length added) as [|[|k]]; [done| |lia].
    cbn [seq fmap list_fmap]. do 2 f_equal. lia.
Qed.

Lemma empty_dense : dense [].
Proof. reflexivity. Qed.

(** X7 at the empty catalog and two candidates. *)
Lemma merge_dense_iff_witness :
  dense (auto_scrape_task (λ _, "2026-01-01T00:00:00") []
           [candidate "A"; candidate "B"]).1 ↔
  length (auto_scrape_task (λ _, "2026-01-01T00:00:00") []
            [candidate "A"; candidate "B"]).2 ≤ 1.
Proof.
  apply (merge_dense_iff (λ _, "2026-01-01T00:00:00") []
           [candidate "A"; candidate "B"]).
  apply empty_dense.
Defined.

(** ** Where the entries of the resulting catalog come from *)

Lemma dict_set_elem_inv {V} (k k' : string) (v v' : V) (d : PyDict V) :
  (k', v') ∈ dict_set k v d → (k', v') = (k, v) ∨ (k', v') ∈ d.
Proof.
  induction d as [|[k0 v0] d IH]; simpl.
  { intros ->%list_elem_of_singleton. by left. }
  case_decide as Hk.
  - intros [->|Hin]%elem_of_cons; [by left|]. right. by right.
  - intros [->|Hin]%elem_of_cons; [right; by left|].
    destruct (IH Hin) as [->|?]; [by left|]. right. by right.
Qed.

Lemma foldl_step_elem titles clock l st k v :
  (k, v) ∈ existing_events (foldl (merge_step titles clock) st l) →
  (k, v) ∈ existing_events st ∨
  v ∈ broadcast (foldl (merge_step titles clock) st l).
Proof.
  revert st. induction l as [|c l IH]; intros st; simpl; [by left|].
  intros [Hin|Hin]%IH; [|by right].
  destruct (decide (title c ∈ titles)) as [Hc|Hc].
  { rewrite merge_step_known in Hin by done. by left. }
  rewrite merge_step_new in Hin by done. cbn zeta in Hin.
  cbn [existing_events] in Hin.
  apply dict_set_elem_inv in Hin as [[= -> ->]|Hin]; [|by left].
  right. apply foldl_step_broadcast. rewrite merge_step_new by done.
  cbn zeta. cbn [broadcast]. apply elem_of_app. right.
  by apply list_elem_of_singleton.
Qed.

Lemma merge_catalog_elem clock stored l k v :
  (k, v) ∈ (auto_scrape_task clock stored l).1 →
  (k, v) ∈ stored ∨ v ∈ (auto_scrape_task clock stored l).2.
Proof.
  rewrite auto_scrape_task_loop. cbn [fst snd]. rewrite merge_loop_unfold.
  apply foldl_step_elem.
Qed.

Lemma merge_added_candidate clock stored l e :
  e ∈ (auto_scrape_task clock stored l).2 →
  ∃ c, c ∈ l ∧ inserted_as (length stored + 1) e c.
Proof.
  rewrite auto_scrape_task_loop. cbn [snd]. rewrite merge_loop_unfold.
  destruct (foldl_step_added (existing_titles stored) clock l
              (merge_init stored)) as (added & -> & Hall).
  cbn [merge_init broadcast]. rewrite app_nil_l. intros He.
  unfold next_number in Hall.
  cbn [merge_init existing_events new_count] in Hall.
  rewrite Nat.add_0_r in Hall.
  apply list_elem_of_lookup in He as [i Hi].
  destruct (Forall2_lookup_l _ _ _ _ _ Hall Hi) as (c & Hc & Hins).
  exists c. split; [|done].
  apply list_elem_of_lookup_2 in Hc. by apply list_elem_of_filter in Hc as [_ ?].
Qed.

Lemma merge_length_bounds clock stored l :
  length stored ≤ length (auto_scrape_task clock stored l).1 ∧
  length (auto_scrape_task clock stored l).1
  ≤ length stored + length (auto_scrape_task clock stored l).2 ∧
  length (auto_scrape_task clock stored l).2 ≤ length l.
Proof.
  rewrite auto_scrape_task_loop. cbn [fst snd].
  rewrite <-merge_added_count. rewrite merge_loop_unfold.
  destruct (foldl_step_keys (existing_titles stored) clock l
              (merge_init stored)) as (ks & Hks & Hlen).
  cbn [merge_init existing_events new_count] in Hks, Hlen.
  apply (f_equal length) in Hks. rewrite length_app, !length_fmap in Hks.
  split_and!; [lia..|].
  rewrite (foldl_step_count (existing_titles stored) clock l
             (merge_init stored) eq_refl).
  rewrite <-(length_fmap title), foldl_step_titles. cbn [merge_init broadcast].
  rewrite app_nil_l. etrans; [apply length_filter|]. by rewrite length_fmap.
Qed.


(** ** The dates of the scraper and the dates of the calendar *)

Lemma pretty_N_char_digit x : is_digit (pretty_N_char x) = true.
Proof. unfold pretty_N_char. by repeat case_match. Qed.

Lemma pretty_N_go_digits x s :
  all_chars is_digit s = true → all_chars is_digit (pretty_N_go x s) = true.
Proof.
  revert s. induction (N.lt_wf_0 x) as [x _ IH]; intros s Hs.
  destruct (decide (x = 0)%N) as [->|Hx]; [by rewrite pretty_N_go_0|].
  rewrite pretty_N_go_step by lia. apply IH.
  - apply N.div_lt; lia.
  - simpl. by rewrite pretty_N_char_digit.
Qed.

Lemma str_digits n : all_chars is_digit (str n) = true.
Proof.
  unfold str, pretty, pretty_nat, pretty, pretty_N.
  case_decide; [done|]. by apply pretty_N_go_digits.
Qed.

Lemma digit_value_Some c d : digit_value c = Some d → is_digit c = true.
Proof. unfold digit_value. by destruct (is_digit c). Qed.

Lemma is_digit_value c : is_digit c = true → ∃ v, digit_value c = Some v.
Proof. unfold digit_value. intros ->. by eexists. Qed.

Lemma digit_value_None c : is_digit c = false → digit_value c = None.
Proof. unfold digit_value. by intros ->. Qed.

(** A digit is none of the marks of a date. *)
Lemma digit_no_mark c :
  is_digit c = true →
  c ≠ "-"%char ∧ c ≠ "W"%char ∧ c ≠ "Z"%char ∧ c ≠ "+"%char.
Proof. intros H. split_and!; by intros ->. Qed.

Lemma drop_string_app (a b : string) :
  drop_string (String.length a) (a +:+ b) = b.
Proof. induction a as [|c a IH]; simpl; [by destruct b|done]. Qed.

(** *** Where [fromisoformat] gives up *)

Lemma parse_digits_None n var p :
  is_digit (peek p) = false → parse_digits (S n) var p = None.
Proof. intros H. simpl. by rewrite (digit_value_None _ H). Qed.

Lemma parse_hh_mm_ss_ff_None p len :
  is_digit (peek p) = false → parse_hh_mm_ss_ff p len = None.
Proof.
  intros H. unfold parse_hh_mm_ss_ff. cbn [hms_loop].
  by rewrite parse_digits_None.
Qed.

(** A time that does not start with a digit. *)
Lemma parse_isoformat_time_None p len :
  is_digit (peek p) = false → parse_isoformat_time p len = None.
Proof.
  intros H. unfold parse_isoformat_time.
  destruct (tzinfo_pos (Z.to_nat len) p);
    by rewrite (parse_hh_mm_ss_ff_None p).
Qed.

Lemma tzinfo_pos_digits ds rest n :
  all_chars is_digit ds = true → String.length ds < n →
  tzinfo_pos n (ds +:+ String "-" rest) = Some (String.length ds).
Proof.
  revert n. induction ds as [|c ds IH]; intros n Hds Hn.
  - destruct n; [simpl in Hn; lia|]. reflexivity.
  - destruct n; [simpl in Hn; lia|]. simpl in Hds, Hn.
    apply andb_true_iff in Hds as [Hc Hds].
    destruct (digit_no_mark c Hc) as (H1 & H2 & H3 & H4).
    cbn [String.append tzinfo_pos String.length].
    rewrite !bool_decide_eq_false_2 by done. cbn [orb].
    rewrite IH by (done || lia). done.
Qed.

(** A time in which digits, a hyphen and no digit follow one another. *)
Lemma parse_isoformat_time_name ds rest len :
  all_chars is_digit ds = true → is_digit (peek rest) = false →
  (Z.of_nat (String.length ds) < len)%Z →
  parse_isoformat_time (ds +:+ String "-" rest) len = None.
Proof.
  intros Hds Hrest Hlen. unfold parse_isoformat_time.
  rewrite tzinfo_pos_digits by (done || lia).
  destruct (parse_hh_mm_ss_ff (ds +:+ String "-" rest) _)
    as [[[[[h mi] s] us] r]|]; [|done].
  cbn [mbind option_bind]. rewrite drop_string_app.
  cbn [peek drop_string]. rewrite bool_decide_eq_false_2 by done.
  by rewrite (parse_hh_mm_ss_ff_None rest).
Qed.

(** Fewer than four digits, then no digit: there is no year. *)
Lemma fromisoformat_short ds c rest :
  all_chars is_digit ds = true → String.length ds < 4 →
  is_digit c = false →
  fromisoformat (ds +:+ String c rest) = None.
Proof.
  intros Hds Hlen Hc. unfold fromisoformat. case_match; [done|].
  assert (∀ len, parse_isoformat_date (ds +:+ String c rest) len = None)
    as ->; [|done].
  intros len. unfold parse_isoformat_date.
  assert (parse_digits 4 0 (ds +:+ String c rest) = None) as ->; [|done].
  pose proof (digit_value_None _ Hc) as Hv.
  destruct ds as [|d0 [|d1 [|d2 [|d3 ds]]]]; simpl in Hlen; try lia;
    simpl in Hds; rewrite ?andb_true_iff in Hds;
    cbn [String.append parse_digits peek drop_string];
    repeat match goal with
    | H : _ ∧ _ |- _ => destruct H
    | H : is_digit ?d = true |- context [digit_value ?d] =>
        destruct (is_digit_value d H) as [? ->]; simpl
    end; by rewrite Hv.
Qed.

Lemma parse_digits_0 var p : parse_digits 0 var p = Some (var, p).
Proof. done. Qed.

Lemma parse_digits_step n var d p v :
  digit_value d = Some v →
  parse_digits (S n) var (String d p) = parse_digits n (var * 10 + v) p.
Proof. intros H. cbn [parse_digits peek drop_string]. by rewrite H. Qed.

Lemma parse_digits_stop n var c p :
  is_digit c = false → parse_digits (S n) var (String c p) = None.
Proof. intros H. by apply parse_digits_None. Qed.

(** Four to seven digits, a hyphen, and then neither a digit nor the mark
    of a week: there is no date. *)
Lemma parse_date_name d0 d1 d2 d3 tail rest len :
  all_chars is_digit (String d0 (String d1 (String d2 (String d3 tail))))
  = true →
  String.length tail < 4 →
  is_digit (peek rest) = false → peek rest ≠ "W"%char →
  parse_isoformat_date
    (String d0 (String d1 (String d2 (String d3 tail))) +:+ String "-" rest)
    len = None.
Proof.
  intros Hds Htail Hrest HW. unfold parse_isoformat_date.
  simpl in Hds. rewrite !andb_true_iff in Hds.
  destruct Hds as (H0 & H1 & H2 & H3 & Hds).
  destruct (is_digit_value d0 H0) as [v0 E0].
  destruct (is_digit_value d1 H1) as [v1 E1].
  destruct (is_digit_value d2 H2) as [v2 E2].
  destruct (is_digit_value d3 H3) as [v3 E3].
  cbn [String.append].
  rewrite (parse_digits_step _ _ _ _ _ E0), (parse_digits_step _ _ _ _ _ E1),
    (parse_digits_step _ _ _ _ _ E2), (parse_digits_step _ _ _ _ _ E3),
    parse_digits_0.
  cbn [mbind option_bind].
  destruct tail as [|d4 tail].
  - cbn [String.append peek].
    rewrite (bool_decide_eq_true_2 ("-"%char = "-"%char)) by done.
    cbn [drop_string andb negb].
    rewrite (bool_decide_eq_false_2 (peek rest = "W"%char)) by done.
    by rewrite parse_digits_None.
  - simpl in Hds. apply andb_true_iff in Hds as [H4 Hds].
    destruct (digit_no_mark d4 H4) as (N1 & N2 & _ & _).
    destruct (is_digit_value d4 H4) as [v4 E4].
    cbn [String.append peek].
    rewrite (bool_decide_eq_false_2 (d4 = "-"%char)) by done.
    rewrite (bool_decide_eq_false_2 (d4 = "W"%char)) by done.
    rewrite (parse_digits_step _ _ _ _ _ E4).
    destruct tail as [|d5 tail].
    { cbn [String.append]. by rewrite parse_digits_stop. }
    simpl in Hds. apply andb_true_iff in Hds as [H5 Hds].
    destruct (is_digit_value d5 H5) as [v5 E5].
    cbn [String.append].
    rewrite (parse_digits_step _ _ _ _ _ E5), parse_digits_0.
    cbn [mbind option_bind andb].
    destruct tail as [|d6 tail].
    { cbn [String.append]. by rewrite parse_digits_stop. }
    simpl in Hds. apply andb_true_iff in Hds as [H6 Hds].
    destruct (is_digit_value d6 H6) as [v6 E6].
    cbn [String.append]. rewrite (parse_digits_step _ _ _ _ _ E6).
    destruct tail as [|d7 tail]; [|simpl in Htail; lia].
    cbn [String.append]. by rewrite parse_digits_stop.
Qed.

(** Four digits or more, a hyphen, and then neither a digit nor the mark
    of a week: there is no month, or no time. *)
Lemma fromisoformat_name ds rest :
  all_chars is_digit ds = true → 4 ≤ String.length ds →
  is_digit (peek rest) = false → peek rest ≠ "W"%char →
  fromisoformat (ds +:+ String "-" rest) = None.
Proof.
  intros Hds Hlen Hrest HW.
  unfold fromisoformat. case_match eqn:Hshort; [done|].
  destruct ds as [|d0 [|d1 [|d2 [|d3 tail]]]]; simpl in Hlen; try lia.
  destruct (decide (String.length tail < 4)) as [Htail|Htail].
  { by rewrite parse_date_name. }
  destruct tail as [|d4 [|d5 [|d6 [|d7 tail]]]]; simpl in Htail; try lia.
  simpl in Hds. rewrite !andb_true_iff in Hds.
  destruct Hds as (H0 & H1 & H2 & H3 & H4 & H5 & H6 & H7 & Hds).
  destruct (digit_no_mark d4 H4) as (Hd4 & Hw4 & _ & _).
  set (s := String d0 (String d1 (String d2 (String d3 (String d4
               (String d5 (String d6 (String d7 tail)))))))
            +:+ String "-" rest).
  assert (9 ≤ Z.of_nat (String.length s))%Z as Hs.
  { unfold s. rewrite string_app_length. simpl. lia. }
  assert (find_isoformat_datetime_separator s (Z.of_nat (String.length s))
          = 8%Z) as ->.
  { unfold find_isoformat_datetime_separator.
    rewrite (proj2 (Z.eqb_neq _ 7)) by lia.
    unfold s. cbn [String.append char_at drop_string peek].
    by rewrite !bool_decide_eq_false_2 by done. }
  destruct (parse_isoformat_date s 8) as [[[y m] d]|]; [|done].
  cbn [mbind option_bind].
  rewrite (proj2 (Z.ltb_lt 8 _)) by lia.
  match goal with
  | |- mbind _ ?r = None => assert (r = None) as ->; [|done]
  end.
  change (Z.to_nat 8) with 8. unfold s.
  cbn [String.append drop_string].
  destruct tail as [|d8 tail].
  - cbn [String.append peek]. change (char_width "-") with 1.
    cbn [drop_string]. by apply parse_isoformat_time_None.
  - simpl in Hds. apply andb_true_iff in Hds as [H8 Hds].
    cbn [String.append peek].
    assert (char_width d8 = 1) as ->.
    { revert H8. unfold is_digit, char_width.
      generalize (nat_of_ascii d8). intros n.
      intros [_ Hn%Nat.leb_le]%andb_true_iff.
      by rewrite (proj2 (Nat.ltb_lt n 128)) by lia. }
    cbn [drop_string]. apply parse_isoformat_time_name; [done|done|].
    simpl String.length. rewrite string_app_length. simpl. lia.
Qed.

(** *** The bytes of a date of the scraper *)

Lemma nat_of_byte n : (n < 256)%N → nat_of_ascii (byte n) = N.to_nat n.
Proof.
  intros Hn. unfold byte, nat_of_ascii.
  by rewrite N_ascii_embedding.
Qed.

Lemma is_digit_byte n :
  (n < 256)%N → is_digit (byte n) = (48 <=? n)%N && (n <=? 57)%N.
Proof.
  intros Hn. unfold is_digit. rewrite nat_of_byte by done.
  apply eq_true_iff_eq.
  rewrite !andb_true_iff, !Nat.leb_le, !N.leb_le. lia.
Qed.

(** A character beyond ASCII starts with a byte that is no digit. *)
Lemma utf8_lead c :
  (128 ≤ c < 1114112)%N →
  ∃ b r, utf8 c = String b r ∧ is_digit b = false.
Proof.
  intros Hc. unfold utf8.
  rewrite (proj2 (N.ltb_ge c 128)) by lia.
  assert (∀ n, (192 ≤ n < 256)%N → is_digit (byte n) = false) as Hb.
  { intros n Hn. rewrite is_digit_byte by lia.
    apply andb_false_iff. right. apply N.leb_gt. lia. }
  destruct (c <? 2048)%N eqn:H1; [|destruct (c <? 65536)%N eqn:H2];
    rewrite ?N.ltb_lt, ?N.ltb_ge in *;
    (do 2 eexists; split; [done|]; apply Hb).
  - assert (c `div` 64 < 32)%N as H.
    { apply N.Div0.div_lt_upper_bound. lia. }
    revert H. generalize (c `div` 64)%N. intros; lia.
  - assert (c `div` 4096 < 16)%N as H.
    { apply N.Div0.div_lt_upper_bound. lia. }
    revert H. generalize (c `div` 4096)%N. intros; lia.
  - assert (c `div` 262144 < 5)%N as H.
    { apply N.Div0.div_lt_upper_bound. lia. }
    revert H. generalize (c `div` 262144)%N. intros; lia.
Qed.

(** A digit of [re] is an ASCII digit, or starts with a byte that is no
    digit. *)
Lemma re_digit_bytes c :
  re_digit c = true →
  (∃ b, encode_char c = String b "" ∧ is_digit b = true) ∨
  (∃ b r, encode_char c = String b r ∧ is_digit b = false).
Proof.
  unfold re_digit. intros (zero & Hz & Hc)%existsb_exists.
  apply andb_true_iff in Hc as [H1%N.leb_le H2%N.ltb_lt].
  unfold digit_zeros in Hz. cbn [In] in Hz.
  destruct Hz as [<-|Hz].
  - left. exists (byte c). unfold encode_char, utf8.
    rewrite (proj2 (andb_false_iff _ _)).
    2:{ left. apply N.leb_gt. lia. }
    rewrite (proj2 (N.ltb_lt c 128)) by lia. split; [done|].
    rewrite is_digit_byte by lia.
    apply andb_true_iff. rewrite !N.leb_le. lia.
  - right. unfold encode_char.
    assert ((128 ≤ c < 1114112)%N ∧ ¬ (56448 ≤ c ≤ 56575)%N) as [Hr Hs].
    { repeat (destruct Hz as [<-|Hz]; [lia|]). done. }
    rewrite (proj2 (andb_false_iff _ _)).
    2:{ rewrite !N.leb_gt. lia. }
    by apply utf8_lead.
Qed.

(** The bytes of a year of [re]: four ASCII digits, or fewer than four
    and then a byte that is no digit. *)
Lemma year_bytes y :
  is_year y →
  (all_chars is_digit (encode y) = true ∧ String.length (encode y) = 4) ∨
  (∃ ds c rest, encode y = ds +:+ String c rest ∧
                all_chars is_digit ds = true ∧ String.length ds < 4 ∧
                is_digit c = false).
Proof.
  intros [Hd Hl].
  destruct y as [|c0 [|c1 [|c2 [|c3 [|]]]]]; simpl in Hl; try lia.
  simpl in Hd. rewrite !andb_true_iff in Hd.
  destruct Hd as (H0 & H1 & H2 & H3 & _). cbn [encode].
  destruct (re_digit_bytes c0 H0) as [(b0 & -> & D0)|(b0 & r0 & -> & ?)].
  2:{ right. exists "", b0. eexists.
      split_and!; [reflexivity|done|simpl; lia|done]. }
  destruct (re_digit_bytes c1 H1) as [(b1 & -> & D1)|(b1 & r1 & -> & ?)].
  2:{ right. exists (String b0 ""), b1. eexists.
      split_and!; [reflexivity| |simpl; lia|done].
      simpl. by rewrite D0. }
  destruct (re_digit_bytes c2 H2) as [(b2 & -> & D2)|(b2 & r2 & -> & ?)].
  2:{ right. exists (String b0 (String b1 "")), b2. eexists.
      split_and!; [reflexivity| |simpl; lia|done].
      simpl. by rewrite D0, D1. }
  destruct (re_digit_bytes c3 H3) as [(b3 & -> & D3)|(b3 & r3 & -> & ?)].
  2:{ right. exists (String b0 (String b1 (String b2 ""))), b3. eexists.
      split_and!; [reflexivity| |simpl; lia|done].
      simpl. by rewrite D0, D1, D2. }
  left. simpl. by rewrite D0, D1, D2, D3.
Qed.

(** What folds to a small letter other than [i] and [k]: the letter, its
    capital, or for [s] the long s. *)
Lemma fold_case_letter c v :
  fold_case c = v → (97 ≤ v ≤ 122)%N → v ≠ 105%N → v ≠ 107%N →
  c = v ∨ c = (v - 32)%N ∨ c = 383%N.
Proof.
  unfold fold_case. intros H Hv Hi Hk.
  repeat match type of H with
  | context [if ?b then _ else _] => destruct b eqn:?
  end;
    rewrite ?orb_true_iff, ?andb_true_iff, ?N.leb_le, ?N.eqb_eq in *; lia.
Qed.

(** The name of a month starts with a byte that is neither a digit nor
    the mark of a week. *)
Lemma month_name_bytes m :
  is_month_name m →
  ∃ b r, encode m = String b r ∧ is_digit b = false ∧ b ≠ "W"%char.
Proof.
  intros (n & Hn & Hm).
  assert (∃ c m' v, m = c :: m' ∧ fold_case c = v ∧
            v ∈ [106; 102; 109; 97; 115; 111; 110; 100]%N)
    as (c & m' & v & -> & Hc & Hv).
  { unfold same_ci in Hm. unfold month_names in Hn.
    repeat (apply elem_of_cons in Hn as [->|Hn];
            [vm_compute in Hm; destruct m as [|c m']; [done|];
             injection Hm as Hc _; exists c, m'; eexists;
             split_and!; [done|exact Hc|];
             repeat first [apply list_elem_of_here
                          |apply list_elem_of_further]|]).
    by apply elem_of_nil in Hn. }
  assert (c ∈ [106; 102; 109; 97; 115; 111; 110; 100;
               74; 70; 77; 65; 83; 79; 78; 68; 383]%N) as Hin.
  { repeat (apply elem_of_cons in Hv as [->|Hv];
            [apply fold_case_letter in Hc as [-> | [-> | ->]]; try lia;
             repeat first [apply list_elem_of_here
                          |apply list_elem_of_further]|]).
    by apply elem_of_nil in Hv. }
  cbn [encode].
  repeat (apply elem_of_cons in Hin as [->|Hin];
          [do 2 eexists; split; [reflexivity|]; split; [reflexivity|done]|]).
  by apply elem_of_nil in Hin.
Qed.

(** The date of a candidate: "TBA", or a year, a hyphen, the name of a
    month, a hyphen and a day; the year is the current one or four digits
    of [re]. *)
Lemma candidate_date_shape year article e :
  block_candidate year article = Some e →
  date e = "TBA" ∧ date_display e = "待公布" ∨
  ∃ y m rest,
    date e = y +:+ "-" +:+ encode m +:+ rest ∧
    (y = str year ∨ ∃ y', y = encode y' ∧ is_year y') ∧
    is_month_name m ∧ date_display e = date e.
Proof.
  unfold block_candidate.
  destruct (parse_article year article) as [| |e'] eqn:Hp; try done.
  intros [= ->].
  apply parse_article_Append in Hp
    as (t & target & _ & _ & _ & _ & _ & _ & _ & _ & Hsome & Hnone & _).
  destruct (re_search date_re t) as [gs|] eqn:Hgs; [right|left; by apply Hnone].
  destruct (Hsome gs eq_refl) as [Hdate Hdisp].
  apply re_search_date_Some in Hgs
    as (pre & d & m & y & Hat & _ & Hg1 & Hg2 & Hg3).
  rewrite Hg1, Hg2, Hg3 in Hdate. simpl default in Hdate.
  destruct Hat as (ws1 & rest & _ & _ & _ & _ & Hm & Hy).
  destruct y as [y|].
  - destruct Hy as (ws2 & post & _ & _ & Hy).
    exists (encode y), m, ("-" +:+ encode d). split_and!; try done.
    + rewrite Hdate. simpl. pose proof (year_encode_not_empty y Hy).
      by destruct (encode y).
    + right. by exists y.
  - exists (str year), m, ("-" +:+ encode d). split_and!; try done.
    by left.
Qed.

Lemma hyphen_not_TBA (a b : string) : a +:+ "-" +:+ b ≠ "TBA".
Proof. by destruct a as [|? [|? [|? [|? ?]]]]. Qed.

(** The date of a candidate is no date for [fromisoformat]. *)
Lemma candidate_date_not_iso year article e :
  block_candidate year article = Some e → fromisoformat (date e) = None.
Proof.
  intros [[-> _]|(y & m & rest & -> & Hy & Hm & _)]%candidate_date_shape;
    [done|].
  apply month_name_bytes in Hm as (b & r & -> & Hb & HW).
  assert (∀ ds, all_chars is_digit ds = true →
            fromisoformat (ds +:+ "-" +:+ String b r +:+ rest) = None)
    as Hdigits.
  { intros ds Hds.
    destruct (decide (String.length ds < 4)) as [Hl|Hl].
    - by apply fromisoformat_short.
    - apply fromisoformat_name; [done|lia|done|done]. }
  destruct Hy as [->|(y' & -> & Hy)].
  - apply Hdigits, str_digits.
  - destruct (year_bytes y' Hy) as [[Hd Hl]|(ds & c & r' & -> & Hd & Hl & Hc)].
    + by apply Hdigits.
    + rewrite string_app_assoc. by apply fromisoformat_short.
Qed.

Lemma no_date_no_component event_id event :
  fromisoformat (date event) = None →
  batch_component (event_id, event) = None.
Proof.
  intros Hf. apply eq_None_not_Some.
  intros [_ (start & Hs & _)]%batch_component_is_Some. simpl in Hs.
  unfold start_of in Hs. by rewrite Hf in Hs.
Qed.

(** X8: the date that the scraper gives a candidate is never one that the
    calendar export can read: it is "TBA" or has the name of a month where
    [fromisoformat] wants two digits, so the candidate yields no component
    of the batch export under any identifier, also after the merge has
    given it an identifier and a time stamp. *)
Theorem scraped_date_not_iso year article e :
  block_candidate year article = Some e →
  fromisoformat (date e) = None ∧
  ∀ event_id now,
    batch_component (event_id, e) = None ∧
    batch_component (event_id, set_id_created e event_id now) = None.
Proof.
  intros He%candidate_date_not_iso. split; [done|]. intros event_id now.
  split; by apply no_date_no_component.
Qed.

(** X8 at a heading with the fifth of December. *)
Lemma scraped_date_not_iso_witness :
  let e :=
    {| title := "Get a free LEGO set this 5 December in London";
       location := "London"; date := "2026-December-5";
       date_display := "2026-December-5"; store := "LEGO Store";
       description := "查看連結了解活動詳情"; source := "auto_scrape";
       url := ""; id_ := None; created_at := None |} in
  fromisoformat (date e) = None ∧
  ∀ event_id now,
    batch_component (event_id, e) = None ∧
    batch_component (event_id, set_id_created e event_id now) = None.
Proof.
  intros e.
  apply (scraped_date_not_iso 2026
           (mkArticle ["Get a free LEGO set this 5 December in London"]
                      [] []) e).
  reflexivity.
Defined.

Lemma scrape_lego_news_200 year articles :
  scrape_lego_news year (Response 200 articles)
  = omap (block_candidate year) (take 5 articles).
Proof. unfold scrape_lego_news. by rewrite foldl_scrape_round. Qed.

Lemma scrape_lego_news_other year status articles :
  status ≠ 200 → scrape_lego_news year (Response status articles) = [].
Proof.
  intros Hs. unfold scrape_lego_news.
  do 200 (destruct status as [|status]; [done|]). by destruct status.
Qed.

Lemma scraped_candidate year fetched c :
  c ∈ scrape_lego_news year fetched →
  ∃ article, block_candidate year article = Some c.
Proof.
  destruct fetched as [|status articles].
  { by intros ?%elem_of_nil. }
  destruct (decide (status = 200)) as [->|Hs].
  - rewrite scrape_lego_news_200.
    intros (article & _ & Ha)%list_elem_of_omap. by exists article.
  - rewrite scrape_lego_news_other by done. by intros ?%elem_of_nil.
Qed.

Lemma omap_all_None {A B} (f : A → option B) (l : list A) :
  (∀ x, x ∈ l → f x = None) → omap f l = [].
Proof.
  induction l as [|x l IH]; intros Hall; csimpl; [done|].
  rewrite (Hall x) by left. apply IH. intros y Hy. apply Hall. by right.
Qed.

Lemma export_all_events_no_component events :
  omap batch_component events = [] →
  ∃ text, export_all_events events = reply_text text.
Proof.
  intros Hnil. unfold export_all_events.
  destruct events as [|item events]; [by eexists|].
  rewrite foldl_batch_step, Hnil. simpl. by eexists.
Qed.

(** X9: a run of the scrape and the merge adds no event that the calendar
    export can show: every entry of the catalog afterwards that yields a
    component of the batch export was an entry of the catalog before.  When
    no entry of the catalog yielded a component before the run, the export
    of the catalog after the run is a message, not a document. *)
Theorem scrape_adds_no_calendar_event year clock fetched stored :
  let catalog :=
    (auto_scrape_task clock stored (scrape_lego_news year fetched)).1 in
  (∀ item, item ∈ catalog → is_Some (batch_component item) → item ∈ stored) ∧
  ((∀ item, item ∈ stored → batch_component item = None) →
   ∃ text, export_all_events catalog = reply_text text).
Proof.
  cbv zeta.
  assert (∀ item,
    item ∈ (auto_scrape_task clock stored (scrape_lego_news year fetched)).1 →
    is_Some (batch_component item) → item ∈ stored) as Hkeep.
  { intros [k v] Hin Hsome.
    apply merge_catalog_elem in Hin as [Hin|Hin]; [done|]. exfalso.
    apply merge_added_candidate in Hin as (c & Hc & n & t & _ & ->).
    apply scraped_candidate in Hc as [article Hc].
    apply candidate_date_not_iso in Hc.
    rewrite no_date_no_component in Hsome by done.
    by destruct Hsome. }
  split; [done|]. intros Hnone. apply export_all_events_no_component.
  apply omap_all_None. intros item Hin.
  destruct (batch_component item) as [comp|] eqn:Hcomp; [|done].
  rewrite <-Hcomp. apply Hnone, Hkeep; [done|]. by rewrite Hcomp.
Qed.

(** ** The fields of a candidate *)

Lemma city_loop_range cs t loc :
  city_loop cs t loc = loc ∨ city_loop cs t loc ∈ cs.
Proof.
  induction cs as [|city cs IH]; simpl; [by left|].
  destruct (contains (lower city) (lower t)).
  - right. by left.
  - destruct IH as [?|?]; [by left|]. right. by right.
Qed.

(** X10: the classification of a candidate has no failure: its store is
    one of the three stores, its location is the default of its store or a
    city of the list, its heading contains "free" and "lego", its display
    date is its date unless the date is "TBA", and it has no identifier and
    no time stamp yet. *)
Theorem scraped_event_fields year article e :
  block_candidate year article = Some e →
  store e ∈ ["LEGO Store"; "Smyths Toys"; "John Lewis"] ∧
  location e ∈ "UK" :: "UK Smyths Stores" :: cities ∧
  (location e = "UK Smyths Stores" → store e = "Smyths Toys") ∧
  (date e = "TBA" ∧ date_display e = "待公布" ∨
   date e ≠ "TBA" ∧ date_display e = date e) ∧
  description e = "查看連結了解活動詳情" ∧ source e = "auto_scrape" ∧
  id_ e = None ∧ created_at e = None.
Proof.
  intros He. pose proof (candidate_date_shape year article e He) as Hshape.
  unfold block_candidate in He.
  destruct (parse_article year article) as [| |e'] eqn:Hp; try done.
  injection He as ->.
  apply parse_article_Append in Hp
    as (t & target & _ & _ & _ & _ & _ & _ & Hstore & Hloc & _ & _
        & Hd & Hs & Hi & Hc).
  split_and!; try done.
  - rewrite Hstore. destruct (contains "smyths" (lower t));
      [by right; left|].
    destruct (contains "john lewis" (lower t)); [by do 2 right; left|by left].
  - rewrite Hloc.
    destruct (city_loop_range cities t
                (if contains "smyths" (lower t) then "UK Smyths Stores"
                 else "UK")) as [->|Hin].
    + destruct (contains "smyths" (lower t)); [by right; left|by left].
    + by do 2 right.
  - rewrite Hloc, Hstore.
    destruct (city_loop_range cities t
                (if contains "smyths" (lower t) then "UK Smyths Stores"
                 else "UK")) as [->|Hin].
    + by destruct (contains "smyths" (lower t)).
    + intros Heq. rewrite Heq in Hin. exfalso. unfold cities in Hin.
      repeat (apply elem_of_cons in Hin as [?|Hin]; [done|]).
      by apply elem_of_nil in Hin.
  - destruct Hshape as [?|(y & m & rest & Hdate & _ & _ & Hdisp)];
      [by left|right]. split; [|done]. rewrite Hdate.
    apply hyphen_not_TBA.
Qed.

(** X10 at a heading with Smyths and Glasgow. *)
Lemma scraped_event_fields_witness :
  let e :=
    {| title := "Free LEGO gift at Smyths Glasgow";
       location := "Glasgow"; date := "TBA"; date_display := "待公布";
       store := "Smyths Toys";
       description := "查看連結了解活動詳情"; source := "auto_scrape";
       url := ""; id_ := None; created_at := None |} in
  store e ∈ ["LEGO Store"; "Smyths Toys"; "John Lewis"] ∧
  location e ∈ "UK" :: "UK Smyths Stores" :: cities ∧
  (location e = "UK Smyths Stores" → store e = "Smyths Toys") ∧
  (date e = "TBA" ∧ date_display e = "待公布" ∨
   date e ≠ "TBA" ∧ date_display e = date e) ∧
  description e = "查看連結了解活動詳情" ∧ source e = "auto_scrape" ∧
  id_ e = None ∧ created_at e = None.
Proof.
  intros e.
  apply (scraped_event_fields 2026
           (mkArticle ["Free LEGO gift at Smyths Glasgow"] [] []) e).
  reflexivity.
Defined.

(** ** Dates written as [YYYY-MM-DD] *)

Local Open Scope Z_scope.

Lemma digit_value_char k : 0 ≤ k ≤ 9 → digit_value (digit_char k) = Some k.
Proof.
  intros Hk.
  assert (k = 0 ∨ k = 1 ∨ k = 2 ∨ k = 3 ∨ k = 4 ∨ k = 5 ∨ k = 6 ∨ k = 7
          ∨ k = 8 ∨ k = 9) as H by lia.
  repeat (destruct H as [->|H]; [reflexivity|]). by subst.
Qed.

Lemma digit_char_digit k : 0 ≤ k ≤ 9 → is_digit (digit_char k) = true.
Proof.
  intros Hk. eapply digit_value_Some. by apply digit_value_char.
Qed.

Lemma parse_two_digits n var p :
  0 ≤ n ≤ 99 →
  parse_digits 2 var (two_digits n +:+ p) = Some (var * 100 + n, p).
Proof.
  intros Hn. unfold two_digits. cbn [String.append].
  assert (0 ≤ n `div` 10 ≤ 9 ∧ 0 ≤ n `mod` 10 ≤ 9
          ∧ (var * 10 + n `div` 10) * 10 + n `mod` 10 = var * 100 + n)
    as (H1 & H2 & H3).
  { Z.div_mod_to_equations. lia. }
  rewrite (parse_digits_step _ _ _ _ _ (digit_value_char _ H1)),
    (parse_digits_step _ _ _ _ _ (digit_value_char _ H2)), parse_digits_0.
  by rewrite H3.
Qed.

Lemma parse_four_digits y p :
  0 ≤ y ≤ 9999 → parse_digits 4 0 (four_digits y +:+ p) = Some (y, p).
Proof.
  intros Hy. unfold four_digits, two_digits. cbn [String.append].
  assert (0 ≤ (y `div` 100) `div` 10 ≤ 9 ∧ 0 ≤ (y `div` 100) `mod` 10 ≤ 9
          ∧ 0 ≤ (y `mod` 100) `div` 10 ≤ 9 ∧ 0 ≤ (y `mod` 100) `mod` 10 ≤ 9
          ∧ (((0 * 10 + (y `div` 100) `div` 10) * 10
              + (y `div` 100) `mod` 10) * 10 + (y `mod` 100) `div` 10) * 10
            + (y `mod` 100) `mod` 10 = y)
    as (H1 & H2 & H3 & H4 & H5).
  { Z.div_mod_to_equations. lia. }
  rewrite (parse_digits_step _ _ _ _ _ (digit_value_char _ H1)),
    (parse_digits_step _ _ _ _ _ (digit_value_char _ H2)),
    (parse_digits_step _ _ _ _ _ (digit_value_char _ H3)),
    (parse_digits_step _ _ _ _ _ (digit_value_char _ H4)), parse_digits_0.
  by rewrite H5.
Qed.

Lemma fromisoformat_iso_date y m d :
  valid_date y m d = true →
  fromisoformat (iso_date y m d) = Some (mkDatetime y m d 0 0 0 0 None).
Proof.
  intros Hv. pose proof Hv as (Hy & Hm & Hd)%valid_date_bounds.
  pose proof (days_in_month_bounds y m) as Hdim.
  assert (0 ≤ m `div` 10 ≤ 9) as Hm1 by (Z.div_mod_to_equations; lia).
  pose proof (digit_no_mark _ (digit_char_digit _ Hm1)) as (_ & HW & _ & _).
  unfold fromisoformat.
  change (Z.of_nat (String.length (iso_date y m d))) with 10.
  change (10 <? 7) with false. cbv iota.
  assert (find_isoformat_datetime_separator (iso_date y m d) 10 = 10) as ->.
  { unfold find_isoformat_datetime_separator.
    change (10 =? 7) with false. cbv iota.
    change (char_at 4 (iso_date y m d)) with "-"%char.
    change (char_at 5 (iso_date y m d)) with (digit_char (m `div` 10)).
    rewrite (bool_decide_eq_true_2 ("-"%char = "-"%char)) by done.
    by rewrite bool_decide_eq_false_2 by done. }
  assert (parse_isoformat_date (iso_date y m d) 10 = Some (y, m, d)) as ->.
  { unfold parse_isoformat_date, iso_date.
    rewrite parse_four_digits by lia.
    cbn [mbind option_bind String.append peek drop_string].
    rewrite (bool_decide_eq_true_2 ("-"%char = "-"%char)) by done.
    change (peek (two_digits m +:+ String "-" (two_digits d)))
      with (digit_char (m `div` 10)).
    rewrite bool_decide_eq_false_2 by done.
    rewrite parse_two_digits by lia. cbn [mbind option_bind peek].
    rewrite (bool_decide_eq_true_2 ("-"%char = "-"%char)) by done.
    cbn [andb negb drop_string].
    rewrite <-(string_app_nil_r (two_digits d)), parse_two_digits by lia.
    done. }
  cbn [mbind option_bind]. change (10 <? 10) with false.
  cbn [mbind option_bind]. by rewrite Hv.
Qed.

(** A date written [YYYY-MM-DD] has a start at midnight in the zone. *)
Lemma start_of_iso_date event y m d :
  date event = iso_date y m d → valid_date y m d = true →
  start_of event = Some (london_midnight y m d).
Proof.
  intros Hdate Hv. apply start_of_spec.
  exists (mkDatetime y m d 0 0 0 0 None).
  rewrite Hdate. split_and!; try done. by apply fromisoformat_iso_date.
Qed.

Lemma two_hours_after_midnight y m d :
  datetime_add (london_midnight y m d) (timedelta_hours 2)
  = Ok (london_two y m d).
Proof. reflexivity. Qed.

Lemma iso_date_not_TBA y m d : iso_date y m d ≠ "TBA".
Proof. intros H. apply (f_equal String.length) in H. by simpl in H. Qed.

Local Close Scope Z_scope.

(** X11: an event of the catalog whose date is a day of the calendar
    written [YYYY-MM-DD], other than the first and the last day that a date
    can hold, yields a component of the batch export that starts at
    midnight of that day in the zone and ends at two o'clock; the export
    of a catalog that has such an event is a document, and the component
    is in it. *)
Theorem export_plain_date events event_id event y m d :
  date event = iso_date y m d → valid_date y m d = true →
  ¬ (y = 1 ∧ m = 1 ∧ d = 1)%Z → ¬ (y = 9999 ∧ m = 12 ∧ d = 31)%Z →
  let vevent :=
    batch_vevent event_id event (london_midnight y m d) (london_two y m d) in
  batch_component (event_id, event) = Some vevent ∧
  ((event_id, event) ∈ events →
   ∃ components,
     export_all_events events
     = reply_document
         (mkComponent "VCALENDAR"
            [("prodid", VText "-//LEGO Events UK//EN");
             ("version", VText "2.0")] components)
         "all_lego_events.ics"
         ("📅 已匯出 " +:+ str (length components) +:+ " 個活動！") ∧
     vevent ∈ components).
Proof.
  intros Hdate Hv Hfirst Hlast vevent.
  assert (batch_component (event_id, event) = Some vevent) as Hcomp.
  { apply batch_component_spec. cbn [fst snd]. split.
    - rewrite Hdate. apply iso_date_not_TBA.
    - exists (london_midnight y m d), (london_two y m d).
      split_and!; [by apply start_of_iso_date|reflexivity|done]. }
  split; [done|]. intros Hin.
  assert (vevent ∈ omap batch_component events) as Hv'.
  { apply list_elem_of_omap. by exists (event_id, event). }
  exists (omap batch_component events). split; [|done].
  unfold export_all_events. destruct events as [|item events].
  { by apply elem_of_nil in Hin. }
  rewrite foldl_batch_step.
  destruct (omap batch_component (item :: events)) as [|c cs] eqn:Hc.
  { by apply elem_of_nil in Hv'. }
  cbn [length Nat.add]. rewrite decide_False by done. reflexivity.
Qed.

(** X11 at the fifth of December 2025. *)
Lemma export_plain_date_witness :
  let event := dated_event "2025-12-05" in
  let vevent :=
    batch_vevent "auto_1" event (london_midnight 2025 12 5)
                 (london_two 2025 12 5) in
  batch_component ("auto_1", event) = Some vevent ∧
  (("auto_1", event) ∈ [("auto_1", event); ("auto_2", dated_event "TBA")] →
   ∃ components,
     export_all_events [("auto_1", event); ("auto_2", dated_event "TBA")]
     = reply_document
         (mkComponent "VCALENDAR"
            [("prodid", VText "-//LEGO Events UK//EN");
             ("version", VText "2.0")] components)
         "all_lego_events.ics"
         ("📅 已匯出 " +:+ str (length components) +:+ " 個活動！") ∧
     vevent ∈ components).
Proof.
  intros event.
  apply (export_plain_date
           [("auto_1", event); ("auto_2", dated_event "TBA")]
           "auto_1" event 2025 12 5).
  - reflexivity.
  - reflexivity.
  - intros (? & _). done.
  - intros (? & _). done.
Defined.


(** ** [replace] *)

(** The characters of an occurrence just found are passed over. *)
Lemma replace_from_pending old new w s :
  replace_from old new (String.length w) (w +:+ s) = replace_from old new 0 s.
Proof.
  induction w as [|c w IH]; simpl; [|done].
  destruct s; [done|]. reflexivity.
Qed.

(** The text after an occurrence at the head. *)
Lemma replace_from_head a old new s :
  replace_from (String a old) new 0 (String a old +:+ s)
  = new +:+ replace_from (String a old) new 0 s.
Proof.
  cbn [String.append replace_from].
  assert (startswith (String a old) (String a (old +:+ s)) = true) as ->.
  { apply startswith_spec. by exists s. }
  f_equal.
  replace (String.length (String a old) - 1) with (String.length old)
    by (simpl; lia).
  apply replace_from_pending.
Qed.

(** A text without an occurrence is left as it is. *)
Lemma replace_from_absent a old new s :
  contains (String a old) s = false → replace_from (String a old) new 0 s = s.
Proof.
  induction s as [|c s IH]; [done|].
  cbn [contains replace_from]. intros [Hs Hc]%orb_false_iff.
  rewrite Hs. f_equal. by apply IH.
Qed.

(** A text without the first character of [old] has no occurrence. *)
Lemma contains_first_char a old s :
  all_chars (λ c, negb (bool_decide (c = a))) s = true →
  contains (String a old) s = false.
Proof.
  induction s as [|c s IH]; [done|].
  cbn [all_chars contains startswith].
  intros [Hc Hs]%andb_true_iff. rewrite IH by done.
  apply negb_true_iff, bool_decide_eq_false in Hc.
  rewrite decide_False by done. done.
Qed.

Lemma all_chars_impl (p q : ascii → bool) s :
  (∀ c, p c = true → q c = true) →
  all_chars p s = true → all_chars q s = true.
Proof.
  intros Hpq. induction s as [|c s IH]; [done|]. simpl.
  intros [Hc Hs]%andb_true_iff. by rewrite (Hpq c Hc), IH.
Qed.

Lemma digit_no_slash c : is_digit c = true → negb (bool_decide (c = "/"%char)) = true.
Proof.
  intros Hc. apply negb_true_iff, bool_decide_eq_false. by intros ->.
Qed.

Lemma auto_id_no_command n : contains "/export_" (auto_id n) = false.
Proof.
  apply contains_first_char. unfold auto_id. rewrite all_chars_app.
  apply andb_true_iff. split; [done|].
  eapply all_chars_impl; [apply digit_no_slash|apply str_digits].
Qed.

(** The identifier that [export_event] reads from the command of a
    notification. *)
Lemma export_command_id event_id :
  contains "/export_" event_id = false →
  replace "/export_" "" ("/export_" +:+ event_id) = event_id.
Proof.
  intros Hid. unfold replace.
  rewrite (replace_from_head "/" "export_" "" event_id).
  by rewrite replace_from_absent.
Qed.

(** ** [export_event] *)

(** X12: [export_event] never sends a document.  For a command whose
    identifier, the text without every "/export_", is no key of the
    catalog the reply says that the event was not found; for every other
    command it says that the calendar file could not be made, because
    [create_ics_file] has no document for any event. *)
Theorem export_event_no_document command events_file :
  let event_id := replace "/export_" "" command in
  export_event command events_file
  = (if dict_in event_id (load_data events_file)
     then reply_text "❌ 無法生成日曆文件。"
     else reply_text "❌ 找不到這個活動！") ∧
  ∀ document filename caption,
    export_event command events_file
    ≠ reply_document document filename caption.
Proof.
  cbv zeta. unfold export_event, dict_in.
  destruct (dict_get _ (load_data events_file)) as [event|] eqn:Hget.
  - rewrite create_ics_file_None.
    rewrite bool_decide_eq_true_2 by done. by split.
  - rewrite bool_decide_eq_false_2 by (by intros [? ?]). by split.
Qed.

(** X13: the command in the notification of an added event leads back to
    that event.  Every event added by a merge has an identifier [auto_n];
    its notification ends with the command "/export_auto_n"; the
    identifier that [export_event] reads from this command is [auto_n], the
    catalog that the merge leaves has the added event under it, and the
    handler answers that the calendar file could not be made. *)
Theorem notification_command_round_trip clock stored l e :
  e ∈ (auto_scrape_task clock stored l).2 →
  let catalog := (auto_scrape_task clock stored l).1 in
  ∃ n text,
    id_ e = Some (auto_id n) ∧
    broadcast_message e = Ok (text +:+ "/export_" +:+ auto_id n) ∧
    replace "/export_" "" ("/export_" +:+ auto_id n) = auto_id n ∧
    dict_get (auto_id n) catalog = Some e ∧
    handle_export ("/export_" +:+ auto_id n) (save_data catalog)
    = Some (reply_text "❌ 無法生成日曆文件。").
Proof.
  intros (n & _ & Hid & Hget)%merge_added_in_catalog. cbv zeta.
  pose proof (export_command_id (auto_id n) (auto_id_no_command n)) as Hrep.
  exists n. unfold broadcast_message. rewrite Hid.
  eexists (_ +:+ (newline +:+ newline +:+ "📥 ")).
  split_and!; [done| |done|done|].
  - f_equal. etrans; [|symmetry; apply string_app_assoc]. reflexivity.
  - unfold handle_export.
    assert (startswith "/export_" ("/export_" +:+ auto_id n) = true) as ->.
    { apply startswith_spec. by eexists. }
    f_equal. unfold export_event. rewrite Hrep. cbn [load_data save_data].
    by rewrite Hget, create_ics_file_None.
Qed.

(** X13 at one candidate merged into the empty catalog. *)
Lemma notification_command_round_trip_witness :
  let clock := λ _ : nat, "2026-01-01T00:00:00" in
  let e := set_id_created (candidate "A") (auto_id 1) "2026-01-01T00:00:00" in
  let catalog := (auto_scrape_task clock [] [candidate "A"]).1 in
  ∃ n text,
    id_ e = Some (auto_id n) ∧
    broadcast_message e = Ok (text +:+ "/export_" +:+ auto_id n) ∧
    replace "/export_" "" ("/export_" +:+ auto_id n) = auto_id n ∧
    dict_get (auto_id n) catalog = Some e ∧
    handle_export ("/export_" +:+ auto_id n) (save_data catalog)
    = Some (reply_text "❌ 無法生成日曆文件。").
Proof.
  intros clock e.
  apply (notification_command_round_trip clock [] [candidate "A"] e).
  vm_compute. left.
Defined.


(** The three ways out at work: a date with an offset, eleven in the
    evening of the last day, and the fifth of December 2025, for which
    the block gets as far as the alarm; so it does for the first day and
    for midnight of the last. *)
Lemma create_ics_file_exits_examples ical_event :
  ics_try_block (dated_event "2025-12-05T10:00:00+00:00") ical_event
  = Raise ValueError ∧
  ics_try_block (dated_event "2025-December-5") ical_event
  = Raise ValueError ∧
  ics_try_block (dated_event "9999-12-31T23:00:00") ical_event
  = Raise OverflowError ∧
  ics_try_block (dated_event "2025-12-05") ical_event = Raise TypeError ∧
  ics_try_block (dated_event "0001-01-01") ical_event = Raise TypeError ∧
  ics_try_block (dated_event "9999-12-31") ical_event = Raise TypeError.
Proof.
  rewrite !ics_try_block_exit. split_and!; reflexivity.
Qed.


(** ** The order of strings *)

Lemma ascii_compare_lt_trans (a b c : ascii) :
  Ascii.compare a b = Lt → Ascii.compare b c = Lt → Ascii.compare a c = Lt.
Proof.
  unfold Ascii.compare. rewrite !N.compare_lt_iff. lia.
Qed.

Lemma string_compare_lt_trans (a b c : string) :
  String.compare a b = Lt → String.compare b c = Lt → String.compare a c = Lt.
Proof.
  revert b c. induction a as [|x a IH]; intros [|y b] [|z c]; simpl; try done.
  destruct (Ascii.compare x y) eqn:Hxy; try done;
    destruct (Ascii.compare y z) eqn:Hyz; try done.
  - apply Ascii.compare_eq_iff in Hxy as ->, Hyz as ->.
    rewrite (proj2 (N.compare_eq_iff _ _) eq_refl : Ascii.compare z z = Eq).
    apply IH.
  - apply Ascii.compare_eq_iff in Hxy as ->. by rewrite Hyz.
  - apply Ascii.compare_eq_iff in Hyz as ->. by rewrite Hxy.
  - by rewrite (ascii_compare_lt_trans x y z).
Qed.

Lemma str_lt_false_trans a b c :
  str_lt b a = false → str_lt c b = false → str_lt c a = false.
Proof.
  unfold str_lt, String.ltb. intros Hba Hcb.
  destruct (String.compare c a) eqn:Hca; try done. exfalso.
  destruct (String.compare b a) eqn:Hb; try done.
  - apply String.compare_eq_iff in Hb as ->. by rewrite Hca in Hcb.
  - destruct (String.compare c b) eqn:Hc; try done.
    + apply String.compare_eq_iff in Hc as ->. congruence.
    + rewrite String.compare_antisym in Hb, Hc, Hca.
      destruct (String.compare a b) eqn:Hab; try done.
      destruct (String.compare b c) eqn:Hbc; try done.
      rewrite (string_compare_lt_trans a b c) in Hca by done. done.
Qed.

Lemma str_lt_false_total a b : str_lt a b = false ∨ str_lt b a = false.
Proof.
  unfold str_lt, String.ltb. rewrite (String.compare_antisym a b).
  destruct (String.compare b a); simpl; auto.
Qed.

Lemma str_lt_irrefl a : str_lt a a = false.
Proof. destruct (str_lt_false_total a a); done. Qed.

(** ** [sorted] *)

Section sorting.
Context {A : Type} (key : A → string).
Implicit Types (x y : A) (l : list A).

Local Abbreviation le := (λ x y, str_lt (key y) (key x) = false).

Lemma insort_Permutation x l : insort key x l ≡ₚ x :: l.
Proof.
  induction l as [|y l IH]; simpl; [done|].
  destruct (str_lt (key y) (key x)); [|done].
  rewrite IH. apply Permutation_swap.
Qed.

Lemma sorted_Permutation l : sorted key l ≡ₚ l.
Proof.
  induction l as [|x l IH]; simpl; [done|].
  by rewrite insort_Permutation, IH.
Qed.

Lemma insort_sorted x l :
  StronglySorted le l → StronglySorted le (insort key x l).
Proof.
  induction 1 as [|y l Hs IH Hall]; simpl; [by repeat constructor|].
  destruct (str_lt (key y) (key x)) eqn:Hyx.
  - constructor; [done|]. rewrite insort_Permutation.
    constructor; [|done].
    destruct (str_lt_false_total (key x) (key y)); [done|congruence].
  - constructor; [by constructor|]. constructor; [done|].
    eapply Forall_impl; [exact Hall|]. simpl. intros z Hz.
    by eapply str_lt_false_trans.
Qed.

Lemma sorted_sorted l : StronglySorted le (sorted key l).
Proof.
  induction l as [|x l IH]; simpl; [constructor|]. by apply insort_sorted.
Qed.

(** The sort is stable: the elements with one key keep their order. *)
Lemma insort_filter k x l :
  StronglySorted le l →
  filter (λ y, key y = k) (insort key x l) = filter (λ y, key y = k) (x :: l).
Proof.
  induction 1 as [|y l Hs IH Hall]; simpl; [done|].
  destruct (str_lt (key y) (key x)) eqn:Hyx; [|done].
  destruct (decide (key y = k)) as [Hy|Hy].
  - rewrite (filter_cons_True _ y) by done. rewrite IH.
    destruct (decide (key x = k)) as [Hx|Hx].
    + exfalso. rewrite Hy, Hx, str_lt_irrefl in Hyx. done.
    + rewrite !(filter_cons_False _ x) by done.
      by rewrite filter_cons_True.
  - rewrite (filter_cons_False _ y) by done. rewrite IH.
    destruct (decide (key x = k)) as [Hx|Hx].
    + rewrite !(filter_cons_True _ x) by done.
      by rewrite filter_cons_False.
    + rewrite !(filter_cons_False _ x) by done.
      by rewrite filter_cons_False.
Qed.

Lemma sorted_stable k l :
  filter (λ y, key y = k) (sorted key l) = filter (λ y, key y = k) l.
Proof.
  induction l as [|x l IH]; simpl; [done|].
  rewrite insort_filter by apply sorted_sorted.
  destruct (decide (key x = k)).
  - rewrite !filter_cons_True by done. by rewrite IH.
  - rewrite !filter_cons_False by done. by rewrite IH.
Qed.
End sorting.

(** ** Characters *)

Lemma join_app (a b : list string) : join (a ++ b) = join a +:+ join b.
Proof.
  induction a as [|w a IH]; simpl; [done|].
  by rewrite IH, string_app_assoc.
Qed.

Lemma join_concat (L : list (list string)) :
  join (concat L) = join (join <$> L).
Proof.
  induction L as [|l L IH]; simpl; [done|]. by rewrite join_app, IH.
Qed.

Lemma join_chars s : join (chars s) = s.
Proof.
  induction s as [|c s IH]; simpl; [done|].
  destruct (chars s) as [|w ws]; simpl in *.
  - by rewrite <-IH.
  - destruct (continues s); simpl; by rewrite IH.
Qed.

Lemma chars_nil s : chars s = [] → s = "".
Proof. intros H. by rewrite <-(join_chars s), H. Qed.

Lemma continues_app w r : w ≠ "" → continues (w +:+ r) = continues w.
Proof. by destruct w. Qed.

Lemma is_char_ne w : is_char w → w ≠ "".
Proof. by intros (c & t & -> & _). Qed.

Lemma chars_wf_chars s : chars_wf (chars s).
Proof.
  induction s as [|c s [IH1 IH2]]; simpl; [by split|].
  pose proof (join_chars s) as Hj.
  destruct (chars s) as [|w ws]; simpl in *.
  { split; [|done]. constructor; [|done]. by exists c, "". }
  apply Forall_cons in IH1 as [Hw Hws].
  assert (continues s = continues w) as ->.
  { rewrite <-Hj. apply continues_app. by apply is_char_ne. }
  destruct (continues w) eqn:Hc.
  - split; [|done]. constructor; [|done].
    destruct Hw as (c' & t & -> & Ht). exists c, (String c' t).
    split; [done|]. simpl in *. by rewrite Hc.
  - split; [|by constructor]. constructor; [by exists c, ""|].
    by constructor.
Qed.

Lemma chars_continuation c t r :
  all_chars is_continuation t = true → continues r = false →
  chars (String c (t +:+ r)) = String c t :: chars r.
Proof.
  revert c. induction t as [|c' t IH]; intros c Ht Hr.
  - simpl. rewrite Hr. by destruct (chars r).
  - simpl in Ht. apply andb_true_iff in Ht as [Hc' Ht].
    change (chars (String c (String c' t +:+ r)))
      with (match chars (String c' (t +:+ r)) with
            | w :: ws =>
                if continues (String c' (t +:+ r)) then String c w :: ws
                else String c "" :: w :: ws
            | [] => [String c ""]
            end).
    rewrite IH by done. simpl. by rewrite Hc'.
Qed.

Lemma chars_join ws : chars_wf ws → chars (join ws) = ws.
Proof.
  induction ws as [|w ws IH]; intros [H1 H2]; [done|].
  apply Forall_cons in H1 as [(c & t & -> & Ht) Hws]. simpl in H2.
  assert (chars_wf ws) as Hwf.
  { split; [done|]. destruct ws; [done|]. by apply Forall_cons in H2 as [_ ?]. }
  simpl. change (chars (String c (t +:+ join ws)) = String c t :: ws).
  rewrite chars_continuation; [by rewrite IH|done|].
  destruct ws as [|w' ws']; [done|]. apply Forall_cons in H2 as [Hw' _].
  apply Forall_cons in Hws as [Hc' _]. simpl.
  rewrite continues_app; [done|by apply is_char_ne].
Qed.

Lemma chars_wf_tail w ws : chars_wf (w :: ws) → chars_wf ws.
Proof.
  intros [[_ H1]%Forall_cons H2]. split; [done|].
  simpl in H2. destruct ws; [done|]. by apply Forall_cons in H2 as [_ ?].
Qed.

Lemma chars_wf_drop i ws : chars_wf ws → chars_wf (drop i ws).
Proof.
  revert ws. induction i as [|i IH]; intros ws Hwf; [by rewrite drop_0|].
  destruct ws as [|w ws]; [done|]. simpl. by eapply IH, chars_wf_tail.
Qed.

Lemma chars_wf_take n ws : chars_wf ws → chars_wf (take n ws).
Proof.
  intros [H1 H2]. split; [by apply Forall_take|].
  destruct n as [|n], ws as [|w ws]; simpl; try done.
  simpl in H2. destruct n, ws; simpl; try done.
  apply Forall_cons in H2 as [? H2]. constructor; [done|].
  by apply Forall_take.
Qed.

(** The length of a slice. *)
Lemma len_str_slice i j s :
  len (str_slice i j s) = length (take (j - i) (drop i (chars s))).
Proof.
  unfold len, str_slice. rewrite chars_join; [done|].
  apply chars_wf_take, chars_wf_drop, chars_wf_chars.
Qed.

Lemma len_0 s : len s = 0 → s = "".
Proof. unfold len. intros H. apply chars_nil. by destruct (chars s). Qed.

(** ** The pieces of a list *)

Lemma concat_pieces {A} n m (l : list A) :
  length l ≤ m * n →
  concat ((λ k, take n (drop (k * n) l)) <$> seq 0 m) = l.
Proof.
  revert l. induction m as [|m IH]; intros l Hl.
  { simpl in *. by destruct l; [|simpl in Hl; lia]. }
  cbn [seq fmap list_fmap concat].
  trans (take n l ++ drop n l); [|apply take_drop].
  f_equal.
  rewrite <-fmap_S_seq, <-list_fmap_compose.
  rewrite <-(IH (drop n l)) by (rewrite length_drop; lia).
  f_equal. apply list_fmap_ext. intros _ k _. simpl.
  by rewrite drop_drop.
Qed.

Lemma div_up_bounds len n :
  0 < n →
  len ≤ ((len + n - 1) `div` n) * n ∧ ((len + n - 1) `div` n) * n < len + n.
Proof.
  intros Hn. pose proof (Nat.div_mod_eq (len + n - 1) n) as Hdm.
  pose proof (Nat.mod_upper_bound (len + n - 1) n) as Hmod.
  set (q := (len + n - 1) `div` n) in *.
  set (r := (len + n - 1) `mod` n) in *.
  rewrite (Nat.mul_comm q n). generalize dependent (n * q). intros p Hp.
  lia.
Qed.

(** The pieces of [chunks] put together are the message, and every piece
    has from one to 4000 characters. *)
Lemma join_chunks message : join (chunks message) = message.
Proof.
  unfold chunks, range_step. rewrite <-list_fmap_compose.
  rewrite (list_fmap_ext _ (join ∘ (λ k, take 4000 (drop (k * 4000)
                                             (chars message))))).
  2:{ intros _ k _. simpl. unfold str_slice. do 2 f_equal.
      by rewrite Nat.add_comm, Nat.add_sub. }
  rewrite list_fmap_compose, <-join_concat.
  rewrite concat_pieces; [apply join_chars|].
  apply div_up_bounds. lia.
Qed.

Lemma chunks_len message :
  Forall (λ r, 1 ≤ len r ≤ 4000) (chunks message).
Proof.
  unfold chunks, range_step. rewrite <-list_fmap_compose.
  apply Forall_fmap, Forall_forall. intros k Hk%elem_of_seq. simpl.
  rewrite len_str_slice, Nat.add_comm, Nat.add_sub.
  rewrite length_take, length_drop. fold (len message).
  destruct (div_up_bounds (len message) 4000) as [_ Hup]; [lia|].
  assert (S k ≤ (len message + 4000 - 1) `div` 4000) as Hle by lia.
  apply (Nat.mul_le_mono_r _ _ 4000) in Hle.
  revert Hle Hup. generalize ((len message + 4000 - 1) `div` 4000 * 4000).
  intros p. rewrite Nat.mul_succ_l. generalize (k * 4000). intros q. lia.
Qed.

(** ** [list_events] *)

Lemma list_round_block message item :
  list_round message item = message +:+ event_block item.
Proof.
  destruct item as [event_id event]. unfold event_block, list_round.
  destruct (url event); rewrite !string_app_assoc; reflexivity.
Qed.

Lemma foldl_list_round message items :
  foldl list_round message items
  = message +:+ join (event_block <$> items).
Proof.
  revert message. induction items as [|item items IH]; intros message; simpl.
  { by rewrite string_app_nil_r. }
  by rewrite IH, list_round_block, string_app_assoc.
Qed.

Lemma list_message_blocks events :
  list_message events
  = list_header +:+ join (event_block <$> take 10 (sorted sort_key events)).
Proof. unfold list_message. by rewrite foldl_list_round. Qed.

Lemma list_message_len events : 1 ≤ len (list_message events).
Proof.
  destruct (len (list_message events)) eqn:Hlen; [|lia].
  apply len_0 in Hlen. by rewrite list_message_blocks in Hlen.
Qed.

(** X14: [list_events] shows the ten entries of the catalog with the
    smallest dates, as strings, in ascending order of the date; entries
    with the same date keep the order they have in the catalog.  The
    message is the header followed by the lines of the shown entries; the
    entries of the catalog are the shown and the hidden ones, and no
    hidden entry has a smaller date than a shown one. *)
Theorem list_events_order events :
  ∃ shown hidden,
    list_message events = list_header +:+ join (event_block <$> shown) ∧
    length shown = min 10 (length events) ∧
    shown ++ hidden ≡ₚ events ∧
    StronglySorted date_le (shown ++ hidden) ∧
    ∀ d, filter (λ x, date x.2 = d) (shown ++ hidden)
         = filter (λ x, date x.2 = d) events.
Proof.
  exists (take 10 (sorted sort_key events)), (drop 10 (sorted sort_key events)).
  rewrite take_drop. split_and!.
  - apply list_message_blocks.
  - rewrite length_take, (Permutation_length (sorted_Permutation sort_key events)).
    done.
  - apply sorted_Permutation.
  - apply (sorted_sorted sort_key).
  - intros d. apply (sorted_stable sort_key).
Qed.

(** X15: the replies of [list_events].  For an empty catalog there is one
    reply, which says that there are no events.  Otherwise the replies put
    together are the message, there is at least one, and every reply has
    from one to 4000 characters. *)
Theorem list_events_replies events_file :
  let replies := list_events events_file in
  1 ≤ length replies ∧
  Forall (λ r, 1 ≤ len r ≤ 4000) replies ∧
  match load_data events_file with
  | [] => replies = [no_events_text]
  | _ :: _ => join replies = list_message (load_data events_file)
  end.
Proof.
  cbv zeta. unfold list_events.
  destruct (load_data events_file) as [|item events].
  { split_and!; [done| |done]. constructor; [|done].
    split; apply Nat.leb_le; vm_compute; reflexivity. }
  set (message := list_message (item :: events)).
  pose proof (list_message_len (item :: events)) as Hlen. fold message in Hlen.
  destruct (4000 <? len message) eqn:Hcut.
  - apply Nat.ltb_lt in Hcut. split_and!.
    + pose proof (join_chunks message) as Hj.
      destruct (chunks message); [|simpl; lia].
      simpl in Hj. rewrite <-Hj in Hlen. by vm_compute in Hlen.
    + apply chunks_len.
    + apply join_chunks.
  - apply Nat.ltb_ge in Hcut. split_and!; [done| |].
    + by constructor.
    + simpl. by rewrite string_app_nil_r.
Qed.


(** ** [str] and [int] on the identifiers of the users *)

Lemma pretty_N_go_app x s : pretty_N_go x s = pretty_N_go x "" +:+ s.
Proof.
  revert s. induction (N.lt_wf_0 x) as [x _ IH]; intros s.
  destruct (decide (x = 0)%N) as [->|Hx]; [by rewrite !pretty_N_go_0|].
  rewrite !(pretty_N_go_step x) by lia.
  rewrite (IH (x `div` 10)%N) by (apply N.div_lt; lia).
  rewrite (IH (x `div` 10)%N ltac:(apply N.div_lt; lia) (String _ "")).
  by rewrite string_app_assoc.
Qed.

Lemma int_digits_app acc a b :
  int_digits acc (a +:+ b) = int_digits acc a ≫= λ v, int_digits v b.
Proof.
  revert acc. induction a as [|c a IH]; intros acc; simpl; [done|].
  destruct (digit_value c) as [d|]; simpl; [apply IH|done].
Qed.

Lemma digit_value_pretty k :
  (k < 10)%N → digit_value (pretty_N_char k) = Some (Z.of_N k).
Proof.
  intros Hk.
  assert (k = 0 ∨ k = 1 ∨ k = 2 ∨ k = 3 ∨ k = 4 ∨ k = 5 ∨ k = 6 ∨ k = 7
          ∨ k = 8 ∨ k = 9)%N as H by lia.
  repeat (destruct H as [->|H]; [reflexivity|]). by subst.
Qed.

Lemma int_digits_pretty x :
  int_digits 0 (pretty_N_go x "") = Some (Z.of_N x).
Proof.
  induction (N.lt_wf_0 x) as [x _ IH].
  destruct (decide (x = 0)%N) as [->|Hx]; [done|].
  rewrite pretty_N_go_step by lia. rewrite pretty_N_go_app, int_digits_app.
  rewrite IH by (apply N.div_lt; lia). simpl.
  rewrite digit_value_pretty by (apply N.mod_lt; lia). simpl. f_equal.
  pose proof (N.div_mod x 10). lia.
Qed.

Lemma int_tail_digits acc s :
  all_chars is_digit s = true → int_tail acc s = int_digits acc s.
Proof.
  revert acc. induction s as [|c s IH]; intros acc; simpl; [done|].
  intros [Hc Hs]%andb_true_iff. unfold digit_value at 1 3. rewrite Hc.
  simpl. by apply IH.
Qed.

(** [int] on a string of digits, and on one with a minus sign. *)
Lemma int_str_digit_head c s :
  is_digit c = true →
  int_str (String c s)
  = match int_tail (Z.of_nat (nat_of_ascii c) - 48) s with
    | Some n => Ok (1 * n)%Z
    | None => Raise ValueError
    end.
Proof.
  intros Hc. destruct c as [[] [] [] [] [] [] [] []]; try done.
Qed.

Lemma int_str_minus c s :
  is_digit c = true →
  int_str (String "-" (String c s))
  = match int_tail (Z.of_nat (nat_of_ascii c) - 48) s with
    | Some n => Ok (-1 * n)%Z
    | None => Raise ValueError
    end.
Proof.
  intros Hc. unfold int_str. cbn [skip]. 
  replace (is_int_space "-") with false by done. cbv iota beta.
  unfold digit_value. by rewrite Hc.
Qed.

Lemma int_str_digits c s n :
  all_chars is_digit (String c s) = true →
  int_digits 0 (String c s) = Some n →
  int_str (String c s) = Ok n ∧ int_str (String "-" (String c s)) = Ok (- n)%Z.
Proof.
  simpl. intros [Hc Hs]%andb_true_iff.
  unfold digit_value. rewrite Hc. simpl. intros Hn.
  rewrite int_str_digit_head, int_str_minus by done.
  rewrite int_tail_digits by done.
  replace (Z.of_nat (nat_of_ascii c) - 48)%Z
    with (0 * 10 + (Z.of_nat (nat_of_ascii c) - 48))%Z by lia.
  rewrite Hn. split; f_equal; lia.
Qed.

Lemma pretty_N_go_digits_head x :
  (0 < x)%N → ∃ c s, pretty_N_go x "" = String c s.
Proof.
  intros Hx. destruct (pretty_N_go x "") as [|c s] eqn:E; [|by eexists _, _].
  pose proof (int_digits_pretty x) as H. rewrite E in H. simpl in H.
  injection H as H. lia.
Qed.

(** [int(str(n))] is [n]. *)
Lemma int_str_str_Z n : int_str (str_Z n) = Ok n.
Proof.
  unfold str_Z, pretty, pretty_Z. destruct n as [|p|p]; [done|..].
  - unfold pretty, pretty_positive, pretty, pretty_N.
    rewrite decide_False by done.
    destruct (pretty_N_go_digits_head (N.pos p)) as (c & s & E); [lia|].
    pose proof (int_digits_pretty (N.pos p)) as Hn.
    pose proof (pretty_N_go_digits (N.pos p) "" eq_refl) as Hd.
    rewrite E in *. by apply int_str_digits.
  - unfold pretty, pretty_positive, pretty, pretty_N.
    rewrite decide_False by done.
    destruct (pretty_N_go_digits_head (N.pos p)) as (c & s & E); [lia|].
    pose proof (int_digits_pretty (N.pos p)) as Hn.
    pose proof (pretty_N_go_digits (N.pos p) "" eq_refl) as Hd.
    rewrite E in *. simpl String.append.
    by destruct (int_str_digits c s _ Hd Hn) as [_ ->].
Qed.

(** ** The users file *)

Lemma dict_in_keys {V} k (d : PyDict V) : dict_in k d = true ↔ k ∈ d.*1.
Proof.
  unfold dict_in. rewrite bool_decide_eq_true.
  destruct (dict_get k d) as [v|] eqn:Hget.
  - split; [|by eauto]. intros _.
    apply dict_get_Some_elem in Hget. apply list_elem_of_fmap. by exists (k, v).
  - split; [by intros [? ?]|]. intros Hin.
    by apply dict_get_None_keys in Hget.
Qed.

Lemma dict_in_false {V} k (d : PyDict V) : dict_in k d = false ↔ dict_get k d = None.
Proof.
  unfold dict_in. rewrite bool_decide_eq_false.
  destruct (dict_get k d) as [v|]; split; try done.
  intros H. destruct H. by eexists.
Qed.

Lemma dict_set_set {V} k (v v' : V) d :
  dict_set k v (dict_set k v' d) = dict_set k v d.
Proof.
  induction d as [|[k0 v0] d IH]; simpl.
  { by rewrite decide_True. }
  case_decide as Hk; simpl.
  - by rewrite decide_True.
  - rewrite decide_False by done. by rewrite IH.
Qed.

Lemma dict_set_same {V} k (v : V) d :
  dict_get k d = Some v → dict_set k v d = d.
Proof.
  induction d as [|[k0 v0] d IH]; simpl; [done|].
  case_decide as Hk.
  - intros [= ->]. by subst.
  - intros Hget. by rewrite IH.
Qed.

(** X16: [start] registers a user once.  Afterwards the user is in the
    file, with the record the file had for this user, or with the record of
    a new user; the records of the other users are as before; for a user
    who was in the file the file is not written; and a second [start]
    changes nothing. *)
Theorem start_registers_once effective_user_id users_file :
  let user_id := str_Z effective_user_id in
  let after := (start effective_user_id users_file).1 in
  dict_get user_id (load_data after)
  = Some (found_user effective_user_id users_file) ∧
  (∀ k, k ≠ user_id →
        dict_get k (load_data after) = dict_get k (load_data users_file)) ∧
  (is_Some (dict_get user_id (load_data users_file)) → after = users_file) ∧
  (start effective_user_id after).1 = after.
Proof.
  cbv zeta. unfold start, found_user. cbn [fst].
  destruct (dict_in (str_Z effective_user_id) (load_data users_file)) eqn:Hin.
  - pose proof Hin as Hin'. unfold dict_in in Hin'.
    apply bool_decide_eq_true in Hin' as [u Hu].
    rewrite Hu, Hin. simpl. by split_and!.
  - pose proof Hin as Hnone%dict_in_false. rewrite Hnone.
    cbn [load_data save_data default]. split_and!.
    + apply dict_get_set_eq.
    + intros k Hk. by apply dict_get_set_ne.
    + by intros [? ?].
    + assert (dict_in (str_Z effective_user_id)
                (dict_set (str_Z effective_user_id) new_user
                   (load_data users_file)) = true) as ->; [|done].
      unfold dict_in. apply bool_decide_eq_true.
      rewrite dict_get_set_eq. by eexists.
Qed.

(** ** [button_callback] *)

Section button.
Variable answer : Exc ().
Variable edit_message_text : string → Exc ().
Variable from_user_id : Z.
Variable data : string.
Variable users_file : File User.

Local Abbreviation user_id := (str_Z from_user_id).
Local Abbreviation users := (load_data users_file).
Local Abbreviation users' :=
  (if dict_in user_id users then users else dict_set user_id new_user users).
Local Abbreviation after :=
  (button_callback answer edit_message_text from_user_id data users_file).1.

Lemma found_user_get :
  dict_get user_id users' = Some (found_user from_user_id users_file).
Proof.
  unfold found_user.
  destruct (dict_in user_id users) eqn:Hin.
  - unfold dict_in in Hin. apply bool_decide_eq_true in Hin as [u Hu].
    by rewrite Hu.
  - apply dict_in_false in Hin. rewrite Hin. apply dict_get_set_eq.
Qed.

(** The file is left as it was, or written with the user as the button
    leaves it. *)
Lemma button_callback_cases :
  after = users_file ∨
  (after
   = Some (dict_set user_id (pressed_user from_user_id data users_file)
             users') ∧
   answer = Ok () ∧ startswith "sub_" data = true ∧
   ∃ text, edit_message_text text = Ok ()).
Proof.
  unfold button_callback. destruct answer as [e|[]]; [by left|].
  destruct (startswith "sub_" data); [|by left].
  rewrite found_user_get. unfold pressed_user.
  destruct (decide (replace "sub_" "" data = "all")) as [Hall|Hall].
  - destruct (edit_message_text _) as [|[]] eqn:He; [by left|right].
    split_and!; try done. by eexists.
  - destruct (edit_message_text _) as [|[]] eqn:He; [by left|right].
    split_and!; try done. by eexists.
Qed.

Lemma users'_other k :
  k ≠ user_id → dict_get k users' = dict_get k users.
Proof.
  intros Hk. destruct (dict_in user_id users); [done|].
  by apply dict_get_set_ne.
Qed.

Lemma pressed_user_distinct :
  NoDup (locations (found_user from_user_id users_file)) →
  NoDup (locations (pressed_user from_user_id data users_file)).
Proof.
  intros Hnd. unfold pressed_user. case_decide.
  { simpl. apply NoDup_singleton. }
  case_bool_decide as Hin; [done|]. simpl.
  apply NoDup_app. split_and!; [done| |apply NoDup_singleton].
  intros x Hx ->%list_elem_of_singleton. done.
Qed.

Lemma found_user_distinct :
  locations_distinct users_file →
  NoDup (locations (found_user from_user_id users_file)).
Proof.
  intros Hd. unfold found_user.
  destruct (dict_get user_id users) as [u|] eqn:Hu; simpl.
  - by eapply Hd.
  - constructor.
Qed.
End button.

(** X17: what [button_callback] keeps.  The records of the other users
    are as before; the user who pressed keeps the subscription flag and the
    reminders; when no user of the file has a location twice, this is so
    afterwards; unless the button is the one for all locations, the
    locations the user had are kept, in their order; and the file is as
    before unless the two calls to Telegram returned and the data of the
    button starts with "sub_". *)
Theorem button_callback_keeps answer edit_message_text from_user_id data
    users_file :
  let user_id := str_Z from_user_id in
  let after :=
    (button_callback answer edit_message_text from_user_id data users_file).1 in
  (∀ k, k ≠ user_id →
        dict_get k (load_data after) = dict_get k (load_data users_file)) ∧
  (∀ user user',
     dict_get user_id (load_data users_file) = Some user →
     dict_get user_id (load_data after) = Some user' →
     subscribed user' = subscribed user ∧ reminders user' = reminders user ∧
     (replace "sub_" "" data ≠ "all" →
      ∃ more, locations user' = locations user ++ more)) ∧
  (locations_distinct users_file → locations_distinct after) ∧
  (after ≠ users_file →
   answer = Ok () ∧ startswith "sub_" data = true ∧
   ∃ text, edit_message_text text = Ok ()).
Proof.
  cbv zeta.
  destruct (button_callback_cases answer edit_message_text from_user_id data
              users_file) as [->|(Hafter & Hanswer & Hsub & Hedit)].
  { split_and!; try done.
    - intros user user' Hu Hu'. rewrite Hu in Hu'. injection Hu' as <-.
      split_and!; try done. intros _. exists []. by rewrite app_nil_r. }
  rewrite Hafter. cbn [load_data]. split_and!.
  - intros k Hk. rewrite dict_get_set_ne by done. by apply users'_other.
  - intros user user' Hu. rewrite dict_get_set_eq. intros [= <-].
    unfold pressed_user, found_user. rewrite Hu. simpl.
    case_decide as Hall; [by split_and!|].
    case_bool_decide; simpl; split_and!; try done; intros _.
    + exists []. by rewrite app_nil_r.
    + by eexists.
  - intros Hd k u. cbn [load_data].
    destruct (decide (k = str_Z from_user_id)) as [->|Hk].
    + rewrite dict_get_set_eq. intros [= <-].
      by apply pressed_user_distinct, found_user_distinct.
    + rewrite dict_get_set_ne by done. rewrite users'_other by done.
      apply Hd.
  - intros _. by split_and!.
Qed.

Lemma button_callback_eq answer edit_message_text from_user_id data users_file :
  button_callback answer edit_message_text from_user_id data users_file
  = match answer with
    | Raise e => (users_file, Raise e)
    | Ok _ =>
        if startswith "sub_" data then
          match edit_message_text (button_text data) with
          | Raise e => (users_file, Raise e)
          | Ok _ =>
              (Some (dict_set (str_Z from_user_id)
                       (pressed_user from_user_id data users_file)
                       (if dict_in (str_Z from_user_id) (load_data users_file)
                        then load_data users_file
                        else dict_set (str_Z from_user_id) new_user
                               (load_data users_file))),
               Ok ())
          end
        else (users_file, Ok ())
    end.
Proof.
  unfold button_callback. destruct answer as [e|[]]; [done|].
  destruct (startswith "sub_" data); [|done].
  rewrite found_user_get. unfold pressed_user, button_text.
  by destruct (decide (replace "sub_" "" data = "all")).
Qed.

Lemma set_locations_same user : set_locations user (locations user) = user.
Proof. by destruct user. Qed.

Lemma pressed_user_location from_user_id data users_file :
  replace "sub_" "" data
  ∈ locations (pressed_user from_user_id data users_file).
Proof.
  unfold pressed_user. case_decide as Hall.
  { rewrite Hall. simpl. by left. }
  case_bool_decide; [done|]. simpl. apply elem_of_app. right. by left.
Qed.

(** X18: a button pressed twice.  After [button_callback] has written the
    file, the location of the button is among the locations of the user,
    and the same button pressed again leaves the file as it is. *)
Theorem button_callback_twice answer edit_message_text from_user_id data
    users_file :
  let press := button_callback answer edit_message_text from_user_id data in
  (press (press users_file).1).1 = (press users_file).1 ∧
  ((press users_file).1 ≠ users_file →
   ∃ locations,
     locations_of (str_Z from_user_id) (press users_file).1 = Some locations ∧
     replace "sub_" "" data ∈ locations).
Proof.
  cbv zeta. rewrite !button_callback_eq.
  destruct answer as [e|[]]; [done|].
  destruct (startswith "sub_" data); [|done].
  destruct (edit_message_text (button_text data)) as [e|[]] eqn:He.
  { done. }
  cbn [fst load_data].
  set (users' := if dict_in _ _ then _ else _).
  set (pu := pressed_user from_user_id data users_file).
  assert (dict_in (str_Z from_user_id)
            (dict_set (str_Z from_user_id) pu users') = true) as ->.
  { unfold dict_in. apply bool_decide_eq_true. rewrite dict_get_set_eq.
    by eexists. }
  assert (pressed_user from_user_id data
            (Some (dict_set (str_Z from_user_id) pu users')) = pu) as ->.
  { unfold pressed_user at 1, found_user. cbn [load_data].
    rewrite dict_get_set_eq. cbn [default].
    pose proof (pressed_user_location from_user_id data users_file) as Hloc.
    fold pu in Hloc. case_decide as Hall.
    - unfold pu, pressed_user. by rewrite decide_True.
    - by rewrite bool_decide_eq_true_2. }
  split; [by rewrite dict_set_set|]. intros _.
  exists (locations pu). split; [|apply pressed_user_location].
  unfold locations_of. cbn [load_data]. by rewrite dict_get_set_eq.
Qed.

(** ** The identifiers in the users file *)

Lemma str_Z_inj : Inj (=) (=) str_Z.
Proof. intros a b H. by apply (inj pretty) in H. Qed.

Lemma registered_in ids users_file id :
  registered ids users_file →
  dict_in (str_Z id) (load_data users_file) = bool_decide (id ∈ ids).
Proof.
  intros Hreg.
  destruct (dict_in (str_Z id) (load_data users_file)) eqn:Hin; symmetry.
  - apply dict_in_keys in Hin. rewrite Hreg in Hin.
    apply list_elem_of_fmap in Hin as (id' & ->%str_Z_inj & Hin).
    by apply bool_decide_eq_true.
  - apply bool_decide_eq_false. intros Hid.
    assert (dict_in (str_Z id) (load_data users_file) = true); [|congruence].
    apply dict_in_keys. rewrite Hreg. apply list_elem_of_fmap. by exists id.
Qed.

Lemma registered_with_id ids users_file id user :
  registered ids users_file →
  registered (with_id ids id)
    (Some (dict_set (str_Z id) user
             (if dict_in (str_Z id) (load_data users_file)
              then load_data users_file
              else dict_set (str_Z id) new_user (load_data users_file)))).
Proof.
  intros Hreg. unfold registered, with_id. cbn [load_data].
  rewrite (registered_in ids users_file id Hreg).
  case_bool_decide as Hid.
  - rewrite dict_set_keys_present; [done|].
    rewrite Hreg. apply list_elem_of_fmap. by exists id.
  - assert (str_Z id ∉ (load_data users_file).*1) as Hfresh.
    { rewrite Hreg. intros (id' & ->%str_Z_inj & ?)%list_elem_of_fmap. done. }
    rewrite dict_set_keys_present.
    + rewrite dict_set_keys_fresh by done. by rewrite Hreg, fmap_app.
    + rewrite dict_set_keys_fresh by done. apply elem_of_app. right. by left.
Qed.

(** X19: the handlers keep the keys of the users file the identifiers of
    the users.  When the keys of the file are the identifiers [ids] as
    [str] writes them, then after [start] they are those of [ids] and the
    user who sent the command, once and in the order of arrival, and
    [button_callback] leaves the file as it is or with these keys. *)
Theorem handlers_keep_ids ids user_id users_file :
  registered ids users_file →
  registered (with_id ids user_id) (start user_id users_file).1 ∧
  ∀ answer edit_message_text data,
    let after :=
      (button_callback answer edit_message_text user_id data users_file).1 in
    after = users_file ∨ registered (with_id ids user_id) after.
Proof.
  intros Hreg. split.
  - unfold start. cbn [fst]. unfold registered, with_id.
    rewrite (registered_in ids users_file user_id Hreg).
    case_bool_decide as Hid; [done|]. cbn [save_data load_data].
    rewrite dict_set_keys_fresh; [by rewrite Hreg, fmap_app|].
    rewrite Hreg. intros (id' & ->%str_Z_inj & ?)%list_elem_of_fmap. done.
  - intros answer edit data. cbv zeta. rewrite button_callback_eq.
    destruct answer as [e|[]]; [by left|].
    destruct (startswith "sub_" data); [|by left].
    destruct (edit (button_text data)) as [e|[]]; [by left|right].
    by apply registered_with_id.
Qed.

(** X19 at a users file that is not there. *)
Lemma handlers_keep_ids_witness :
  registered (with_id [] 42%Z) (start 42%Z None).1 ∧
  ∀ answer edit_message_text data,
    let after :=
      (button_callback answer edit_message_text 42%Z data None).1 in
    after = None ∨ registered (with_id [] 42%Z) after.
Proof. apply (handlers_keep_ids [] 42%Z None). reflexivity. Defined.

(** ** [broadcast_new_event] *)

Lemma foldl_send_round message calls ids :
  foldl (send_round message) calls (str_Z <$> ids)
  = calls ++ ((λ id, (id, message)) <$> ids).
Proof.
  revert calls. induction ids as [|id ids IH]; intros calls; simpl.
  { by rewrite app_nil_r. }
  rewrite IH. unfold send_round. rewrite int_str_str_Z.
  by rewrite <-app_assoc.
Qed.

(** X20: a new event is sent to every user of the file.  When the keys of
    the users file are the identifiers [ids] as [str] writes them and the
    event has an identifier, [broadcast_new_event] calls [send_message]
    once for each of [ids], in the order of the file, with the identifier
    as [chat_id] and the same text for all. *)
Theorem broadcast_reaches_users ids users_file event message :
  registered ids users_file →
  broadcast_message event = Ok message →
  broadcast_new_event users_file event
  = Ok ((λ id, (id, message)) <$> ids).
Proof.
  intros Hreg Hm. unfold broadcast_new_event. rewrite Hm. simpl.
  by rewrite Hreg, foldl_send_round.
Qed.

(** X20 at the file that two calls of [start] leave. *)
Lemma broadcast_reaches_users_witness :
  ∃ message,
    broadcast_message (set_id_created (candidate "A") "auto_1" "now")
    = Ok message ∧
    broadcast_new_event (start 42%Z (start 7%Z None).1).1
      (set_id_created (candidate "A") "auto_1" "now")
    = Ok ((λ id, (id, message)) <$> [7%Z; 42%Z]).
Proof.
  eexists. split; [reflexivity|].
  apply (broadcast_reaches_users [7%Z; 42%Z]
           (start 42%Z (start 7%Z None).1).1
           (set_id_created (candidate "A") "auto_1" "now")).
  - reflexivity.
  - reflexivity.
Defined.

(** ** [manual_scrape] *)

Lemma scrape_task_merge year clock fetched events_file :
  let result := scrape_task year clock fetched events_file in
  (load_data result.1, result.2)
  = auto_scrape_task clock (load_data events_file)
      (scrape_lego_news year fetched) ∧
  (result.2 = [] → result.1 = events_file).
Proof.
  cbv zeta. unfold scrape_task, auto_scrape_task.
  destruct (scrape_lego_news year fetched) as [|c l]; [done|].
  pose proof (merge_added_count clock (load_data events_file) (c :: l)) as Hc.
  case_decide as Hnew; cbn [fst snd load_data save_data]; split; try done.
  intros Hb. rewrite Hb in Hc. simpl in Hc. lia.
Qed.

Lemma scrape_lego_news_length year fetched :
  length (scrape_lego_news year fetched) ≤ 5.
Proof.
  destruct fetched as [|status articles]; [simpl; lia|].
  destruct (decide (status = 200)) as [->|Hs].
  - rewrite scrape_lego_news_200. etrans; [apply omap_length_le|].
    rewrite length_take. lia.
  - rewrite scrape_lego_news_other by done. simpl. lia.
Qed.

(** X21: [manual_scrape] runs the scrape and the merge on the events file
    and reports the size of the catalog it leaves.  The catalog afterwards
    and the events broadcast are those of the merge of the scraped
    candidates; the second reply gives the number of entries of the catalog
    afterwards, which is at least the number before and at most the number
    before plus the number of events added; at most five events are added;
    and when none is added the file is left as it is. *)
Theorem manual_scrape_reports year clock fetched events_file :
  let result := manual_scrape year clock fetched events_file in
  let after := result.1.1 in
  let added := result.1.2 in
  (load_data after, added)
  = auto_scrape_task clock (load_data events_file)
      (scrape_lego_news year fetched) ∧
  result.2
  = ["🔍 正在搜尋新活動...";
     "✅ 搜尋完成！" +:+ newline +:+ newline +:+ "目前共有 "
     +:+ str (length (load_data after)) +:+ " 個活動。" +:+ newline
     +:+ "使用 /list 查看。"] ∧
  length (load_data events_file) ≤ length (load_data after)
  ≤ length (load_data events_file) + length added ∧
  length added ≤ 5 ∧
  (added = [] → after = events_file).
Proof.
  cbv zeta. unfold manual_scrape.
  destruct (scrape_task_merge year clock fetched events_file) as [Hm Hsame].
  destruct (scrape_task year clock fetched events_file) as [after added].
  cbn [fst snd] in *.
  pose proof (merge_length_bounds clock (load_data events_file)
                (scrape_lego_news year fetched)) as (H1 & H2 & H3).
  rewrite <-Hm in H1, H2, H3. cbn [fst snd] in H1, H2, H3.
  pose proof (scrape_lego_news_length year fetched).
  split_and!; try done; lia.
Qed.

(** X22: a fetch that fails costs nothing.  When the request raises or the
    status of the response is not 200, no candidate is scraped, and
    [manual_scrape] leaves the events file as it is, broadcasts nothing and
    reports the number of entries that the catalog had. *)
Theorem fetch_failure_no_op year clock fetched events_file :
  (∀ articles, fetched ≠ Response 200 articles) →
  scrape_lego_news year fetched = [] ∧
  manual_scrape year clock fetched events_file
  = (events_file, [],
     ["🔍 正在搜尋新活動...";
      "✅ 搜尋完成！" +:+ newline +:+ newline +:+ "目前共有 "
      +:+ str (length (load_data events_file)) +:+ " 個活動。" +:+ newline
      +:+ "使用 /list 查看。"]).
Proof.
  intros Hf.
  assert (scrape_lego_news year fetched = []) as Hnil.
  { destruct fetched as [|status articles]; [done|].
    apply scrape_lego_news_other. intros ->. by eapply Hf. }
  split; [done|]. unfold manual_scrape, scrape_task. by rewrite Hnil.
Qed.

(** X22 at a request that raises. *)
Lemma fetch_failure_no_op_witness :
  scrape_lego_news 2026 FetchError = [] ∧
  manual_scrape 2026 (λ _, "2026-01-01T00:00:00") FetchError None
  = (None, [],
     ["🔍 正在搜尋新活動...";
      "✅ 搜尋完成！" +:+ newline +:+ newline +:+ "目前共有 "
      +:+ str (length (load_data (None : File Event))) +:+ " 個活動。"
      +:+ newline +:+ "使用 /list 查看。"]).
Proof.
  apply (fetch_failure_no_op 2026 (λ _, "2026-01-01T00:00:00") FetchError
           None).
  intros articles. discriminate.
Defined.

